(** * AutoShorts player: scene timeline, export frame loop, audio mix and
      playback control

    Shallow embedding of the two player components of the repository:

    - [src/components/Player.tsx]: [playAll], [stopAll], [exportToMp4]
      (frame-counted export with transitions);
    - [src/unnamed/part_000]: [playAudio], [stopAudio], [togglePlay],
      [handleVideoEnded], [handleExport] (clip-driven export).

    and of what feeds them:

    - [src/services/geminiService.ts]: [generateScript],
      [generateSceneImage], [generateVeoVideo],
      [generateStoryVideoAssets], [generateNarrationAudio], [decodePCM];
    - the page that mounts the player (App.tsx, kept in Player.tsx from
      line 502 on): [handleGenerate], [checkVeoKey], [getStepStatus] and
      the two persistence effects.

    Numbers.  A JavaScript [number] is an IEEE binary64 value.  The frame
    loop itself only handles integers ([frame], [framesPerScene],
    [videoUrls.length]); they are modelled in [Z].  The two quantities that
    come out of real-valued arithmetic ([totalFrames], [framesPerScene]) are
    given twice: over [Q], where every product and quotient is exact, and in
    [Module B64] over Rocq's primitive binary64 floats, where every
    operation rounds as the JavaScript engine does.  Statements about the
    frame loop take both counts as parameters, so that they hold for the
    values either arithmetic yields.  The seek time of a video (line 284)
    and the export progress of part_000 (line 262) are computed on binary64
    numbers only; [B64.valueOf] gives the exact rational value of such a
    number. *)

From Stdlib Require Import ZArith QArith Qround Qminmax Qabs Qpower Lqa Lia.
From Stdlib Require Import List Bool Ascii String.
From Stdlib Require Import PrimInt63 Uint63 PrimFloat.
From Stdlib Require FloatOps SpecFloat.
Import ListNotations.

Local Open Scope Z_scope.

(* ================================================================= *)
(** ** Export timing ([exportToMp4], Player.tsx lines 162-165) *)

(** [const fps = 30]. *)
Definition fps : Z := 30.

(** [const sceneDuration = audioBuffer.duration / videoUrls.length]
    (the same line opens the scene loop of [playAll], line 115). *)
Definition sceneDuration (duration : Q) (sceneCount : Z) : Q :=
  duration / inject_Z sceneCount.

(** [const totalFrames = Math.ceil(audioBuffer.duration * fps)]. *)
Definition totalFrames (duration : Q) : Z :=
  Qceiling (duration * inject_Z fps).

(** [const framesPerScene = Math.ceil(sceneDuration * fps)]. *)
Definition framesPerScene (duration : Q) (sceneCount : Z) : Z :=
  Qceiling (sceneDuration duration sceneCount * inject_Z fps).

(* ================================================================= *)
(** ** The frame loop body (Player.tsx lines 242-279) *)

(** [Math.min(Math.floor(frame / framesPerScene), videoUrls.length - 1)]. *)
Definition newScene (frame framesPerScene sceneCount : Z) : Z :=
  Z.min (Qfloor (inject_Z frame / inject_Z framesPerScene)) (sceneCount - 1).

(** [frame % framesPerScene]: the remainder takes the sign of [frame]. *)
Definition frameInScene (frame framesPerScene : Z) : Z :=
  Z.rem frame framesPerScene.

(** [Math.min(fps * 0.7, framesPerScene / 2)]. *)
Definition transitionFrames (framesPerScene : Z) : Q :=
  Qmin (inject_Z fps * (7 # 10)) (inject_Z framesPerScene / 2).

(** [Math.min(frameInScene / transitionFrames, 1)]. *)
Definition transitionProgress (frame framesPerScene : Z) : Q :=
  Qmin (inject_Z (frameInScene frame framesPerScene)
        / transitionFrames framesPerScene) 1.

Inductive TransitionType := fade | slide | zoom.

(** What the [switch (transitionType)] leaves in the 2D context before
    [drawImage]: the alpha, the horizontal translation, and the scale about
    the canvas centre ([translate(w/2,h/2); scale(s,s); translate(-w/2,-h/2)]).
    [ctx.save()] is taken on a fresh context, so the untouched fields are the
    defaults: alpha 1, no translation, scale 1. *)
Record DrawState := mkDraw {
  globalAlpha : Q;
  slideOffset : Q;
  scale : Q
}.

Definition canvas_width : Q := 1080.

Definition applyTransition (t : TransitionType) (progress : Q) : DrawState :=
  match t with
  | fade  => mkDraw progress 0 1
  | slide => mkDraw 1 ((1 - progress) * canvas_width) 1
  | zoom  => mkDraw progress 0 ((8 # 10) + (2 # 10) * progress)
  end.

(** One iteration's observable result. *)
Record FrameInfo := mkFrame {
  fr_frame : Z;
  fr_scene : Z;
  fr_inScene : Z;
  fr_progress : Q;
  fr_draw : DrawState
}.

(** [for (let frame = 0; frame < totalFrames; frame++) { ... }] with the loop
    variable [currentScene]; [k] is the number of iterations still to run. *)
Fixpoint renderFrames (k : nat) (frame currentScene : Z)
    (framesPerScene sceneCount : Z) (t : TransitionType) : list FrameInfo :=
  match k with
  | O => []
  | S k' =>
      let newS := newScene frame framesPerScene sceneCount in
      let cur := if negb (newS =? currentScene) then newS else currentScene in
      let p := transitionProgress frame framesPerScene in
      mkFrame frame cur (frameInScene frame framesPerScene) p
              (applyTransition t p)
      :: renderFrames k' (frame + 1) cur framesPerScene sceneCount t
  end.

Definition exportFrames (duration : Q) (sceneCount : Z) (t : TransitionType)
  : list FrameInfo :=
  renderFrames (Z.to_nat (totalFrames duration)) 0 0
               (framesPerScene duration sceneCount) sceneCount t.

(** The same loop for given values of [totalFrames] and [framesPerScene],
    whichever arithmetic produced them; [let currentScene = 0] (line 240). *)
Definition frameLoop (totalFrames framesPerScene sceneCount : Z)
    (t : TransitionType) : list FrameInfo :=
  renderFrames (Z.to_nat totalFrames) 0 0 framesPerScene sceneCount t.

(* ================================================================= *)
(** ** Scene windows *)

(** Modelled from the spec: [sceneWindowFor] is an interface of the design
    document; the source only has [sceneDuration] and lets each scene last
    that long.  Even split, start = index * totalDuration / sceneCount, each
    window of length totalDuration / sceneCount, as a pair (start, end). *)
Definition sceneWindowFor (index : Z) (totalDuration : Q) (sceneCount : Z)
  : Q * Q :=
  let start := (inject_Z index * totalDuration / inject_Z sceneCount)%Q in
  (start, (start + sceneDuration totalDuration sceneCount)%Q).

(** A position lies in the half-open window of scene [index]. *)
Definition inWindow (t : Q) (index : Z) (totalDuration : Q) (sceneCount : Z)
  : Prop :=
  (fst (sceneWindowFor index totalDuration sceneCount) <= t
   /\ t < snd (sceneWindowFor index totalDuration sceneCount))%Q.

(** Modelled from the spec: [resolve] is an interface of the design document
    with no function of its own in the source; it maps a position to the
    active index and the fraction within that scene, clamped to the last
    scene, by the rule the export loop uses for frames. *)
Definition resolve (position : Q) (sceneCount : Z) (totalDuration : Q)
  : Z * Q :=
  let d := sceneDuration totalDuration sceneCount in
  let i := Z.min (Qfloor (position / d)) (sceneCount - 1) in
  (i, ((position - fst (sceneWindowFor i totalDuration sceneCount)) / d)%Q).

(* ================================================================= *)
(** ** The same timing lines on binary64 numbers *)

(** What a binary64 number stands for: a rational, an infinity, or NaN. *)
Inductive Number :=
| Finite (value : Q)
| Infinite (negative : bool)
| NotANumber.

Module B64.
Import PrimFloat.
Local Open Scope bool_scope.
Local Open Scope float_scope.
#[local] Set Warnings "-inexact-float".

Definition two52 : float := 4503599627370496.

(** [Math.floor]: numbers of magnitude 2^52 and more are integers already;
    below that, adding and subtracting 2^52 rounds to the nearest integer,
    which is then corrected downwards. *)
Definition Math_floor (x : float) : float :=
  if is_nan x || is_infinity x || is_zero x then x
  else if two52 <=? abs x then x
  else
    let r := if 0 <? x then (x + two52) - two52 else (x - two52) + two52 in
    if x <? r then r - 1 else r.

(** [Math.ceil(x)] is [-Math.floor(-x)]. *)
Definition Math_ceil (x : float) : float := - Math_floor (- x).

(** [Math.min] of two numbers: NaN if either is NaN, and -0 below +0. *)
Definition Math_min (x y : float) : float :=
  if is_nan x then x else if is_nan y then y
  else if x <? y then x else if y <? x then y
  else if get_sign x then x else y.

Definition fps : float := 30.

(** [AudioBuffer.duration]: the length in sample frames over the sample
    rate, as a binary64 number. *)
Definition bufferDuration (length sampleRate : PrimInt63.int) : float :=
  of_uint63 length / of_uint63 sampleRate.

Definition sceneDuration (duration sceneCount : float) : float :=
  duration / sceneCount.

Definition totalFrames (duration : float) : float :=
  Math_ceil (duration * fps).

Definition framesPerScene (duration sceneCount : float) : float :=
  Math_ceil (sceneDuration duration sceneCount * fps).

Definition unclampedScene (frame framesPerScene : float) : float :=
  Math_floor (frame / framesPerScene).

Definition newScene (frame framesPerScene sceneCount : float) : float :=
  Math_min (unclampedScene frame framesPerScene) (sceneCount - 1).

Definition transitionFrames (framesPerScene : float) : float :=
  Math_min (fps * 0.7) (framesPerScene / 2).

(** The exact value of a number: mantissa times a power of two; both zeros
    have the value 0. *)
Definition valueOf (x : float) : Number :=
  match FloatOps.Prim2SF x with
  | SpecFloat.S754_zero _ => Finite 0
  | SpecFloat.S754_infinity s => Infinite s
  | SpecFloat.S754_nan => NotANumber
  | SpecFloat.S754_finite s m e =>
      Finite ((if s then - inject_Z (Z.pos m) else inject_Z (Z.pos m)) * 2 ^ e)%Q
  end.

(** An integer as a number (exact below 2^53). *)
Definition of_Z (z : Z) : float :=
  if (z <? 0)%Z then - of_uint63 (Uint63.of_Z (- z))
  else of_uint63 (Uint63.of_Z z).

(** The integer an integral number stands for; 0 for NaN and the
    infinities, which no frame count is. *)
Definition toZ (x : float) : Z :=
  match valueOf x with
  | Finite v => Qfloor v
  | _ => 0%Z
  end.

(** [Math.round]: the integer nearest to the value of [x], the larger one
    when two are equally near; NaN and the infinities, which [Math.round]
    hands back as they are, give [None]. *)
Definition Math_round (x : float) : option Z :=
  match valueOf x with
  | Finite v => Some (Qfloor (v + (1 # 2)))
  | _ => None
  end.

(** The frames [exportToMp4] draws for a narration of [length] sample
    frames at [sampleRate] Hz over [sceneCount] scenes, both counts computed
    on binary64 numbers. *)
Definition exportFrames (length sampleRate : PrimInt63.int) (sceneCount : Z)
    (t : TransitionType) : list FrameInfo :=
  let duration := bufferDuration length sampleRate in
  frameLoop (toZ (totalFrames duration))
            (toZ (framesPerScene duration (of_Z sceneCount)))
            sceneCount t.

(** [frameInScene / fps] (line 284). *)
Definition sceneTime (frameInScene : Z) : float := of_Z frameInScene / fps.
End B64.

(* ================================================================= *)
(** ** Effects: completions of a handler *)

(** A handler either returns, throws, or is left awaiting a promise that
    nothing will ever settle.  The state it reached is kept in each case:
    what was done before a throw or an unsettled await stays done. *)
Inductive Completion (S A : Type) : Type :=
| Returns (a : A) (s : S)
| Throws (s : S)
| Awaits (s : S).
Arguments Returns {S A} a s.
Arguments Throws {S A} s.
Arguments Awaits {S A} s.

Definition M (S A : Type) : Type := S -> Completion S A.

Definition ret {S A} (a : A) : M S A := fun s => Returns a s.

Definition bind {S A B} (c : M S A) (k : A -> M S B) : M S B :=
  fun s =>
    match c s with
    | Returns a s' => k a s'
    | Throws s' => Throws s'
    | Awaits s' => Awaits s'
    end.

Declare Scope js_scope.
Delimit Scope js_scope with js.
Notation "x <- c ;; k" := (bind c (fun x => k))
  (at level 61, c at next level, right associativity) : js_scope.
Notation "c ;; k" := (bind c (fun _ => k))
  (at level 61, right associativity) : js_scope.

Definition gets {S A} (f : S -> A) : M S A := fun s => Returns (f s) s.
Definition modify {S} (f : S -> S) : M S unit := fun s => Returns tt (f s).
Definition throw {S A} : M S A := fun s => Throws s.
Definition awaitForever {S A} : M S A := fun s => Awaits s.

(** [try { body } catch (e) { }]: the statement form used around [stop()]. *)
Definition tryIgnore {S} (body : M S unit) : M S unit :=
  fun s =>
    match body s with
    | Throws s' => Returns tt s'
    | other => other
    end.

(** [try { body } catch (e) { handler } finally { cleanup }]. *)
Definition tryCatchFinally {S} (body handler cleanup : M S unit) : M S unit :=
  fun s =>
    match body s with
    | Returns _ s' => cleanup s'
    | Throws s' => bind handler (fun _ => cleanup) s'
    | Awaits s' => Awaits s'
    end.

Definition stateOf {S A} (c : Completion S A) : S :=
  match c with
  | Returns _ s => s
  | Throws s => s
  | Awaits s => s
  end.

Definition returned {S A} (c : Completion S A) : bool :=
  match c with Returns _ _ => true | _ => false end.

Definition threw {S A} (c : Completion S A) : bool :=
  match c with Throws _ => true | _ => false end.

(* ================================================================= *)
(** ** The audio engine and the page, as the components see them *)

Inductive Track := Narration | Bgm.
Inductive Destination := Speakers | CaptureSink.

(** Life of an [AudioBufferSourceNode]: created, started, and then either
    stopped by [stop()] or ended by itself at the end of its buffer. *)
Inductive NodeStatus := Unstarted | Playing | Stopped | Ended.

Record SourceNode := mkNode {
  track : Track;
  loop : bool;
  gain : Q;
  destination : Destination;
  context : nat;
  status : NodeStatus
}.

Inductive ContextState := Running | Closed.

Inductive Effect :=
| ConsoleError
| Alert
| Download (extension : string)
| RecorderStart
| RecorderStop
| ContextClose (ctx : nat)
| NodeStart (id : nat)
| NodeStop (id : nat)
| VideoPlay (i : nat)
| VideoPause (i : nat)
| SetCurrentIndex (i : Z)
| DrawFrame (f : FrameInfo).

Record World := mkWorld {
  nodes : list SourceNode;
  contexts : list ContextState;
  log : list Effect
}.

(** The three refs both components keep. *)
Record Refs := mkRefs {
  audioContextRef : option nat;
  narrationSourceRef : option nat;
  bgmSourceRef : option nat
}.

Record AudioBuffer := mkBuffer { duration : Q }.

Inductive BgmOutcome := FetchFails | DecodeFails | Loads (decoded : AudioBuffer).

Inductive Format := webm | mp4.

(** What the browser decides: whether [stop()] on a source that was already
    stopped is ignored, as the Web Audio API has it, or throws, which is
    what the [try] blocks of part_000 guard against; how loading the
    background track ends; which scene assets load; whether a 2D canvas
    context is available, and which containers [MediaRecorder] accepts. *)
Record Env := mkEnv {
  stop_twice_throws : bool;
  bgm : BgmOutcome;
  decodes : string -> bool;
  canvas2d : bool;
  recorder_supports : Format -> bool
}.

(** [AudioBufferSourceNode.stop()] : [None] stands for a throw. *)
Definition node_stop (env : Env) (n : SourceNode) : option SourceNode :=
  match status n with
  | Unstarted => None
  | Playing =>
      Some (mkNode (track n) (loop n) (gain n) (destination n) (context n) Stopped)
  | Stopped => if stop_twice_throws env then None else Some n
  | Ended => Some n
  end.

Fixpoint update {A} (i : nat) (f : A -> A) (l : list A) : list A :=
  match l, i with
  | [], _ => []
  | x :: r, O => f x :: r
  | x :: r, S j => x :: update j f r
  end.

Definition with_status (st : NodeStatus) (n : SourceNode) : SourceNode :=
  mkNode (track n) (loop n) (gain n) (destination n) (context n) st.

(** A source that plays to the end of its buffer ends by itself. *)
Definition endIfPlaying (n : SourceNode) : SourceNode :=
  match status n with
  | Playing => with_status Ended n
  | _ => n
  end.

(** A component state carries the refs and the world. *)
Class Component (S : Type) := {
  getRefs : S -> Refs;
  setRefs : Refs -> S -> S;
  getWorld : S -> World;
  setWorld : World -> S -> S
}.

Section EngineCalls.
Context {S : Type} `{Component S}.
Local Open Scope js_scope.

Definition emit (e : Effect) : M S unit :=
  modify (fun s =>
    let w := getWorld s in
    setWorld (mkWorld (nodes w) (contexts w) (log w ++ [e])) s).

(** [new AudioContext()] *)
Definition newContext : M S nat :=
  fun s =>
    let w := getWorld s in
    Returns (List.length (contexts w))
            (setWorld (mkWorld (nodes w) (contexts w ++ [Running]) (log w)) s).

(** [ctx.close()] *)
Definition closeContext (ctx : nat) : M S unit :=
  modify (fun s =>
    let w := getWorld s in
    setWorld (mkWorld (nodes w) (update ctx (fun _ => Closed) (contexts w))
                      (log w ++ [ContextClose ctx])) s).

(** [ctx.createBufferSource()], with its buffer, loop flag, gain and the
    destination it is connected to. *)
Definition createSource (t : Track) (lp : bool) (g : Q) (d : Destination)
    (ctx : nat) : M S nat :=
  fun s =>
    let w := getWorld s in
    Returns (List.length (nodes w))
            (setWorld (mkWorld (nodes w ++ [mkNode t lp g d ctx Unstarted])
                               (contexts w) (log w)) s).

(** [source.start(0)] *)
Definition startNode (id : nat) : M S unit :=
  modify (fun s =>
    let w := getWorld s in
    setWorld (mkWorld (update id (with_status Playing) (nodes w)) (contexts w)
                      (log w ++ [NodeStart id])) s).

(** [source.stop()].  The [ended] event that follows is not part of the
    call: the engine dispatches it later, see [Part000.endedAfterStop]
    (Player.tsx attaches no handler to its sources). *)
Definition stopNode (env : Env) (id : nat) : M S unit :=
  fun s =>
    let w := getWorld s in
    match nth_error (nodes w) id with
    | None => Throws s
    | Some n =>
        match node_stop env n with
        | None => Throws s
        | Some n' =>
            Returns tt
              (setWorld (mkWorld (update id (fun _ => n') (nodes w)) (contexts w)
                                 (log w ++ [NodeStop id])) s)
        end
    end.

(** The engine's own event: the source played its buffer to the end. *)
Definition nodeEnds (id : nat) : M S unit :=
  modify (fun s =>
    let w := getWorld s in
    setWorld (mkWorld (update id endIfPlaying (nodes w))
                      (contexts w) (log w)) s).

Definition setAudioContextRef (v : option nat) : M S unit :=
  modify (fun s => let r := getRefs s in
    setRefs (mkRefs v (narrationSourceRef r) (bgmSourceRef r)) s).
Definition setNarrationSourceRef (v : option nat) : M S unit :=
  modify (fun s => let r := getRefs s in
    setRefs (mkRefs (audioContextRef r) v (bgmSourceRef r)) s).
Definition setBgmSourceRef (v : option nat) : M S unit :=
  modify (fun s => let r := getRefs s in
    setRefs (mkRefs (audioContextRef r) (narrationSourceRef r) v) s).

End EngineCalls.

(** [url.startsWith('data:image')] *)
Definition isImage (url : string) : bool := String.prefix "data:image" url.

(** A [<video>] element. *)
Record VideoEl := mkVideo { paused : bool; currentTime : Q }.

(** Is some source of the given track still sounding: started, neither
    stopped nor ended, in a context that is not closed? *)
Definition sounding (w : World) (t : Track) : bool :=
  existsb (fun n =>
    match track n, t, status n, nth_error (contexts w) (context n) with
    | Narration, Narration, Playing, Some Running => true
    | Bgm, Bgm, Playing, Some Running => true
    | _, _, _, _ => false
    end) (nodes w).

Definition alerts (l : list Effect) : nat :=
  List.length (filter (fun e => match e with Alert => true | _ => false end) l).

Definition downloads (l : list Effect) : nat :=
  List.length (filter (fun e => match e with Download _ => true | _ => false end) l).

Definition recorderStarted (l : list Effect) : bool :=
  existsb (fun e => match e with RecorderStart => true | _ => false end) l.

Definition recorderStopped (l : list Effect) : bool :=
  existsb (fun e => match e with RecorderStop => true | _ => false end) l.

Definition indicesSet (l : list Effect) : list Z :=
  flat_map (fun e => match e with SetCurrentIndex i => [i] | _ => [] end) l.

(* ================================================================= *)
(** ** src/components/Player.tsx *)

Module Player.
Local Open Scope js_scope.

Record Props := mkProps {
  videoUrls : list string;
  audioBuffer : option AudioBuffer
}.

(** The [useState] cells and [useRef] cells of the component, and the world. *)
Record State := mkState {
  isPlaying : bool;
  currentIndex : Z;
  prevIndex : Z;
  bgmVolume : Q;
  narrationVolume : Q;
  transitionType : TransitionType;
  isExporting : bool;
  bgmBuffer : option AudioBuffer;
  videoRefs : list (option VideoEl);
  refs : Refs;
  world : World
}.

Definition set_isPlaying (v : bool) (s : State) : State :=
  mkState v (currentIndex s) (prevIndex s) (bgmVolume s) (narrationVolume s)
    (transitionType s) (isExporting s) (bgmBuffer s) (videoRefs s) (refs s)
    (world s).
Definition set_currentIndex (v : Z) (s : State) : State :=
  mkState (isPlaying s) v (prevIndex s) (bgmVolume s) (narrationVolume s)
    (transitionType s) (isExporting s) (bgmBuffer s) (videoRefs s) (refs s)
    (world s).
Definition set_prevIndex (v : Z) (s : State) : State :=
  mkState (isPlaying s) (currentIndex s) v (bgmVolume s) (narrationVolume s)
    (transitionType s) (isExporting s) (bgmBuffer s) (videoRefs s) (refs s)
    (world s).
Definition set_isExporting (v : bool) (s : State) : State :=
  mkState (isPlaying s) (currentIndex s) (prevIndex s) (bgmVolume s)
    (narrationVolume s) (transitionType s) v (bgmBuffer s) (videoRefs s)
    (refs s) (world s).
Definition set_bgmBuffer (v : option AudioBuffer) (s : State) : State :=
  mkState (isPlaying s) (currentIndex s) (prevIndex s) (bgmVolume s)
    (narrationVolume s) (transitionType s) (isExporting s) v (videoRefs s)
    (refs s) (world s).
Definition set_videoRefs (v : list (option VideoEl)) (s : State) : State :=
  mkState (isPlaying s) (currentIndex s) (prevIndex s) (bgmVolume s)
    (narrationVolume s) (transitionType s) (isExporting s) (bgmBuffer s) v
    (refs s) (world s).
Definition set_refs (v : Refs) (s : State) : State :=
  mkState (isPlaying s) (currentIndex s) (prevIndex s) (bgmVolume s)
    (narrationVolume s) (transitionType s) (isExporting s) (bgmBuffer s)
    (videoRefs s) v (world s).
Definition set_world (v : World) (s : State) : State :=
  mkState (isPlaying s) (currentIndex s) (prevIndex s) (bgmVolume s)
    (narrationVolume s) (transitionType s) (isExporting s) (bgmBuffer s)
    (videoRefs s) (refs s) v.

#[global] Instance component : Component State :=
  {| getRefs := refs; setRefs := set_refs;
     getWorld := world; setWorld := set_world |}.

(** The first render: [useState] initial values; a [<video>] element is
    mounted for every url that is not an image, an [<img>] otherwise. *)
Definition initial (p : Props) : State :=
  mkState false 0 (-1) (15 # 100) 1 fade false None
    (map (fun url => if isImage url then None else Some (mkVideo true 0))
         (videoUrls p))
    (mkRefs None None None) (mkWorld [] [] []).

Definition setIsPlaying (v : bool) : M State unit := modify (set_isPlaying v).
Definition setIsExporting (v : bool) : M State unit := modify (set_isExporting v).
Definition setPrevIndex (v : Z) : M State unit := modify (set_prevIndex v).
Definition setCurrentIndex (v : Z) : M State unit :=
  modify (set_currentIndex v) ;; emit (SetCurrentIndex v).

(** [loadBgm], run once on mount. *)
Definition loadBgm (env : Env) : M State unit :=
  match bgm env with
  | FetchFails => emit ConsoleError
  | DecodeFails => _ <- newContext ;; emit ConsoleError
  | Loads decoded =>
      ctx <- newContext ;;
      modify (set_bgmBuffer (Some decoded)) ;;
      closeContext ctx
  end.

(** [ref.current?.stop()] *)
Definition stopIfPresent (env : Env) (r : option nat) : M State unit :=
  match r with
  | Some id => stopNode env id
  | None => ret tt
  end.

(** [videoRefs.current.forEach(v => { if (v) { v.pause(); v.currentTime = 0; } })] *)
Definition pauseAllVideos : M State unit :=
  modify (fun s =>
    set_videoRefs (map (option_map (fun _ => mkVideo true 0)) (videoRefs s)) s).

Definition stopAll (env : Env) : M State unit :=
  n <- gets (fun s => narrationSourceRef (refs s)) ;;
  stopIfPresent env n ;;
  b <- gets (fun s => bgmSourceRef (refs s)) ;;
  stopIfPresent env b ;;
  c <- gets (fun s => audioContextRef (refs s)) ;;
  match c with Some ctx => closeContext ctx | None => ret tt end ;;
  setAudioContextRef None ;;
  pauseAllVideos ;;
  setIsPlaying false.

(** [playAll] up to its scene loop (lines 83-115). *)
Definition playAll_begin (env : Env) : M State unit :=
  stopAll env ;;
  setIsPlaying true ;;
  setCurrentIndex 0 ;;
  setPrevIndex (-1) ;;
  ctx <- newContext ;;
  setAudioContextRef (Some ctx) ;;
  nv <- gets narrationVolume ;;
  narrSource <- createSource Narration false nv Speakers ctx ;;
  startNode narrSource ;;
  setNarrationSourceRef (Some narrSource) ;;
  buf <- gets bgmBuffer ;;
  match buf with
  | Some _ =>
      bv <- gets bgmVolume ;;
      bgmSource <- createSource Bgm true bv Speakers ctx ;;
      startNode bgmSource ;;
      setBgmSourceRef (Some bgmSource)
  | None => ret tt
  end.

(** [const v = videoRefs.current[i]; if (v && !isImage) ...] *)
Definition sceneVideo (i : nat) (url : string) (s : State) : bool :=
  match nth_error (videoRefs s) i with
  | Some (Some _) => negb (isImage url)
  | _ => false
  end.

(** Loop body before the [await]: lines 119-128. *)
Definition sceneEnter (i : nat) (url : string) : M State unit :=
  setPrevIndex (if (0 <? Z.of_nat i)%Z then Z.of_nat i - 1 else -1) ;;
  setCurrentIndex (Z.of_nat i) ;;
  v <- gets (sceneVideo i url) ;;
  if v then
    modify (fun s => set_videoRefs
              (update i (fun _ => Some (mkVideo false 0)) (videoRefs s)) s) ;;
    emit (VideoPlay i)
  else ret tt.

(** Loop body after the [await]: line 131. *)
Definition sceneLeave (i : nat) (url : string) : M State unit :=
  v <- gets (sceneVideo i url) ;;
  if v then
    modify (fun s => set_videoRefs
              (update i (option_map (fun e => mkVideo true (currentTime e)))
                      (videoRefs s)) s) ;;
    emit (VideoPause i)
  else ret tt.

(** The scene loop from scene [i] on.  [during i] is whatever else the event
    loop runs while scene [i] waits for its timer. *)
Fixpoint playAll_scenes (during : nat -> M State unit) (urls : list string)
    (i : nat) : M State unit :=
  match urls with
  | [] => ret tt
  | url :: rest =>
      c <- gets (fun s => audioContextRef (refs s)) ;;
      match c with
      | None => ret tt
      | Some _ =>
          sceneEnter i url ;;
          during i ;;
          sceneLeave i url ;;
          playAll_scenes during rest (S i)
      end
  end.

Definition playAll (env : Env) (p : Props) (during : nat -> M State unit)
  : M State unit :=
  match audioBuffer p with
  | None => ret tt
  | Some _ =>
      playAll_begin env ;;
      playAll_scenes during (videoUrls p) 0 ;;
      setIsPlaying false
  end.

(** Nothing else happens while the scenes play. *)
Definition undisturbed : nat -> M State unit := fun _ => ret tt.

(** The narration source reaches the end of its buffer.  The component
    registers no [onended] handler: only the node changes. *)
Definition narrationEnds : M State unit :=
  r <- gets (fun s => narrationSourceRef (refs s)) ;;
  match r with
  | Some id => nodeEnds id
  | None => ret tt
  end.

(** [await new Promise(r => { img.onload = r; })] and
    [await new Promise(r => { video.onloadeddata = r; })] for every url:
    only a successful load settles the promise. *)
Fixpoint loadMedia (env : Env) (urls : list string) : M State unit :=
  match urls with
  | [] => ret tt
  | url :: rest =>
      if decodes env url then loadMedia env rest else awaitForever
  end.

(** The frame loop: every frame is drawn on the 2D context. *)
Definition renderAll (env : Env) (frames : list FrameInfo) : M State unit :=
  match frames with
  | [] => ret tt
  | _ :: _ =>
      if canvas2d env
      then modify (fun s =>
             let w := world s in
             set_world (mkWorld (nodes w) (contexts w)
                                (log w ++ map DrawFrame frames)) s)
      else throw
  end.

Definition exportJob (env : Env) (p : Props) (buf : AudioBuffer)
  : M State unit :=
  let sceneCount := Z.of_nat (List.length (videoUrls p)) in
  audioCtx <- newContext ;;
  nv <- gets narrationVolume ;;
  narrSource <- createSource Narration false nv CaptureSink audioCtx ;;
  b <- gets bgmBuffer ;;
  match b with
  | Some _ =>
      bv <- gets bgmVolume ;;
      bgmSource <- createSource Bgm true bv CaptureSink audioCtx ;;
      startNode bgmSource
  | None => ret tt
  end ;;
  (if recorder_supports env webm then ret tt else throw) ;;
  emit RecorderStart ;;
  startNode narrSource ;;
  loadMedia env (videoUrls p) ;;
  t <- gets transitionType ;;
  renderAll env (exportFrames (duration buf) sceneCount t) ;;
  emit RecorderStop ;;
  closeContext audioCtx ;;
  emit (Download "webm").

Definition exportToMp4 (env : Env) (p : Props) : M State unit :=
  match audioBuffer p, videoUrls p with
  | None, _ => ret tt
  | Some _, [] => ret tt
  | Some buf, _ :: _ =>
      setIsExporting true ;;
      tryCatchFinally (exportJob env p buf)
                      (emit ConsoleError ;; emit Alert)
                      (setIsExporting false)
  end.

(** The controls as rendered: a [disabled] button ignores the click, an
    element that is not rendered cannot be clicked. *)
Definition clickPlayButton (env : Env) (p : Props)
    (during : nat -> M State unit) : M State unit :=
  e <- gets isExporting ;;
  if e then ret tt
  else
    playing <- gets isPlaying ;;
    if playing then stopAll env else playAll env p during.

Definition clickOverlay (env : Env) (p : Props)
    (during : nat -> M State unit) : M State unit :=
  playing <- gets isPlaying ;;
  e <- gets isExporting ;;
  if negb playing && negb e then playAll env p during else ret tt.

Definition clickDownload (env : Env) (p : Props) : M State unit :=
  e <- gets isExporting ;;
  playing <- gets isPlaying ;;
  if e || playing then ret tt else exportToMp4 env p.

End Player.

(* ================================================================= *)
(** ** src/unnamed/part_000 *)

Module Part000.
Local Open Scope js_scope.

Record Props := mkProps {
  videoUrls : list string;
  audioBuffer : option AudioBuffer
}.

Inductive Resolution := r720p | r1080p.

Record State := mkState {
  isPlaying : bool;
  currentVideoIndex : Z;
  isExportMenuOpen : bool;
  isExporting : bool;
  exportProgress : Z;
  exportFormat : Format;
  exportResolution : Resolution;
  videoRef : option VideoEl;
  bgmBuffer : option AudioBuffer;
  isBgmLoading : bool;
  refs : Refs;
  world : World
}.

Definition set_isPlaying (v : bool) (s : State) : State :=
  mkState v (currentVideoIndex s) (isExportMenuOpen s) (isExporting s)
    (exportProgress s) (exportFormat s) (exportResolution s) (videoRef s)
    (bgmBuffer s) (isBgmLoading s) (refs s) (world s).
Definition set_currentVideoIndex (v : Z) (s : State) : State :=
  mkState (isPlaying s) v (isExportMenuOpen s) (isExporting s)
    (exportProgress s) (exportFormat s) (exportResolution s) (videoRef s)
    (bgmBuffer s) (isBgmLoading s) (refs s) (world s).
Definition set_isExportMenuOpen (v : bool) (s : State) : State :=
  mkState (isPlaying s) (currentVideoIndex s) v (isExporting s)
    (exportProgress s) (exportFormat s) (exportResolution s) (videoRef s)
    (bgmBuffer s) (isBgmLoading s) (refs s) (world s).
Definition set_isExporting (v : bool) (s : State) : State :=
  mkState (isPlaying s) (currentVideoIndex s) (isExportMenuOpen s) v
    (exportProgress s) (exportFormat s) (exportResolution s) (videoRef s)
    (bgmBuffer s) (isBgmLoading s) (refs s) (world s).
Definition set_exportProgress (v : Z) (s : State) : State :=
  mkState (isPlaying s) (currentVideoIndex s) (isExportMenuOpen s)
    (isExporting s) v (exportFormat s) (exportResolution s) (videoRef s)
    (bgmBuffer s) (isBgmLoading s) (refs s) (world s).
Definition set_exportFormat (v : Format) (s : State) : State :=
  mkState (isPlaying s) (currentVideoIndex s) (isExportMenuOpen s)
    (isExporting s) (exportProgress s) v (exportResolution s) (videoRef s)
    (bgmBuffer s) (isBgmLoading s) (refs s) (world s).
Definition set_videoRef (v : option VideoEl) (s : State) : State :=
  mkState (isPlaying s) (currentVideoIndex s) (isExportMenuOpen s)
    (isExporting s) (exportProgress s) (exportFormat s) (exportResolution s) v
    (bgmBuffer s) (isBgmLoading s) (refs s) (world s).
Definition set_bgmBuffer (v : option AudioBuffer) (s : State) : State :=
  mkState (isPlaying s) (currentVideoIndex s) (isExportMenuOpen s)
    (isExporting s) (exportProgress s) (exportFormat s) (exportResolution s)
    (videoRef s) v (isBgmLoading s) (refs s) (world s).
Definition set_isBgmLoading (v : bool) (s : State) : State :=
  mkState (isPlaying s) (currentVideoIndex s) (isExportMenuOpen s)
    (isExporting s) (exportProgress s) (exportFormat s) (exportResolution s)
    (videoRef s) (bgmBuffer s) v (refs s) (world s).
Definition set_refs (v : Refs) (s : State) : State :=
  mkState (isPlaying s) (currentVideoIndex s) (isExportMenuOpen s)
    (isExporting s) (exportProgress s) (exportFormat s) (exportResolution s)
    (videoRef s) (bgmBuffer s) (isBgmLoading s) v (world s).
Definition set_world (v : World) (s : State) : State :=
  mkState (isPlaying s) (currentVideoIndex s) (isExportMenuOpen s)
    (isExporting s) (exportProgress s) (exportFormat s) (exportResolution s)
    (videoRef s) (bgmBuffer s) (isBgmLoading s) (refs s) v.

#[global] Instance component : Component State :=
  {| getRefs := refs; setRefs := set_refs;
     getWorld := world; setWorld := set_world |}.

(** [const currentVideoUrl = videoUrls[currentVideoIndex] || null]: the one
    [<video key={currentVideoUrl}>] is rendered only for a non-empty url. *)
Definition mountedVideo (p : Props) (index : Z) : option VideoEl :=
  if (index <? 0)%Z then None
  else match nth_error (videoUrls p) (Z.to_nat index) with
       | Some url => if String.eqb url "" then None else Some (mkVideo true 0)
       | None => None
       end.

Definition initial (p : Props) : State :=
  mkState false 0 false false 0 webm r720p (mountedVideo p 0) None true
    (mkRefs None None None) (mkWorld [] [] []).

Definition setIsPlaying (v : bool) : M State unit := modify (set_isPlaying v).
Definition setIsExporting (v : bool) : M State unit := modify (set_isExporting v).
Definition setExportProgress (v : Z) : M State unit := modify (set_exportProgress v).
Definition setIsExportMenuOpen (v : bool) : M State unit :=
  modify (set_isExportMenuOpen v).

(** [videoRef.current?.pause()] and [videoRef.current?.play()]. *)
Definition pauseVideo : M State unit :=
  v <- gets videoRef ;;
  match v with
  | Some e =>
      i <- gets currentVideoIndex ;;
      modify (set_videoRef (Some (mkVideo true (currentTime e)))) ;;
      emit (VideoPause (Z.to_nat i))
  | None => ret tt
  end.

Definition playVideo : M State unit :=
  v <- gets videoRef ;;
  match v with
  | Some e =>
      i <- gets currentVideoIndex ;;
      modify (set_videoRef (Some (mkVideo false (currentTime e)))) ;;
      emit (VideoPlay (Z.to_nat i))
  | None => ret tt
  end.

(** The effect on [currentVideoIndex, isPlaying]:
    [if (isPlaying && videoRef.current) videoRef.current.play()]. *)
Definition playEffect : M State unit :=
  playing <- gets isPlaying ;;
  if playing then playVideo else ret tt.

(** [setCurrentVideoIndex]: the new key remounts the [<video>] element,
    then the effect above runs. *)
Definition setCurrentVideoIndex (p : Props) (v : Z) : M State unit :=
  old <- gets currentVideoIndex ;;
  modify (set_currentVideoIndex v) ;;
  (if (old =? v)%Z then ret tt
   else modify (set_videoRef (mountedVideo p v)) ;; playEffect).

(** [loadBgm], run once on mount. *)
Definition loadBgm (env : Env) : M State unit :=
  match bgm env with
  | FetchFails => emit ConsoleError
  | DecodeFails => _ <- newContext ;; emit ConsoleError
  | Loads decoded =>
      ctx <- newContext ;;
      modify (set_bgmBuffer (Some decoded)) ;;
      closeContext ctx
  end ;;
  modify (set_isBgmLoading false).

(** The mount effect that probes [MediaRecorder.isTypeSupported('video/mp4')]. *)
Definition checkMp4Support (env : Env) : M State unit :=
  modify (set_exportFormat (if recorder_supports env mp4 then mp4 else webm)).

Definition handleVideoEnded (p : Props) : M State unit :=
  let n := Z.of_nat (List.length (videoUrls p)) in
  if (1 <? n)%Z then
    i <- gets currentVideoIndex ;;
    setCurrentVideoIndex p (Z.rem (i + 1) n)
  else playVideo.

(** [if (ref.current) { try { ref.current.stop(); } catch (e) {} }] *)
Definition tryStop (env : Env) (r : option nat) : M State unit :=
  match r with
  | Some id => tryIgnore (stopNode env id)
  | None => ret tt
  end.

(** The [onended] handler [playAudio] attaches to the narration source. *)
Definition narrSource_onended (env : Env) (p : Props) : M State unit :=
  setIsPlaying false ;;
  pauseVideo ;;
  b <- gets (fun s => bgmSourceRef (refs s)) ;;
  tryStop env b ;;
  setCurrentVideoIndex p 0.

(** [audioContextRef.current] is kept unless missing or closed. *)
Definition liveContext : M State nat :=
  c <- gets (fun s => audioContextRef (refs s)) ;;
  st <- gets (fun s => match c with
                       | Some ctx => nth_error (contexts (world s)) ctx
                       | None => None
                       end) ;;
  match c, st with
  | Some ctx, Some Running => ret ctx
  | _, _ => ctx <- newContext ;; setAudioContextRef (Some ctx) ;; ret ctx
  end.

Definition playAudio (env : Env) (p : Props) : M State unit :=
  match audioBuffer p with
  | None => ret tt
  | Some _ =>
      ctx <- liveContext ;;
      narrSource <- createSource Narration false 1 Speakers ctx ;;
      buf <- gets bgmBuffer ;;
      match buf with
      | Some _ =>
          bgmSource <- createSource Bgm true (12 # 100) Speakers ctx ;;
          startNode bgmSource ;;
          setBgmSourceRef (Some bgmSource)
      | None => ret tt
      end ;;
      startNode narrSource ;;
      setNarrationSourceRef (Some narrSource)
  end.

(** The narration source reaches the end of its buffer: the engine marks it
    ended and fires the handler. *)
Definition narrationEnds (env : Env) (p : Props) : M State unit :=
  r <- gets (fun s => narrationSourceRef (refs s)) ;;
  match r with
  | Some id => nodeEnds id ;; narrSource_onended env p
  | None => ret tt
  end.

(** The engine dispatches [ended] also for a source that [stop()] has
    stopped, as a task of its own after the handler that called [stop()]
    has returned: the handler attached to narration source [id] runs then,
    on the refs as they are by that time. *)
Definition endedAfterStop (env : Env) (p : Props) (id : nat) : M State unit :=
  st <- gets (fun s => option_map status (nth_error (nodes (world s)) id)) ;;
  match st with
  | Some Stopped => narrSource_onended env p
  | _ => ret tt
  end.

Definition stopAudio (env : Env) : M State unit :=
  n <- gets (fun s => narrationSourceRef (refs s)) ;;
  match n with
  | Some _ => tryStop env n ;; setNarrationSourceRef None
  | None => ret tt
  end ;;
  b <- gets (fun s => bgmSourceRef (refs s)) ;;
  match b with
  | Some _ => tryStop env b ;; setBgmSourceRef None
  | None => ret tt
  end.

Definition togglePlay (env : Env) (p : Props) : M State unit :=
  playing <- gets isPlaying ;;
  if playing then
    stopAudio env ;; pauseVideo ;; setIsPlaying false
  else
    playAudio env p ;; playVideo ;; setIsPlaying true.

(** [Math.round((done / videoUrls.length) * 100)] on binary64 numbers: the
    quotient and the product each round to the nearest number before
    [Math.round] is taken.  The product is NaN or infinite only without
    clips, where the loop body does not run; 0 stands for it. *)
Definition percentDone (done total : Z) : Z :=
  match B64.Math_round
          (PrimFloat.mul (PrimFloat.div (B64.of_Z done) (B64.of_Z total))
                         100%float)
  with
  | Some z => z
  | None => 0
  end.

(** [Math.round(((i + 1) / videoUrls.length) * 100)] (line 262). *)
Definition progressAfter (i : nat) (n : nat) : Z :=
  percentDone (Z.of_nat i + 1) (Z.of_nat n).

(** The clip loop: each promise resolves on [onended] and rejects on
    [onerror]. *)
Fixpoint playClips (env : Env) (urls : list string) (i n : nat)
  : M State unit :=
  match urls with
  | [] => ret tt
  | url :: rest =>
      if decodes env url
      then setExportProgress (progressAfter i n) ;; playClips env rest (S i) n
      else throw
  end.

Definition extension (f : Format) : string :=
  match f with webm => "webm" | mp4 => "mp4" end.

(** The [try] block of [handleExport]. *)
Definition exportJob (env : Env) (p : Props) : M State unit :=
  (if canvas2d env then ret tt else throw) ;;
  offlineCtx <- newContext ;;
  match audioBuffer p with
  | Some _ =>
      source <- createSource Narration false 1 CaptureSink offlineCtx ;;
      startNode source
  | None => ret tt
  end ;;
  b <- gets bgmBuffer ;;
  match b with
  | Some _ =>
      bgmSource <- createSource Bgm true (12 # 100) CaptureSink offlineCtx ;;
      startNode bgmSource
  | None => ret tt
  end ;;
  f <- gets exportFormat ;;
  let mimeType :=
    match f with
    | mp4 => if recorder_supports env mp4 then mp4 else webm
    | webm => webm
    end in
  (if recorder_supports env mimeType then ret tt else throw) ;;
  emit RecorderStart ;;
  playClips env (videoUrls p) 0 (List.length (videoUrls p)) ;;
  emit RecorderStop ;;
  closeContext offlineCtx ;;
  emit (Download (extension f)).

(** Everything [handleExport] does before its [try] block. *)
Definition handleExport_enter (env : Env) (p : Props) : M State unit :=
  setIsExportMenuOpen false ;;
  setIsExporting true ;;
  setExportProgress 0 ;;
  playing <- gets isPlaying ;;
  if playing then togglePlay env p else ret tt.

Definition handleExport (env : Env) (p : Props) : M State unit :=
  handleExport_enter env p ;;
  tryCatchFinally (exportJob env p)
                  (emit ConsoleError ;; emit Alert)
                  (setIsExporting false).

(** The controls as rendered. *)
Definition clickPlayButton (env : Env) (p : Props) : M State unit :=
  l <- gets isBgmLoading ;;
  e <- gets isExporting ;;
  if l || e then ret tt else togglePlay env p.

Definition clickOverlay (env : Env) (p : Props) : M State unit :=
  playing <- gets isPlaying ;;
  e <- gets isExporting ;;
  if negb playing && negb e then togglePlay env p else ret tt.

Definition clickExportMenu : M State unit :=
  e <- gets isExporting ;;
  if e then ret tt
  else o <- gets isExportMenuOpen ;; setIsExportMenuOpen (negb o).

Definition clickStartDownload (env : Env) (p : Props) : M State unit :=
  o <- gets isExportMenuOpen ;;
  if o then handleExport env p else ret tt.

End Part000.

(* ================================================================= *)
(** ** Scenarios used as concrete inputs *)

(** A browser where everything works; a second [stop()] is ignored, as the
    Web Audio API has it. *)
Definition currentEngine : Env :=
  mkEnv false (Loads (mkBuffer 90)) (fun _ => true) true (fun _ => true).

(** The same browser, except that [stop()] on a stopped source throws: an
    engine to try the [try] blocks of part_000 on. *)
Definition strictEngine : Env :=
  mkEnv true (Loads (mkBuffer 90)) (fun _ => true) true (fun _ => true).

(** A browser that cannot fetch the background track. *)
Definition noBgmEngine : Env :=
  mkEnv false FetchFails (fun _ => true) true (fun _ => true).

Definition brokenImage : string := "data:image/png;base64,broken".

(** A browser in which one image of the storyboard does not decode. *)
Definition brokenAssetEngine : Env :=
  mkEnv false (Loads (mkBuffer 90))
        (fun url => negb (String.eqb url brokenImage)) true (fun _ => true).

(** A ten second narration over a clip and an image. *)
Definition twoScenes : Player.Props :=
  Player.mkProps ["blob:clip0"; "data:image/png;base64,AAAA"]%string
                 (Some (mkBuffer 10)).

Definition twoClips : Part000.Props :=
  Part000.mkProps ["blob:clip0"; "blob:clip1"]%string (Some (mkBuffer 10)).

(** Storyboards whose second asset is the broken image. *)
Definition brokenScenes : Player.Props :=
  Player.mkProps ["blob:clip0"; brokenImage]%string (Some (mkBuffer 10)).

Definition brokenClips : Part000.Props :=
  Part000.mkProps ["blob:clip0"; brokenImage]%string (Some (mkBuffer 10)).

(** The status of the source a ref points to. *)
Definition refStatus (w : World) (r : option nat) : option NodeStatus :=
  match r with
  | Some id => option_map status (nth_error (nodes w) id)
  | None => None
  end.

(** Which scenes have a mounted [<video>] element. *)
Definition mounted (vs : list (option VideoEl)) : list bool :=
  map (fun o => match o with Some _ => true | None => false end) vs.

(** What scene [i] adds to the log when nothing else happens meanwhile:
    the index is set, and a video scene is played, then paused. *)
Definition sceneEffects (m : list bool) (i : nat) (url : string)
  : list Effect :=
  SetCurrentIndex (Z.of_nat i)
  :: (if nth i m false && negb (isImage url)
      then [VideoPlay i; VideoPause i] else []).

Fixpoint scenesEffects (m : list bool) (urls : list string) (i : nat)
  : list Effect :=
  match urls with
  | [] => []
  | url :: rest => sceneEffects m i url ++ scenesEffects m rest (S i)
  end.

(** An activity during the scene waits that touches the audio sources only. *)
Definition quiet (during : nat -> M Player.State unit) : Prop :=
  forall i s, exists nodes',
    during i s
    = Returns tt (Player.set_world
                    (mkWorld nodes' (contexts (Player.world s))
                             (log (Player.world s))) s).

(** The narration runs out while the last scene is showing. *)
Definition narrationEndsInLastScene (p : Player.Props)
  : nat -> M Player.State unit :=
  fun i => if Nat.eqb (S i) (List.length (Player.videoUrls p))
           then Player.narrationEnds else ret tt.

(** The source a ref points to, if any, is not playing. *)
Definition notPlaying (w : World) (r : option nat) : Prop :=
  refStatus w r <> Some Playing.

(** A ref is null or points to a source on which [start()] was called. *)
Definition started (w : World) (r : option nat) : Prop :=
  match r with
  | Some id =>
      exists n, nth_error (nodes w) id = Some n /\ status n <> Unstarted
  | None => True
  end.

(** Both source refs of Player.tsx are null or on started sources. *)
Definition refsStarted (s : Player.State) : Prop :=
  started (Player.world s) (narrationSourceRef (Player.refs s))
  /\ started (Player.world s) (bgmSourceRef (Player.refs s)).

(** Whatever runs during the scene waits returns and keeps the refs so. *)
Definition keepsRefsStarted (during : nat -> M Player.State unit) : Prop :=
  forall i s, refsStarted s ->
    exists s', during i s = Returns tt s' /\ refsStarted s'.

(** Is some source of the given track heard through the speakers: live
    playback, as opposed to a source that feeds the capture sink of an
    export? *)
Definition audible (w : World) (t : Track) : bool :=
  existsb (fun n =>
    match track n, t, destination n, status n,
          nth_error (contexts w) (context n) with
    | Narration, Narration, Speakers, Playing, Some Running => true
    | Bgm, Bgm, Speakers, Playing, Some Running => true
    | _, _, _, _, _ => false
    end) (nodes w).

(** How often [stop()] was called on a source and returned. *)
Definition stopCalls (l : list Effect) : nat :=
  List.length
    (filter (fun e => match e with NodeStop _ => true | _ => false end) l).

(** The user presses PAUSE while the first scene is showing. *)
Definition pauseInScene0 (env : Env) (p : Player.Props)
  : nat -> M Player.State unit :=
  fun i => if Nat.eqb i 0
           then Player.clickPlayButton env p Player.undisturbed
           else ret tt.

(* ================================================================= *)
(** ** More of Player.tsx: drawing a frame, the scene classes *)

Definition canvas_height : Q := 1920.

(** The rectangle [ctx.drawImage(media, x, y, scaledWidth, scaledHeight)]
    draws into (lines 287-296), for a medium of the given natural size. *)
Record DrawRect := mkRect {
  rect_x : Q;
  rect_y : Q;
  scaledWidth : Q;
  scaledHeight : Q
}.

Definition coverRect (mediaWidth mediaHeight : Q) : DrawRect :=
  let scaleRatio :=
    Qmax (canvas_width / mediaWidth) (canvas_height / mediaHeight) in
  let scaledWidth := (mediaWidth * scaleRatio)%Q in
  let scaledHeight := (mediaHeight * scaleRatio)%Q in
  mkRect ((canvas_width - scaledWidth) / 2)%Q
         ((canvas_height - scaledHeight) / 2)%Q
         scaledWidth scaledHeight.

(** The integer part of a number, towards zero. *)
Definition Qtrunc (x : Q) : Z :=
  if Qle_bool 0 x then Qfloor x else Qceiling x.

(** [x % d] on numbers: the remainder takes the sign of [x]. *)
Definition Qrem (x d : Q) : Q := (x - d * inject_Z (Qtrunc (x / d)))%Q.

(** [x % d] on binary64 numbers.  The remainder of two finite numbers is
    exact (no rounding); it is NaN when [x] is not finite or [d] is NaN or
    zero, and [x] itself when [d] is infinite. *)
Definition Number_rem (x d : Number) : Number :=
  match x, d with
  | Finite a, Finite b => if Qeq_bool b 0 then NotANumber else Finite (Qrem a b)
  | Finite a, Infinite _ => Finite a
  | _, _ => NotANumber
  end.

(** [video.duration || 1]: NaN (the duration is unknown) and both zeros are
    falsy and replaced by 1; every other number, infinity included, stays. *)
Definition durationOr1 (videoDuration : PrimFloat.float) : PrimFloat.float :=
  match B64.valueOf videoDuration with
  | NotANumber => 1%float
  | Finite v => if Qeq_bool v 0 then 1%float else videoDuration
  | Infinite _ => videoDuration
  end.

(** [video.currentTime = (frameInScene / fps) % (video.duration || 1)]
    (line 284): the quotient is rounded to a binary64 number, the remainder
    is taken of that number and the duration. *)
Definition seekTime (frameInScene : Z) (videoDuration : PrimFloat.float)
  : Number :=
  Number_rem (B64.valueOf (B64.sceneTime frameInScene))
             (B64.valueOf (durationOr1 videoDuration)).

(* ================================================================= *)
(** ** Checks over a range of integers *)

(** [P] holds for the [k] integers from [z] on. *)
Fixpoint allFrom (k : nat) (z : Z) (P : Z -> bool) : bool :=
  match k with
  | O => true
  | S k' => P z && allFrom k' (z + 1) P
  end.

(** The scene time of a frame is a number, not negative, and within 2^-42
    of the exact quotient. *)
Definition sceneTimeChecked (frameInScene : Z) : bool :=
  match B64.valueOf (B64.sceneTime frameInScene) with
  | Finite q =>
      Qle_bool 0 q
      && Qle_bool (Qabs (q - inject_Z frameInScene / inject_Z fps))
                  (1 # 4398046511104)
  | _ => false
  end.

(** From [prev] on, the progress after [done], [done + 1], ... clips of
    [total] never decreases, and the last of the [k] values is 100. *)
Fixpoint risesTo100 (k : nat) (done prev total : Z) : bool :=
  match k with
  | O => prev =? 100
  | S k' =>
      let p := Part000.percentDone done total in
      (prev <=? p) && risesTo100 k' (done + 1) p total
  end.

Definition progressChecked (total : Z) : bool :=
  risesTo100 (Z.to_nat total) 1 0 total.

(** [getTransitionClasses] (lines 51-80). *)
Definition baseClasses : string :=
  "absolute inset-0 w-full h-full object-cover".

Definition getTransitionClasses (transitionType : TransitionType)
    (currentIndex prevIndex index : Z) : string :=
  let isActive := (index =? currentIndex)%Z in
  let isPrev := (index =? prevIndex)%Z in
  match transitionType with
  | fade =>
      (baseClasses ++ " transition-opacity duration-700 "
       ++ (if isActive then "opacity-100" else "opacity-0"))%string
  | slide =>
      if isActive then
        (baseClasses ++ " transition-transform duration-700 ease-out translate-x-0")%string
      else if isPrev then
        (baseClasses ++ " transition-transform duration-700 ease-out -translate-x-full")%string
      else (baseClasses ++ " translate-x-full opacity-0")%string
  | zoom =>
      if isActive then
        (baseClasses ++ " transition-all duration-700 ease-out scale-100 opacity-100")%string
      else if isPrev then
        (baseClasses ++ " transition-all duration-700 ease-out scale-150 opacity-0")%string
      else (baseClasses ++ " scale-75 opacity-0")%string
  end.

(** The class names of a [className] string: its pieces between spaces. *)
Fixpoint classNames (acc : string) (s : string) : list string :=
  match s with
  | EmptyString => if String.eqb acc "" then [] else [acc]
  | String c rest =>
      if Ascii.eqb c " "%char
      then (if String.eqb acc "" then [] else [acc]) ++ classNames "" rest
      else classNames (acc ++ String c "") rest
  end.

Definition hasClass (name : string) (className : string) : bool :=
  existsb (String.eqb name) (classNames "" className).

(* ================================================================= *)
(** ** Strings, as the services and the page use them *)

(** A JavaScript string is kept as the bytes of its UTF-8 encoding. *)

(** [s.includes(sub)] *)
Fixpoint includes (sub s : string) : bool :=
  String.prefix sub s
  || match s with
     | EmptyString => false
     | String _ r => includes sub r
     end.

(** A string in a condition: the empty string is falsy. *)
Definition truthy (s : string) : bool :=
  match s with EmptyString => false | String _ _ => true end.

(** [s.replace(/pat/g, '')] for a literal, non-empty pattern: matches are
    taken from the left and do not overlap; [skip] counts the characters of
    the current match that are still to be dropped. *)
Fixpoint removeAll_from (pat : string) (skip : nat) (s : string) : string :=
  match s with
  | EmptyString => EmptyString
  | String c r =>
      match skip with
      | S k => removeAll_from pat k r
      | O =>
          if String.prefix pat s
          then removeAll_from pat (String.length pat - 1) r
          else String c (removeAll_from pat 0 r)
      end
  end.

Definition removeAll (pat s : string) : string := removeAll_from pat 0 s.

Definition isCode (code : nat) (c : ascii) : bool := Nat.eqb (nat_of_ascii c) code.

Definition between (lo hi : nat) (c : ascii) : bool :=
  Nat.leb lo (nat_of_ascii c) && Nat.leb (nat_of_ascii c) hi.

(** [s.trimStart()]: ECMAScript white space and line terminators, in their
    UTF-8 encodings: U+0009..U+000D, U+0020, U+00A0, U+1680,
    U+2000..U+200A, U+2028, U+2029, U+202F, U+205F, U+3000, U+FEFF. *)
Fixpoint trimStart (s : string) : string :=
  match s with
  | EmptyString => EmptyString
  | String c r =>
      if between 9 13 c || isCode 32 c then trimStart r
      else
        match r with
        | String d r' =>
            if isCode 194 c && isCode 160 d then trimStart r'
            else
              match r' with
              | String e r'' =>
                  if (isCode 225 c && isCode 154 d && isCode 128 e)
                     || (isCode 226 c && isCode 128 d
                         && (between 128 138 e || isCode 168 e || isCode 169 e
                             || isCode 175 e))
                     || (isCode 226 c && isCode 129 d && isCode 159 e)
                     || (isCode 227 c && isCode 128 d && isCode 128 e)
                     || (isCode 239 c && isCode 187 d && isCode 191 e)
                  then trimStart r''
                  else s
              | EmptyString => s
              end
        | EmptyString => s
        end
  end.

(** [!s.trim()] *)
Definition blank (s : string) : bool := negb (truthy (trimStart s)).

(** [s.trimEnd()] *)
Fixpoint trimEnd (s : string) : string :=
  match s with
  | EmptyString => EmptyString
  | String c r => if blank s then EmptyString else String c (trimEnd r)
  end.

(** [s.trim()] *)
Definition trim (s : string) : string := trimEnd (trimStart s).

(** [array.map((x, idx) => f(x, idx))] *)
Fixpoint mapi_from {A B} (i : nat) (f : A -> nat -> B) (l : list A) : list B :=
  match l with
  | [] => []
  | x :: r => f x i :: mapi_from (S i) f r
  end.

Definition mapi {A B} (f : A -> nat -> B) (l : list A) : list B :=
  mapi_from 0 f l.

(* ================================================================= *)
(** ** src/services/geminiService.ts *)

Module Gemini.

(** [ScriptData] and its scenes, by the fields the response schema of
    [generateScript] requires (lines 37-55). *)
Record Scene := mkScene {
  visualPrompt : string;
  narration : string
}.

Record ScriptData := mkScript {
  title : string;
  globalStyle : string;
  scenes : list Scene
}.

(** A thrown value, by what its handlers read: [message] (empty when the
    value has none), [status], [code], and what [JSON.stringify] makes of
    it. *)
Record JsError := mkError {
  message : string;
  status : option Z;
  code : option Z;
  json : string
}.

(** [new Error(message)] *)
Definition newError (m : string) : JsError := mkError m None None "{}".

(** What can be seen of a run from outside: requests to the model, to the
    network and to the key dialog of AI Studio, and console output. *)
Inductive Event :=
| ConsoleError
| ConsoleWarn
| GenerateContent (model : string) (inputs : list string)
| GenerateVideos (imageBytes prompt : string)
| GetVideosOperation
| Fetch (uri : string)
| HasSelectedApiKey
| OpenSelectKey
| NewAudioContext (rate : Z).

(** How a promise of the outside world ends. *)
Inductive Settled (A : Type) : Type :=
| Fulfilled (a : A)
| RejectedWith (e : JsError)
| Unsettled.
Arguments Fulfilled {A} a.
Arguments RejectedWith {A} e.
Arguments Unsettled {A}.

(** A [generateContent] response: [response.text], and for every part of
    the first candidate the [data] of its [inlineData], if it has one. *)
Record Response := mkResponse {
  text : option string;
  parts : list (option string)
}.

(** A video operation: [done], and
    [response?.generatedVideos?.[0]?.video?.uri]. *)
Record Operation := mkOperation {
  done : bool;
  uri : option string
}.

(** A [fetch] response: [ok], and how [blob()] ends (the blob by a name of
    its own). *)
Record FetchResponse := mkFetched {
  ok : bool;
  blob : Settled string
}.

(** The outside world.  Every request is answered by its position in the
    trace of events, so that two requests of the same kind may be answered
    differently.  [patience] is the number of polls of a video operation
    after which an observer stops waiting; [littleEndian] is the byte order
    of the platform's typed arrays; [runtimeMessage] the text the engine
    gives to an error of its own, by the error's name. *)
Record Service := mkService {
  aistudio : bool;
  hasSelectedApiKey : nat -> Settled bool;
  openSelectKey : nat -> Settled unit;
  generateContent : nat -> Settled Response;
  generateVideos : nat -> Settled Operation;
  getVideosOperation : nat -> Settled Operation;
  fetch : nat -> Settled FetchResponse;
  atob : string -> option (list Byte.byte);
  JSON_parse : string -> option ScriptData;
  runtimeMessage : string -> string;
  littleEndian : bool;
  patience : nat
}.

(** *** Asynchronous functions *)

(** An [async] function resolves, rejects with a value, or is left pending
    on a promise that does not settle. *)
Inductive Outcome (S A : Type) : Type :=
| Resolved (a : A) (s : S)
| Rejected (e : JsError) (s : S)
| Pending (s : S).
Arguments Resolved {S A} a s.
Arguments Rejected {S A} e s.
Arguments Pending {S A} s.

Definition Async (S A : Type) : Type := S -> Outcome S A.

Definition pure {S A} (a : A) : Async S A := fun s => Resolved a s.

Definition andThen {S A B} (c : Async S A) (k : A -> Async S B) : Async S B :=
  fun s =>
    match c s with
    | Resolved a s' => k a s'
    | Rejected e s' => Rejected e s'
    | Pending s' => Pending s'
    end.

Definition reject {S A} (e : JsError) : Async S A := fun s => Rejected e s.

Definition pending {S A} : Async S A := fun s => Pending s.

(** [try { body } catch (e) { handler(e) }] *)
Definition catch {S A} (body : Async S A) (handler : JsError -> Async S A)
  : Async S A :=
  fun s =>
    match body s with
    | Rejected e s' => handler e s'
    | other => other
    end.

Definition update {S} (f : S -> S) : Async S unit := fun s => Resolved tt (f s).

Definition final {S A} (o : Outcome S A) : S :=
  match o with
  | Resolved _ s => s
  | Rejected _ s => s
  | Pending s => s
  end.

Declare Scope async_scope.
Delimit Scope async_scope with async.
Notation "x <- c ;; k" := (andThen c (fun x => k))
  (at level 61, c at next level, right associativity) : async_scope.
Notation "c ;; k" := (andThen c (fun _ => k))
  (at level 61, right associativity) : async_scope.

Local Open Scope async_scope.

Definition Trace := list Event.

Definition log (e : Event) : Async Trace unit := update (fun tr => tr ++ [e])%list.

(** [await request]: the request is made, and answered by its position. *)
Definition await {A} (e : Event) (answer : nat -> Settled A) : Async Trace A :=
  fun tr =>
    match answer (List.length tr) with
    | Fulfilled a => Resolved a (tr ++ [e])%list
    | RejectedWith err => Rejected err (tr ++ [e])%list
    | Unsettled => Pending (tr ++ [e])%list
    end.

(** [await promise] for a promise already at hand. *)
Definition settle {S A} (p : Settled A) : Async S A :=
  fun s =>
    match p with
    | Fulfilled a => Resolved a s
    | RejectedWith err => Rejected err s
    | Unsettled => Pending s
    end.

(** [await Promise.all(list.map(f))], the requests settled in list order. *)
Fixpoint traverse {S A B} (f : A -> Async S B) (l : list A)
  : Async S (list B) :=
  match l with
  | [] => pure []
  | x :: r => y <- f x ;; ys <- traverse f r ;; pure (y :: ys)
  end.

(** *** [generateScript] (lines 10-70) *)

Definition generateScript (svc : Service) (topic stylePreference : string)
  : Async Trace ScriptData :=
  response <- await (GenerateContent "gemini-3-flash-preview"
                                     [topic; stylePreference])
                    (generateContent svc) ;;
  match text response with
  | None => reject (newError "No script generated")
  | Some t =>
      if negb (truthy t) then reject (newError "No script generated")
      else
        let cleanedText := trim (removeAll "```" (removeAll "```json" t)) in
        match JSON_parse svc cleanedText with
        | Some data => pure data
        | None =>
            log ConsoleError ;;
            reject (newError "Failed to parse script format.")
        end
  end.

(** *** [generateSceneImage] (lines 73-97) *)

Definition firstInlineData (ps : list (option string)) : option string :=
  match List.find (fun p => match p with Some _ => true | None => false end) ps with
  | Some p => p
  | None => None
  end.

Definition generateSceneImage (svc : Service) (stylePrompt scenePrompt : string)
  : Async Trace string :=
  response <- await (GenerateContent "gemini-2.5-flash-image"
                                     [stylePrompt; scenePrompt])
                    (generateContent svc) ;;
  match firstInlineData (parts response) with
  | Some data => pure data
  | None => reject (newError "No image generated")
  end.

(** *** [generateVeoVideo] (lines 100-157) *)

(** Lines 102-110. *)
Definition keyCheck (svc : Service) (isRetry : bool) : Async Trace unit :=
  catch
    (if aistudio svc then
       select <- (if isRetry then pure true
                  else has <- await HasSelectedApiKey (hasSelectedApiKey svc) ;;
                       pure (negb has)) ;;
       if (select : bool) then await OpenSelectKey (openSelectKey svc)
       else pure tt
     else pure tt)
    (fun _ => log ConsoleWarn).

(** Lines 129-132: poll every five seconds until the operation is done. *)
Fixpoint pollUntilDone (svc : Service) (fuel : nat) (operation : Operation)
  : Async Trace Operation :=
  if done operation then pure operation
  else
    match fuel with
    | O => pending
    | S fuel' =>
        operation' <- await GetVideosOperation (getVideosOperation svc) ;;
        pollUntilDone svc fuel' operation'
    end.

(** [URL.createObjectURL(blob)] *)
Definition createObjectURL (blobName : string) : string :=
  ("blob:" ++ blobName)%string.

(** Lines 115-141, the body of the second [try]. *)
Definition requestVideo (svc : Service) (imageBase64 prompt : string)
  : Async Trace string :=
  operation <- await (GenerateVideos imageBase64 prompt) (generateVideos svc) ;;
  operation <- pollUntilDone svc (patience svc) operation ;;
  match uri operation with
  | None => reject (newError "Video generation failed: No URI")
  | Some videoUri =>
      if negb (truthy videoUri)
      then reject (newError "Video generation failed: No URI")
      else
        videoRes <- await (Fetch videoUri) (fetch svc) ;;
        if negb (ok videoRes)
        then reject (newError "Failed to download video file")
        else b <- settle (blob videoRes) ;; pure (createObjectURL b)
  end.

Definition is404 (v : option Z) : bool :=
  match v with Some n => n =? 404 | None => false end.

(** Lines 144-145. *)
Definition isNotFound (error : JsError) : bool :=
  let errorMsg := if truthy (message error) then message error else json error in
  includes "Requested entity was not found" errorMsg
  || is404 (status error) || is404 (code error).

(** The body of [attemptGeneration], with the function it calls for the
    retry as a parameter. *)
Definition attemptBody (svc : Service) (imageBase64 prompt : string)
    (self : bool -> Async Trace string) (isRetry : bool)
  : Async Trace string :=
  keyCheck svc isRetry ;;
  catch
    (requestVideo svc imageBase64 prompt)
    (fun error =>
       if isNotFound error && negb isRetry && aistudio svc
       then log ConsoleWarn ;;
            await OpenSelectKey (openSelectKey svc) ;;
            self true
       else reject error).

(** [attemptGeneration] calls itself only from a first attempt and only with
    [isRetry = true]: two levels of its body are all there is. *)
Definition attemptGeneration (svc : Service) (imageBase64 prompt : string)
    (isRetry : bool) : Async Trace string :=
  attemptBody svc imageBase64 prompt
    (attemptBody svc imageBase64 prompt (fun _ => pending))
    isRetry.

Definition generateVeoVideo (svc : Service) (imageBase64 prompt : string)
  : Async Trace string :=
  attemptGeneration svc imageBase64 prompt false.

(** *** [generateStoryVideoAssets] (lines 160-185) *)

(** [promise.catch(e => { console.error(..., e); return null; })] *)
Definition orNull {A} (p : Async Trace A) : Async Trace (option A) :=
  catch (a <- p ;; pure (Some a)) (fun _ => log ConsoleError ;; pure None).

(** Lines 167-170. *)
Definition validScenesOf (script : ScriptData) (images : list (option string))
  : list (string * string) :=
  List.concat
    (mapi (fun img idx =>
             match img, nth_error (scenes script) idx with
             | Some data, Some scene =>
                 if truthy data then [(data, visualPrompt scene)] else []
             | _, _ => []
             end)
          images).

Definition somes {A} (l : list (option A)) : list A :=
  flat_map (fun o => match o with Some a => [a] | None => [] end) l.

Definition generateStoryVideoAssets (svc : Service) (script : ScriptData)
  : Async Trace (list string) :=
  images <- traverse
              (fun scene =>
                 orNull (generateSceneImage svc (globalStyle script)
                                            (visualPrompt scene)))
              (scenes script) ;;
  let validScenes := validScenesOf script images in
  if Nat.eqb (List.length validScenes) 0
  then reject (newError "Failed to generate any scene images")
  else
    videoUrls <- traverse
                   (fun scene =>
                      orNull (generateVeoVideo svc (fst scene) (snd scene)))
                   validScenes ;;
    let validVideoUrls := somes videoUrls in
    if Nat.eqb (List.length validVideoUrls) 0
    then reject (newError "Failed to generate any video clips")
    else pure validVideoUrls.

(** *** [decodePCM] (lines 219-236), and [generateNarrationAudio]
        (lines 189-217) *)

(** What is kept of an [AudioBuffer] with one channel. *)
Record PcmBuffer := mkPcm {
  sampleRate : Z;
  channelData : list Q
}.

(** [buffer.duration]: the number of sample frames over the sample rate. *)
Definition asAudioBuffer (b : PcmBuffer) : AudioBuffer :=
  mkBuffer (inject_Z (Z.of_nat (List.length (channelData b)))
            / inject_Z (sampleRate b)).

Definition byteValue (b : Byte.byte) : Z := Z.of_N (Byte.to_N b).

(** One element of an [Int16Array] laid over two bytes. *)
Definition int16 (littleEndian : bool) (b0 b1 : Byte.byte) : Z :=
  let lo := byteValue (if littleEndian then b0 else b1) in
  let hi := byteValue (if littleEndian then b1 else b0) in
  let u := lo + 256 * hi in
  if u <? 32768 then u else u - 65536.

Fixpoint int16Elements (littleEndian : bool) (data : list Byte.byte) : list Z :=
  match data with
  | b0 :: b1 :: r => int16 littleEndian b0 b1 :: int16Elements littleEndian r
  | _ => []
  end.

Inductive Result (A : Type) : Type :=
| Ok (a : A)
| Err (e : JsError).
Arguments Ok {A} a.
Arguments Err {A} e.

Definition runtimeError (svc : Service) (name : string) : JsError :=
  newError (runtimeMessage svc name).

(** [new Int16Array(buffer)]: a RangeError unless the byte length is a
    multiple of two. *)
Definition newInt16Array (svc : Service) (data : list Byte.byte)
  : Result (list Z) :=
  if Nat.even (List.length data)
  then Ok (int16Elements (littleEndian svc) data)
  else Err (runtimeError svc "RangeError").

(** [ctx.createBuffer(1, frameCount, sampleRate)]: a NotSupportedError for a
    buffer of no frames; the samples start as zeros. *)
Definition createBuffer (svc : Service) (frameCount : nat) (rate : Z)
  : Result PcmBuffer :=
  if Nat.eqb frameCount 0 then Err (runtimeError svc "NotSupportedError")
  else Ok (mkPcm rate (repeat 0%Q frameCount)).

(** [channelData[i] = value], ignored outside the array. *)
Fixpoint store (i : nat) (value : Q) (l : list Q) : list Q :=
  match l, i with
  | [], _ => []
  | _ :: r, O => value :: r
  | x :: r, S j => x :: store j value r
  end.

(** Lines 231-233, with [i] running from [from]. *)
Fixpoint fillChannel (dataInt16 : list Z) (from count : nat) (channel : list Q)
  : list Q :=
  match count with
  | O => channel
  | S count' =>
      fillChannel dataInt16 (S from) count'
        (store from (inject_Z (nth from dataInt16 0) / 32768) channel)
  end.

(** [decodePCM(data, ctx)], with the default sample rate and the default
    single channel, the only way it is called. *)
Definition decodePCM (svc : Service) (data : list Byte.byte)
  : Result PcmBuffer :=
  match newInt16Array svc data with
  | Err e => Err e
  | Ok dataInt16 =>
      let frameCount := List.length dataInt16 in
      match createBuffer svc frameCount 24000 with
      | Err e => Err e
      | Ok buffer =>
          Ok (mkPcm (sampleRate buffer)
                    (fillChannel dataInt16 0 frameCount (channelData buffer)))
      end
  end.

Definition ofResult {S A} (r : Result A) : Async S A :=
  fun s => match r with Ok a => Resolved a s | Err e => Rejected e s end.

Definition generateNarrationAudio (svc : Service) (narrationText : string)
  : Async Trace PcmBuffer :=
  response <- await (GenerateContent "gemini-2.5-flash-preview-tts"
                                     [narrationText])
                    (generateContent svc) ;;
  match hd None (parts response) with
  | None => reject (newError "No audio generated")
  | Some base64Audio =>
      if negb (truthy base64Audio) then reject (newError "No audio generated")
      else
        match atob svc base64Audio with
        | None => reject (runtimeError svc "InvalidCharacterError")
        | Some bytes =>
            log (NewAudioContext 24000) ;;
            ofResult (decodePCM svc bytes)
        end
  end.

End Gemini.
(* ================================================================= *)
(** ** The page: App.tsx (Player.tsx lines 502-890) *)

Module App.
Import Gemini.
Local Open Scope async_scope.

(** The members of [AppState] the page names. *)
Inductive AppState :=
| IDLE
| GENERATING_SCRIPT
| GENERATING_IMAGE
| GENERATING_VIDEO
| GENERATING_AUDIO
| COMPLETED
| ERROR.

Definition AppState_eqb (a b : AppState) : bool :=
  match a, b with
  | IDLE, IDLE | GENERATING_SCRIPT, GENERATING_SCRIPT
  | GENERATING_IMAGE, GENERATING_IMAGE | GENERATING_VIDEO, GENERATING_VIDEO
  | GENERATING_AUDIO, GENERATING_AUDIO | COMPLETED, COMPLETED
  | ERROR, ERROR => true
  | _, _ => false
  end.

Record GeneratedAssets := mkAssets {
  script : option ScriptData;
  videoUrls : list string;
  audioBuffer : option PcmBuffer
}.

(** What the page keeps under [STORAGE_KEY]. *)
Record Session := mkSession {
  savedState : AppState;
  savedTopic : string;
  savedStyle : string;
  savedAssets : GeneratedAssets
}.

(** The [useState] cells of the page, [localStorage], and the trace of what
    the page asked of the outside world. *)
Record Page := mkPage {
  state : AppState;
  topic : string;
  selectedStyle : string;
  assets : GeneratedAssets;
  error : option string;
  videoProgress : option (nat * nat);
  isResuming : bool;
  localStorage : option Session;
  trace : Trace
}.

Definition set_state (v : AppState) (p : Page) : Page :=
  mkPage v (topic p) (selectedStyle p) (assets p) (error p) (videoProgress p)
    (isResuming p) (localStorage p) (trace p).
Definition set_assets (v : GeneratedAssets) (p : Page) : Page :=
  mkPage (state p) (topic p) (selectedStyle p) v (error p) (videoProgress p)
    (isResuming p) (localStorage p) (trace p).
Definition set_error (v : option string) (p : Page) : Page :=
  mkPage (state p) (topic p) (selectedStyle p) (assets p) v (videoProgress p)
    (isResuming p) (localStorage p) (trace p).
Definition set_videoProgress (v : option (nat * nat)) (p : Page) : Page :=
  mkPage (state p) (topic p) (selectedStyle p) (assets p) (error p) v
    (isResuming p) (localStorage p) (trace p).
Definition set_isResuming (v : bool) (p : Page) : Page :=
  mkPage (state p) (topic p) (selectedStyle p) (assets p) (error p)
    (videoProgress p) v (localStorage p) (trace p).
Definition set_localStorage (v : option Session) (p : Page) : Page :=
  mkPage (state p) (topic p) (selectedStyle p) (assets p) (error p)
    (videoProgress p) (isResuming p) v (trace p).
Definition set_trace (v : Trace) (p : Page) : Page :=
  mkPage (state p) (topic p) (selectedStyle p) (assets p) (error p)
    (videoProgress p) (isResuming p) (localStorage p) v.

Definition setState (v : AppState) : Async Page unit := update (set_state v).
Definition setError (v : option string) : Async Page unit := update (set_error v).
Definition setIsResuming (v : bool) : Async Page unit := update (set_isResuming v).
Definition setVideoProgress (v : option (nat * nat)) : Async Page unit :=
  update (set_videoProgress v).
(** [setAssets(prev => f(prev))] *)
Definition setAssets (f : GeneratedAssets -> GeneratedAssets) : Async Page unit :=
  update (fun p => set_assets (f (assets p)) p).
Definition removeItem : Async Page unit := update (set_localStorage None).

(** A call into geminiService, or to the console, from the page. *)
Definition service {A} (c : Async Trace A) : Async Page A :=
  fun p =>
    match c (trace p) with
    | Resolved a tr => Resolved a (set_trace tr p)
    | Rejected e tr => Rejected e (set_trace tr p)
    | Pending tr => Pending (set_trace tr p)
    end.

Definition consoleError : Async Page unit := service (log ConsoleError).

(** [VISUAL_STYLES[0]] *)
Definition firstStyle : string * string :=
  ("realistic",
   "Cinematic, hyper-realistic, 8k resolution, professional photography")%string.

(** [VISUAL_STYLES] (lines 511-518), by [id] and [prompt]. *)
Definition VISUAL_STYLES : list (string * string) :=
  firstStyle
  :: [ ("anime",
        "Modern high-quality Japanese anime style, vibrant colors, clean lines");
       ("3d_cartoon",
        "High-end 3D animation style, Pixar/Disney inspired, soft lighting, expressive characters");
       ("cyberpunk",
        "Cyberpunk aesthetic, neon lights, futuristic, rainy city streets, high contrast");
       ("oil_painting",
        "Classical oil painting, thick brushstrokes, rich textures, fine art");
       ("sketch",
        "Hand-drawn pencil sketch, artistic cross-hatching, charcoal details")
     ]%string.

(** The first render (lines 521-531), over what [localStorage] holds. *)
Definition initial (stored : option Session) : Page :=
  mkPage IDLE "" (fst firstStyle) (mkAssets None [] None) None None false
         stored [].

(** *** [checkVeoKey] (lines 571-586) *)

Definition checkVeoKey (svc : Service) : Async Trace bool :=
  if aistudio svc then
    hasKey <- await HasSelectedApiKey (hasSelectedApiKey svc) ;;
    if negb hasKey
    then catch (await OpenSelectKey (openSelectKey svc) ;; pure true)
               (fun _ => log ConsoleError ;; pure false)
    else pure true
  else pure true.

(** *** [handleGenerate] (lines 588-714) *)

(** A scene on its way through the pipeline (lines 608-613). *)
Record PipelineScene := mkPipeline {
  p_visualPrompt : string;
  p_narration : string;
  originalIndex : nat;
  img : string;
  videoUrl : string
}.

Definition set_img (v : string) (s : PipelineScene) : PipelineScene :=
  mkPipeline (p_visualPrompt s) (p_narration s) (originalIndex s) v (videoUrl s).
Definition set_videoUrl (v : string) (s : PipelineScene) : PipelineScene :=
  mkPipeline (p_visualPrompt s) (p_narration s) (originalIndex s) (img s) v.

(** [a || b] on strings, the first of them absent when [None]. *)
Definition orString (a : option string) (b : string) : string :=
  match a with
  | Some s => if truthy s then s else b
  | None => b
  end.

(** What the callback has captured of the render it was made in
    (the dependencies of [useCallback], line 714). *)
Record Captured := mkCaptured {
  c_topic : string;
  c_assets : GeneratedAssets;
  c_selectedStyle : string
}.

Definition captured (p : Page) : Captured :=
  mkCaptured (topic p) (assets p) (selectedStyle p).

(** [resumeAssets?.videoUrls[i]], absent or empty alike. *)
Definition resumedUrl (resumeAssets : option GeneratedAssets) (i : nat) : string :=
  match resumeAssets with
  | Some r => nth i (videoUrls r) ""%string
  | None => ""%string
  end.

(** Lines 608-613. *)
Definition pipelineOf (resumeAssets : option GeneratedAssets)
    (scriptData : ScriptData) : list PipelineScene :=
  mapi (fun s i =>
          mkPipeline (visualPrompt s) (narration s) i
            (if truthy (resumedUrl resumeAssets i) then "EXISTS" else "")
            (resumedUrl resumeAssets i))
       (scenes scriptData).

(** [resumeAssets?.script || assets.script] (line 601). *)
Definition existingScript (cl : Captured) (resumeAssets : option GeneratedAssets)
  : option ScriptData :=
  match resumeAssets with
  | Some r =>
      match script r with
      | Some d => Some d
      | None => script (c_assets cl)
      end
  | None => script (c_assets cl)
  end.

(** Lines 601-606. *)
Definition scriptPhase (svc : Service) (cl : Captured)
    (resumeAssets : option GeneratedAssets) (currentTopic stylePrompt : string)
  : Async Page ScriptData :=
  match existingScript cl resumeAssets with
  | Some scriptData => pure scriptData
  | None =>
      setState GENERATING_SCRIPT ;;
      scriptData <- service (generateScript svc currentTopic stylePrompt) ;;
      setAssets (fun prev => mkAssets (Some scriptData) (videoUrls prev)
                                      (audioBuffer prev)) ;;
      pure scriptData
  end.

(** Lines 618-630: one result per scene, and [lastError] as the callbacks
    leave it, the requests settled in scene order. *)
Fixpoint imagePhase (svc : Service) (style : string)
    (pipelineScenes : list PipelineScene) (lastError : option JsError)
  : Async Page (list (option (nat * string)) * option JsError) :=
  match pipelineScenes with
  | [] => pure ([], lastError)
  | scene :: rest =>
      r <- (if truthy (videoUrl scene)
            then pure (Some (originalIndex scene, "SKIPPED"%string), lastError)
            else
              catch
                (image <- service (generateSceneImage svc style
                                                       (p_visualPrompt scene)) ;;
                 pure (Some (originalIndex scene, image), lastError))
                (fun e => consoleError ;; pure (None, Some e))) ;;
      rs <- imagePhase svc style rest (snd r) ;;
      pure (fst r :: fst rs, snd rs)
  end.

(** Lines 632-643. *)
Definition withImages (pipelineScenes : list PipelineScene)
    (imageResults : list (option (nat * string))) : list PipelineScene :=
  flat_map
    (fun res =>
       match res with
       | Some (index, image) =>
           match List.find (fun s => Nat.eqb (originalIndex s) index)
                           pipelineScenes with
           | Some s => [set_img image s]
           | None => []
           end
       | None => []
       end)
    imageResults.

(** Lines 657-674: the loop from scene [i] on, with [scenesWithVideo] and
    [lastError] as they stand.  The updater given to [setAssets] reads
    [scenesWithVideo] when it is given, not when React runs it. *)
Fixpoint videoPhase (svc : Service) (total i : nat)
    (pipelineScenes scenesWithVideo : list PipelineScene)
    (lastError : option JsError)
  : Async Page (list PipelineScene * option JsError) :=
  match pipelineScenes with
  | [] => pure (scenesWithVideo, lastError)
  | scene :: rest =>
      setVideoProgress (Some (S i, total)) ;;
      if truthy (videoUrl scene)
      then videoPhase svc total (S i) rest (scenesWithVideo ++ [scene])
                      lastError
      else
        r <- catch
               (url <- service (generateVeoVideo svc (img scene)
                                                 (p_visualPrompt scene)) ;;
                let pushed := (scenesWithVideo ++ [set_videoUrl url scene])%list in
                setAssets (fun prev => mkAssets (script prev)
                                                (map videoUrl pushed)
                                                (audioBuffer prev)) ;;
                pure (pushed, lastError))
               (fun e => consoleError ;; pure (scenesWithVideo, Some e)) ;;
        videoPhase svc total (S i) rest (fst r) (snd r)
  end.

(** [throw lastError || new Error(message)] *)
Definition throwLast {A} (lastError : option JsError) (fallback : string)
  : Async Page A :=
  match lastError with
  | Some e => reject e
  | None => reject (newError fallback)
  end.

(** Line 691: what is kept of a pipeline scene in the final script. *)
Definition toScene (s : PipelineScene) : Scene :=
  mkScene (p_visualPrompt s) (p_narration s).

(** [array.join(' ')] *)
Fixpoint join (sep : string) (l : list string) : string :=
  match l with
  | [] => ""
  | [x] => x
  | x :: r => (x ++ sep ++ join sep r)%string
  end.

(** Lines 600-701, the body of the [try]. *)
Definition pipeline (svc : Service) (cl : Captured)
    (resumeAssets : option GeneratedAssets) (currentTopic stylePrompt : string)
  : Async Page unit :=
  scriptData <- scriptPhase svc cl resumeAssets currentTopic stylePrompt ;;
  let pipelineScenes := pipelineOf resumeAssets scriptData in
  setState GENERATING_IMAGE ;;
  images <- imagePhase svc (globalStyle scriptData) pipelineScenes None ;;
  let scenesWithImages := withImages pipelineScenes (fst images) in
  if Nat.eqb (List.length scenesWithImages) 0
  then throwLast (snd images) "이미지 생성에 실패했습니다."
  else
    service (checkVeoKey svc) ;;
    setState GENERATING_VIDEO ;;
    setVideoProgress (Some (O, List.length scenesWithImages)) ;;
    videos <- videoPhase svc (List.length scenesWithImages) 0
                         scenesWithImages [] (snd images) ;;
    let scenesWithVideo := fst videos in
    if Nat.eqb (List.length scenesWithVideo) 0
    then throwLast (snd videos) "비디오 생성에 실패했습니다."
    else
      setAssets (fun prev => mkAssets (script prev)
                                      (map videoUrl scenesWithVideo)
                                      (audioBuffer prev)) ;;
      setVideoProgress None ;;
      setState GENERATING_AUDIO ;;
      let fullNarration := join " " (map p_narration scenesWithVideo) in
      audio <- service (generateNarrationAudio svc fullNarration) ;;
      let finalScript :=
        mkScript (title scriptData) (globalStyle scriptData)
                 (map toScene scenesWithVideo) in
      setAssets (fun _ => mkAssets (Some finalScript)
                                   (map videoUrl scenesWithVideo)
                                   (Some audio)) ;;
      setState COMPLETED ;;
      removeItem.

(** Lines 703-713, the [catch]. *)
Definition reportError (err : JsError) : Async Page unit :=
  consoleError ;;
  let msg := if truthy (message err) then message err
             else "알 수 없는 오류가 발생했습니다."%string in
  let msg := if includes "429" msg || includes "RESOURCE_EXHAUSTED" msg
             then "요청 한도를 초과했습니다. 비디오 생성은 계정당 제한이 엄격합니다. 잠시 후 다시 시도해주세요."%string
             else msg in
  setError (Some msg) ;;
  setState ERROR.

Definition styleOf (currentStyleId : string) : string * string :=
  match List.find (fun s => String.eqb (fst s) currentStyleId) VISUAL_STYLES with
  | Some s => s
  | None => firstStyle
  end.

(** The guard of line 593, for the topic the handler will use. *)
Definition blank_topic (cl : Captured) (forcedTopic : option string) : bool :=
  blank (orString forcedTopic (c_topic cl)).

Definition handleGenerate (svc : Service) (cl : Captured)
    (forcedTopic : option string) (resumeAssets : option GeneratedAssets)
    (forcedStyle : option string) : Async Page unit :=
  let currentTopic := orString forcedTopic (c_topic cl) in
  let currentStyleId := orString forcedStyle (c_selectedStyle cl) in
  let styleObj := styleOf currentStyleId in
  if blank currentTopic then pure tt
  else
    setError None ;;
    setIsResuming false ;;
    catch (pipeline svc cl resumeAssets currentTopic (snd styleObj))
          reportError.

(** The generate button and the Enter key (lines 795-799), and the retry
    button of the error panel. *)
Definition clickGenerate (svc : Service) : Async Page unit :=
  fun p => handleGenerate svc (captured p) None None None p.

(** *** The two persistence effects (lines 534-569) *)

(** Lines 534-547, run after a render in which [state], [topic], [assets]
    or [selectedStyle] changed: the audio buffer is not stored. *)
Definition saveSession : Async Page unit :=
  update (fun p =>
    match state p with
    | IDLE | ERROR => p
    | _ =>
        set_localStorage
          (Some (mkSession (state p) (topic p) (selectedStyle p)
                           (mkAssets (script (assets p)) (videoUrls (assets p))
                                     None)))
          p
    end).

(** Lines 550-569, run once after the first render: the callback it calls
    is the one of that render.  What is stored is taken to be a session the
    save effect wrote, so [JSON.parse] gives it back. *)
Definition loadSession (svc : Service) : Async Page unit :=
  fun p =>
    match localStorage p with
    | None => Resolved tt p
    | Some saved =>
        match savedState saved with
        | COMPLETED => Resolved tt p
        | st =>
            let p1 :=
              set_isResuming true
                (set_assets (savedAssets saved)
                   (mkPage (state p) (savedTopic saved)
                      (if truthy (savedStyle saved) then savedStyle saved
                       else selectedStyle p)
                      (assets p) (error p) (videoProgress p) (isResuming p)
                      (localStorage p) (trace p))) in
            match st with
            | IDLE => Resolved tt p1
            | _ =>
                handleGenerate svc (captured p) (Some (savedTopic saved))
                               (Some (savedAssets saved))
                               (Some (savedStyle saved)) p1
            end
        end
    end.

(** *** [getStepStatus] (lines 727-748) *)

Record StepProps := mkStep {
  step_title : string;
  isActive : bool;
  isCompleted : bool
}.

Definition steps : list (AppState * string) :=
  [ (GENERATING_SCRIPT, "스토리 기획");
    (GENERATING_IMAGE, "이미지 생성");
    (GENERATING_VIDEO, "비디오 생성");
    (GENERATING_AUDIO, "나레이션 & 믹싱") ]%string.

Definition currentStepIndex (st : AppState) : Z :=
  match st with
  | GENERATING_SCRIPT => 0
  | GENERATING_IMAGE => 1
  | GENERATING_VIDEO => 2
  | GENERATING_AUDIO => 3
  | COMPLETED => 4
  | _ => -1
  end.

Definition getStepStatus (st : AppState) : list StepProps :=
  mapi (fun s idx =>
          mkStep (snd s)
                 (Z.of_nat idx =? currentStepIndex st)
                 ((Z.of_nat idx <? currentStepIndex st)
                  || AppState_eqb st COMPLETED))
       steps.

(** The props the page mounts the player with (lines 863-868). *)
Definition playerProps (a : GeneratedAssets) : Player.Props :=
  Player.mkProps (videoUrls a) (option_map asAudioBuffer (audioBuffer a)).

End App.
(* ================================================================= *)
(** ** Reading a trace *)

Definition isGenerateVideos (e : Gemini.Event) : bool :=
  match e with Gemini.GenerateVideos _ _ => true | _ => false end.

Definition isOpenSelectKey (e : Gemini.Event) : bool :=
  match e with Gemini.OpenSelectKey => true | _ => false end.

Definition isKeyDialog (e : Gemini.Event) : bool :=
  match e with
  | Gemini.OpenSelectKey | Gemini.HasSelectedApiKey => true
  | _ => false
  end.

Definition isConsoleError (e : Gemini.Event) : bool :=
  match e with Gemini.ConsoleError => true | _ => false end.

Definition isRequest (e : Gemini.Event) : bool :=
  match e with
  | Gemini.GenerateContent _ _ | Gemini.GenerateVideos _ _
  | Gemini.GetVideosOperation | Gemini.Fetch _ => true
  | _ => false
  end.

Definition occurrences (p : Gemini.Event -> bool) (tr : Gemini.Trace) : nat :=
  List.length (filter p tr).

(** [l] can be had from [m] by leaving elements out. *)
Inductive Subseq {A : Type} : list A -> list A -> Prop :=
| Subseq_nil : Subseq [] []
| Subseq_keep (x : A) (l m : list A) : Subseq l m -> Subseq (x :: l) (x :: m)
| Subseq_drop (x : A) (l m : list A) : Subseq l m -> Subseq l (x :: m).

(** What a 16-bit sample becomes in the channel data. *)
Definition sample (v : Z) : Q := inject_Z v / 32768.

Definition isConsoleWarn (e : Gemini.Event) : bool :=
  match e with Gemini.ConsoleWarn => true | _ => false end.

(** An object URL, or the [null] a failed request is turned into. *)
Definition blobOrNull (o : option string) : Prop :=
  match o with
  | Some url => String.prefix "blob:" url = true
  | None => True
  end.

(* ================================================================= *)
(** ** What the pipeline of [handleGenerate] does to the scenes *)

(** The image step: a scene goes on with an image, or is left out; a scene
    that came with a clip always goes on. *)
Inductive Pictured : list App.PipelineScene -> list App.PipelineScene -> Prop :=
| Pictured_nil : Pictured [] []
| Pictured_kept (s : App.PipelineScene) (image : string) l m :
    Pictured l m -> Pictured (s :: l) (App.set_img image s :: m)
| Pictured_failed (s : App.PipelineScene) l m :
    truthy (App.videoUrl s) = false -> Pictured l m -> Pictured (s :: l) m.

(** The video step: a scene that came with a clip goes on as it is; another
    one goes on with a new object URL, or is left out. *)
Inductive Filmed : list App.PipelineScene -> list App.PipelineScene -> Prop :=
| Filmed_nil : Filmed [] []
| Filmed_kept (s : App.PipelineScene) l m :
    truthy (App.videoUrl s) = true -> Filmed l m -> Filmed (s :: l) (s :: m)
| Filmed_new (s : App.PipelineScene) (url : string) l m :
    truthy (App.videoUrl s) = false -> String.prefix "blob:" url = true ->
    Filmed l m -> Filmed (s :: l) (App.set_videoUrl url s :: m)
| Filmed_failed (s : App.PipelineScene) l m :
    truthy (App.videoUrl s) = false -> Filmed l m -> Filmed (s :: l) m.

(** The cells of the page that only the first lines of [handleGenerate] and
    its [catch] write, and [localStorage]. *)
Definition kept (p q : App.Page) : Prop :=
  App.topic q = App.topic p
  /\ App.selectedStyle q = App.selectedStyle p
  /\ App.error q = App.error p
  /\ App.isResuming q = App.isResuming p
  /\ App.localStorage q = App.localStorage p.

Definition generating (st : App.AppState) : Prop :=
  st = App.GENERATING_SCRIPT \/ st = App.GENERATING_IMAGE
  \/ st = App.GENERATING_VIDEO \/ st = App.GENERATING_AUDIO.

(** An image result belongs to its scene; only a scene without a clip can
    be without one. *)
Definition aligned (s : App.PipelineScene) (r : option (nat * string)) : Prop :=
  match r with
  | Some (i, _) => i = App.originalIndex s
  | None => truthy (App.videoUrl s) = false
  end.

(** What the video loop leaves alone. *)
Definition keptByVideos (p q : App.Page) : Prop :=
  kept p q
  /\ App.state q = App.state p
  /\ App.script (App.assets q) = App.script (App.assets p)
  /\ App.audioBuffer (App.assets q) = App.audioBuffer (App.assets p).

(* ================================================================= *)
(** ** Services and pages used as concrete inputs *)

Definition catStory : Gemini.ScriptData :=
  Gemini.mkScript "cats" "watercolour"
    [Gemini.mkScene "a cat wakes up" "one"; Gemini.mkScene "a cat sleeps" "two"].

(** The PCM bytes of two sample frames. *)
Definition twoFrames : list Byte.byte := [Byte.x00; Byte.x40; Byte.x00; Byte.xc0].

(** Outside AI Studio, every request answered at once and well. *)
Definition workingService : Gemini.Service :=
  Gemini.mkService false
    (fun _ => Gemini.Fulfilled true) (fun _ => Gemini.Fulfilled tt)
    (fun _ => Gemini.Fulfilled (Gemini.mkResponse (Some "{}"%string) [Some "AAAA"%string]))
    (fun _ => Gemini.Fulfilled (Gemini.mkOperation true (Some "https://videos/1"%string)))
    (fun _ => Gemini.Fulfilled (Gemini.mkOperation true (Some "https://videos/1"%string)))
    (fun _ => Gemini.Fulfilled (Gemini.mkFetched true (Gemini.Fulfilled "clip"%string)))
    (fun _ => Some twoFrames) (fun _ => Some catStory) (fun name => name)
    true 3.

(** The same, with every request for a video refused for quota. *)
Definition quotaService : Gemini.Service :=
  Gemini.mkService false
    (fun _ => Gemini.Fulfilled true) (fun _ => Gemini.Fulfilled tt)
    (fun _ => Gemini.Fulfilled (Gemini.mkResponse (Some "{}"%string) [Some "AAAA"%string]))
    (fun _ => Gemini.RejectedWith
                (Gemini.mkError "429 RESOURCE_EXHAUSTED" (Some 429) None "{}"))
    (fun _ => Gemini.Fulfilled (Gemini.mkOperation true (Some "https://videos/1"%string)))
    (fun _ => Gemini.Fulfilled (Gemini.mkFetched true (Gemini.Fulfilled "clip"%string)))
    (fun _ => Some twoFrames) (fun _ => Some catStory) (fun name => name)
    true 3.

(** The page with a topic typed in. *)
Definition catsPage : App.Page :=
  App.mkPage App.IDLE "cats" "anime" (App.mkAssets None [] None) None None
             false None [].

(** What an interrupted run left in [localStorage]: the storyboard and the
    clip of its first scene. *)
Definition interrupted : App.Session :=
  App.mkSession App.GENERATING_VIDEO "cats" "anime"
    (App.mkAssets (Some catStory) ["blob:first"%string] None).

(* ================================================================= *)
(** * Properties *)

(* ================================================================= *)
(** ** Arithmetic helpers *)

Lemma inject_Z_pos (z : Z) : 0 < z -> (0 < inject_Z z)%Q.
Proof. intro H. change 0%Q with (inject_Z 0). now rewrite <- Zlt_Qlt. Qed.

Lemma Qfloor_div_Z (a b : Z) :
  0 < b -> Qfloor (inject_Z a / inject_Z b) = a / b.
Proof.
  intro Hb. destruct b as [|p|p]; try lia.
  unfold Qdiv, Qinv, Qmult, inject_Z, Qfloor; simpl.
  now rewrite Z.mul_1_r.
Qed.

Lemma Qdiv_pos (x y : Q) : (0 <= x -> 0 < y -> 0 <= x / y)%Q.
Proof.
  intros Hx Hy. unfold Qdiv.
  apply Qmult_le_0_compat; [assumption|].
  apply Qlt_le_weak, Qinv_lt_0_compat, Hy.
Qed.

Lemma Qdiv_ge_1 (x y : Q) : (0 < y -> y <= x -> 1 <= x / y)%Q.
Proof.
  intros Hy Hxy. apply Qle_shift_div_l; [assumption|]. now rewrite Qmult_1_l.
Qed.

(* ================================================================= *)
(** ** Frame counts in exact arithmetic *)

Lemma sceneDuration_pos (duration : Q) (sceneCount : Z) :
  1 <= sceneCount -> (0 < duration)%Q ->
  (0 < sceneDuration duration sceneCount)%Q.
Proof.
  intros Hn Hd. unfold sceneDuration.
  apply Qlt_shift_div_l; [apply inject_Z_pos; lia|].
  now rewrite Qmult_0_l.
Qed.

Lemma totalFrames_pos_duration (duration : Q) :
  0 < totalFrames duration -> (0 < duration)%Q.
Proof.
  unfold totalFrames. intro H.
  destruct (Qlt_le_dec 0 duration) as [Hd|Hd]; [assumption|exfalso].
  assert (Hle : (duration * inject_Z fps <= inject_Z 0)%Q).
  { change (inject_Z 0) with 0%Q.
    setoid_replace 0%Q with (0 * inject_Z fps)%Q by ring.
    apply Qmult_le_compat_r; [assumption|]. now unfold fps, inject_Z, Qle. }
  apply Qceiling_resp_le in Hle. rewrite Qceiling_Z in Hle. lia.
Qed.

Lemma framesPerScene_pos (duration : Q) (sceneCount : Z) :
  1 <= sceneCount -> (0 < duration)%Q ->
  0 < framesPerScene duration sceneCount.
Proof.
  intros Hn Hd. unfold framesPerScene.
  pose proof (sceneDuration_pos duration sceneCount Hn Hd) as Hs.
  assert (Hp : (0 < sceneDuration duration sceneCount * inject_Z fps)%Q).
  { apply Qmult_lt_0_compat; [assumption|]. now unfold fps, inject_Z, Qlt. }
  pose proof (Qle_ceiling (sceneDuration duration sceneCount * inject_Z fps)) as Hc.
  rewrite Zlt_Qlt. change (inject_Z 0) with 0%Q.
  eapply Qlt_le_trans; eassumption.
Qed.

Lemma totalFrames_le_scenes (duration : Q) (sceneCount : Z) :
  1 <= sceneCount ->
  totalFrames duration <= sceneCount * framesPerScene duration sceneCount.
Proof.
  intro Hn. unfold totalFrames, framesPerScene.
  set (x := (sceneDuration duration sceneCount * inject_Z fps)%Q).
  rewrite <- (Qceiling_Z (sceneCount * Qceiling x)).
  apply Qceiling_resp_le.
  rewrite inject_Z_mult.
  assert (Hn' : (0 < inject_Z sceneCount)%Q) by (apply inject_Z_pos; lia).
  assert (Hx : (duration * inject_Z fps == inject_Z sceneCount * x)%Q).
  { unfold x, sceneDuration. field. intro E. rewrite E in Hn'.
    now apply Qlt_irrefl in Hn'. }
  rewrite Hx. apply Qmult_le_l; [assumption|]. apply Qle_ceiling.
Qed.

Lemma newScene_div (frame fpsn sceneCount : Z) :
  0 < fpsn -> newScene frame fpsn sceneCount = Z.min (frame / fpsn) (sceneCount - 1).
Proof. intro H. unfold newScene. now rewrite Qfloor_div_Z. Qed.

Lemma newScene_mono (fpsn sceneCount f g : Z) :
  0 < fpsn -> f <= g ->
  newScene f fpsn sceneCount <= newScene g fpsn sceneCount.
Proof.
  intros Hp Hfg. rewrite !newScene_div by assumption.
  apply Z.min_le_compat_r. now apply Z.div_le_mono.
Qed.

Lemma newScene_le_last (frame fpsn sceneCount : Z) :
  newScene frame fpsn sceneCount <= sceneCount - 1.
Proof. unfold newScene. apply Z.le_min_r. Qed.

Lemma export_frames_positive (duration : Q) (sceneCount frame : Z) :
  1 <= sceneCount -> 0 <= frame < totalFrames duration ->
  0 < framesPerScene duration sceneCount.
Proof.
  intros Hn Hf. apply framesPerScene_pos; [assumption|].
  apply totalFrames_pos_duration. lia.
Qed.

(** C2: the scene index of frame f in the export loop,
    min(floor(f / framesPerScene), sceneCount - 1), never exceeds
    sceneCount - 1 and never decreases as f grows.  This holds for every
    frame number and every framesPerScene >= 1, hence for the counts the
    code computes on binary64 numbers as well as for the exact ones; for a
    frame at or beyond sceneCount * framesPerScene it is the clamp that
    keeps the index at sceneCount - 1. *)
Theorem export_scene_index_monotone :
  forall (perScene sceneCount f g : Z),
    1 <= perScene -> 0 <= f <= g ->
    newScene f perScene sceneCount <= newScene g perScene sceneCount
    /\ newScene g perScene sceneCount <= sceneCount - 1
    /\ (1 <= sceneCount -> 0 <= newScene f perScene sceneCount)
    /\ (sceneCount * perScene <= g ->
        newScene g perScene sceneCount = sceneCount - 1).
Proof.
  intros fpsn n f g Hp Hfg.
  split; [apply newScene_mono; lia|].
  split; [apply newScene_le_last|].
  rewrite !newScene_div by lia. split.
  - intro Hn. pose proof (Z.div_pos f fpsn ltac:(lia) ltac:(lia)). lia.
  - intro Hg. apply Z.min_r.
    assert (H : n <= g / fpsn) by (apply Z.div_le_lower_bound; lia). lia.
Qed.

(** The last two frames of the 16.1 s job below: 484 frames, 161 per scene,
    three scenes; floor(483 / 161) is 3. *)
Lemma export_scene_index_monotone_witness :
  newScene 482 161 3 <= newScene 483 161 3
  /\ newScene 483 161 3 <= 3 - 1
  /\ (1 <= 3 -> 0 <= newScene 482 161 3)
  /\ (3 * 161 <= 483 -> newScene 483 161 3 = 3 - 1).
Proof. apply (export_scene_index_monotone 161 3 482 483); lia. Defined.

(** A narration of 386400 sample frames at 24000 Hz (16.1 s) over three
    scenes, counted on binary64 numbers: 484 frames, 161 per scene.  The
    last frame, 483, has floor(483 / 161) = 3 and is drawn with scene 2.
    For each of the 484 frames line 243 evaluated on binary64 numbers gives
    the scene [newScene] gives. *)
Example b64_sixteen_seconds_frames :
  let duration := B64.bufferDuration 386400%uint63 24000%uint63 in
  B64.toZ (B64.totalFrames duration) = 484
  /\ B64.toZ (B64.framesPerScene duration 3) = 161
  /\ B64.exportFrames 386400%uint63 24000%uint63 3 fade
     = frameLoop 484 161 3 fade
  /\ map (fun x => (fr_frame x, fr_scene x, fr_inScene x))
         (skipn 482 (B64.exportFrames 386400%uint63 24000%uint63 3 fade))
     = [(482, 2, 160); (483, 2, 0)]
  /\ Qfloor (inject_Z 483 / inject_Z 161) = 3
  /\ forallb (fun f => PrimFloat.eqb (B64.newScene (B64.of_Z f) 161 3)
                                     (B64.of_Z (newScene f 161 3)))
             (map Z.of_nat (seq 0 484)) = true.
Proof. vm_compute. repeat split. Qed.

(** The loop variable [currentScene] always holds [newScene] of the frame
    being drawn, and frames are numbered consecutively. *)
Lemma renderFrames_spec (k : nat) :
  forall frame cur fpsn sceneCount t i x,
    nth_error (renderFrames k frame cur fpsn sceneCount t) i = Some x ->
    fr_frame x = frame + Z.of_nat i
    /\ fr_scene x = newScene (fr_frame x) fpsn sceneCount
    /\ fr_inScene x = frameInScene (fr_frame x) fpsn
    /\ fr_progress x = transitionProgress (fr_frame x) fpsn
    /\ fr_draw x = applyTransition t (fr_progress x).
Proof.
  induction k as [|k IH]; intros frame cur fpsn sceneCount t i x H.
  - destruct i; discriminate.
  - destruct i as [|i]; simpl in H.
    + injection H as <-. simpl. rewrite Z.add_0_r.
      repeat split.
      destruct (Z.eqb_spec (newScene frame fpsn sceneCount) cur); simpl; congruence.
    + apply IH in H. destruct H as [Hf Hrest]. split; [lia | exact Hrest].
Qed.

Lemma renderFrames_length (k : nat) :
  forall frame cur fpsn sceneCount t,
    List.length (renderFrames k frame cur fpsn sceneCount t) = k.
Proof. induction k; intros; simpl; [|rewrite IHk]; reflexivity. Qed.

(* ================================================================= *)
(** ** Transition progress *)

Lemma transitionFrames_pos (fpsn : Z) :
  0 < fpsn -> (0 < transitionFrames fpsn)%Q.
Proof.
  intro H. unfold transitionFrames. apply Q.min_glb_lt.
  - now unfold fps, inject_Z, Qmult, Qlt.
  - apply Qlt_shift_div_l; [reflexivity|]. rewrite Qmult_0_l.
    now apply inject_Z_pos.
Qed.

Lemma frameInScene_nonneg (frame fpsn : Z) :
  0 <= frame -> 0 < fpsn -> (0 <= inject_Z (frameInScene frame fpsn))%Q.
Proof.
  intros Hf Hp. change 0%Q with (inject_Z 0). rewrite <- Zle_Qle.
  unfold frameInScene. apply Z.rem_nonneg; lia.
Qed.

Lemma transitionProgress_range (frame fpsn : Z) :
  0 <= frame -> 0 < fpsn ->
  (0 <= transitionProgress frame fpsn /\ transitionProgress frame fpsn <= 1)%Q.
Proof.
  intros Hf Hp. unfold transitionProgress. split.
  - apply Q.min_glb; [|discriminate].
    apply Qdiv_pos; [now apply frameInScene_nonneg | now apply transitionFrames_pos].
  - apply Q.le_min_r.
Qed.

Lemma transitionProgress_full (frame fpsn : Z) :
  0 < fpsn ->
  (transitionFrames fpsn <= inject_Z (frameInScene frame fpsn))%Q ->
  (transitionProgress frame fpsn == 1)%Q.
Proof.
  intros Hp Hge. unfold transitionProgress. apply Q.min_r.
  apply Qdiv_ge_1; [now apply transitionFrames_pos | assumption].
Qed.

Lemma applyTransition_full (t : TransitionType) (p : Q) :
  (p == 1)%Q ->
  (globalAlpha (applyTransition t p) == 1
   /\ slideOffset (applyTransition t p) == 0
   /\ scale (applyTransition t p) == 1)%Q.
Proof.
  intro Hp. destruct t; simpl; repeat split; try reflexivity; try assumption;
    rewrite Hp; reflexivity.
Qed.

(** C3: for every frame of an export job the transition progress
    min(frameInScene / transitionFrames, 1), with
    transitionFrames = min(fps * 0.7, framesPerScene / 2), lies in [0,1];
    once frameInScene >= transitionFrames it is exactly 1, and the asset is
    then drawn with alpha 1, no slide offset and scale 1 whatever the
    transition kind. *)
Theorem export_transition_progress :
  forall (duration : Q) (sceneCount frame : Z) (t : TransitionType),
    1 <= sceneCount -> 0 <= frame < totalFrames duration ->
    let fpsn := framesPerScene duration sceneCount in
    let p := transitionProgress frame fpsn in
    (0 <= p /\ p <= 1)%Q
    /\ ((transitionFrames fpsn <= inject_Z (frameInScene frame fpsn))%Q ->
        (p == 1 /\ globalAlpha (applyTransition t p) == 1
         /\ slideOffset (applyTransition t p) == 0
         /\ scale (applyTransition t p) == 1)%Q).
Proof.
  intros duration sceneCount frame t Hn Hf fpsn p.
  assert (Hp : 0 < fpsn)
    by (apply (export_frames_positive duration sceneCount frame); assumption).
  split.
  - apply transitionProgress_range; lia.
  - intro Hge.
    assert (H1 : (p == 1)%Q) by (apply transitionProgress_full; assumption).
    split; [exact H1 | now apply applyTransition_full].
Qed.

Lemma export_transition_progress_witness :
  let p := transitionProgress 149 (framesPerScene 10 2) in
  (0 <= p /\ p <= 1)%Q
  /\ (p == 1 /\ globalAlpha (applyTransition zoom p) == 1
      /\ slideOffset (applyTransition zoom p) == 0
      /\ scale (applyTransition zoom p) == 1)%Q.
Proof.
  destruct (export_transition_progress 10 2 149 zoom) as [Hrange Hfull];
    [lia | split; [lia | vm_compute; reflexivity] |].
  split; [exact Hrange | apply Hfull; vm_compute; discriminate].
Defined.

(** The ten second, two scene job: 300 frames, 150 per scene, a transition
    of 21 frames; frame 149 is in scene 0 at progress 1, frame 150 opens
    scene 1 at progress 0. *)
Example ten_seconds_two_scenes :
  totalFrames 10 = 300 /\ framesPerScene 10 2 = 150
  /\ (transitionFrames 150 == 21)%Q
  /\ map (fun f => (fr_scene f, fr_inScene f))
         (firstn 2 (skipn 149 (exportFrames 10 2 fade)))
     = [(0, 149); (1, 0)]
  /\ (transitionProgress 149 150 == 1)%Q
  /\ (transitionProgress 150 150 == 0)%Q.
Proof. vm_compute. repeat split; intro; discriminate. Qed.

(* ================================================================= *)
(** ** The clamp in exact arithmetic *)

(** C10 (amended): when the products and the quotient are exact,
    totalFrames <= sceneCount * framesPerScene, so for every frame below
    totalFrames floor(frame / framesPerScene) is already at most
    sceneCount - 1 and the clamp returns it unchanged. *)
Theorem exact_clamp_is_identity :
  forall (duration : Q) (sceneCount : Z),
    1 <= sceneCount -> (0 < duration)%Q ->
    let fpsn := framesPerScene duration sceneCount in
    totalFrames duration <= sceneCount * fpsn
    /\ forall frame, 0 <= frame < totalFrames duration ->
         Qfloor (inject_Z frame / inject_Z fpsn) <= sceneCount - 1
         /\ newScene frame fpsn sceneCount
            = Qfloor (inject_Z frame / inject_Z fpsn).
Proof.
  intros duration sceneCount Hn Hd fpsn.
  pose proof (totalFrames_le_scenes duration sceneCount Hn) as Hle.
  pose proof (framesPerScene_pos duration sceneCount Hn Hd) as Hp.
  fold fpsn in Hle, Hp.
  split; [exact Hle|].
  intros frame Hf.
  assert (Hq : Qfloor (inject_Z frame / inject_Z fpsn) <= sceneCount - 1).
  { rewrite Qfloor_div_Z by assumption.
    assert (frame / fpsn < sceneCount); [|lia].
    apply Z.div_lt_upper_bound; lia. }
  split; [exact Hq|]. unfold newScene. now apply Z.min_l.
Qed.

Lemma exact_clamp_is_identity_witness :
  let fpsn := framesPerScene (161 # 10) 3 in
  totalFrames (161 # 10) <= 3 * fpsn
  /\ forall frame, 0 <= frame < totalFrames (161 # 10) ->
       Qfloor (inject_Z frame / inject_Z fpsn) <= 3 - 1
       /\ newScene frame fpsn 3 = Qfloor (inject_Z frame / inject_Z fpsn).
Proof.
  apply (exact_clamp_is_identity (161 # 10) 3); [lia | reflexivity].
Defined.

(* ================================================================= *)
(** ** Scene windows cover the narration *)

Section Windows.
Variable totalDuration : Q.
Variable sceneCount : Z.
Hypothesis Hcount : 1 <= sceneCount.
Hypothesis Hdur : (0 < totalDuration)%Q.

Let d := sceneDuration totalDuration sceneCount.

Lemma count_nonzero : ~ (inject_Z sceneCount == 0)%Q.
Proof.
  intro E. assert (H : (0 < inject_Z sceneCount)%Q) by (apply inject_Z_pos; lia).
  rewrite E in H. now apply Qlt_irrefl in H.
Qed.

Lemma d_pos : (0 < d)%Q.
Proof. apply sceneDuration_pos; assumption. Qed.

Lemma d_total : (inject_Z sceneCount * d == totalDuration)%Q.
Proof. unfold d, sceneDuration. field. apply count_nonzero. Qed.

Lemma window_start (i : Z) :
  (fst (sceneWindowFor i totalDuration sceneCount) == inject_Z i * d)%Q.
Proof. simpl. unfold d, sceneDuration. field. apply count_nonzero. Qed.

Lemma window_end (i : Z) :
  (snd (sceneWindowFor i totalDuration sceneCount) == inject_Z (i + 1) * d)%Q.
Proof.
  simpl. rewrite inject_Z_plus. unfold d, sceneDuration. field.
  apply count_nonzero.
Qed.

Lemma inWindow_iff (t : Q) (i : Z) :
  inWindow t i totalDuration sceneCount
  <-> (inject_Z i * d <= t /\ t < inject_Z (i + 1) * d)%Q.
Proof. unfold inWindow. now rewrite window_start, window_end. Qed.

Lemma scale_lt (a b : Z) : (inject_Z a * d < inject_Z b * d)%Q -> a < b.
Proof. intro H. apply Qmult_lt_r in H; [|apply d_pos]. now rewrite Zlt_Qlt. Qed.

Lemma window_unique (t : Q) (i j : Z) :
  inWindow t i totalDuration sceneCount ->
  inWindow t j totalDuration sceneCount -> i = j.
Proof.
  rewrite !inWindow_iff. intros [Hi1 Hi2] [Hj1 Hj2].
  assert (i < j + 1) by (apply scale_lt; eapply Qle_lt_trans; eassumption).
  assert (j < i + 1) by (apply scale_lt; eapply Qle_lt_trans; eassumption).
  lia.
Qed.

Lemma window_exists (t : Q) :
  (0 <= t)%Q -> (t < totalDuration)%Q ->
  0 <= Qfloor (t / d) < sceneCount
  /\ inWindow t (Qfloor (t / d)) totalDuration sceneCount.
Proof.
  intros H0 HT. pose proof d_pos as Hd.
  pose proof (Qfloor_le (t / d)) as Hlo.
  pose proof (Qlt_floor (t / d)) as Hhi.
  assert (Htd : (t / d * d == t)%Q) by (field; lra).
  assert (Hin : inWindow t (Qfloor (t / d)) totalDuration sceneCount).
  { rewrite inWindow_iff. split.
    - rewrite <- Htd at 2. apply Qmult_le_r; assumption.
    - rewrite <- Htd at 1. apply Qmult_lt_r; assumption. }
  split; [|exact Hin].
  apply inWindow_iff in Hin. destruct Hin as [Hi1 Hi2]. split.
  - assert (Hz : Qfloor 0 <= Qfloor (t / d))
      by (apply Qfloor_resp_le, Qdiv_pos; assumption).
    exact Hz.
  - apply scale_lt. rewrite d_total. eapply Qle_lt_trans; eassumption.
Qed.

Lemma resolve_end :
  fst (resolve totalDuration sceneCount totalDuration) = sceneCount - 1
  /\ (snd (resolve totalDuration sceneCount totalDuration) == 1)%Q.
Proof.
  pose proof d_pos as Hd. pose proof count_nonzero as Hn.
  pose proof Hdur as HT.
  assert (HT0 : ~ (totalDuration == 0)%Q)
    by (intro E; rewrite E in HT; now apply Qlt_irrefl in HT).
  assert (Hfl : Qfloor (totalDuration / d) = sceneCount).
  { rewrite <- (Qfloor_Z sceneCount). apply Qfloor_comp.
    unfold d, sceneDuration. field. split; assumption. }
  assert (Hi : fst (resolve totalDuration sceneCount totalDuration)
               = sceneCount - 1).
  { unfold resolve. cbn [fst]. fold d. rewrite Hfl. lia. }
  split; [exact Hi|].
  unfold resolve. cbn [snd]. fold d. rewrite Hfl.
  replace (Z.min sceneCount (sceneCount - 1)) with (sceneCount - 1) by lia.
  rewrite window_start.
  unfold Z.sub. rewrite inject_Z_plus, inject_Z_opp.
  unfold d, sceneDuration. change (inject_Z 1) with 1%Q.
  field. split; assumption.
Qed.
End Windows.

(** C1: for sceneCount >= 1 and totalDuration > 0 the even-split windows
    start at 0, each one ends where the next begins, the last one ends at
    totalDuration, every position of [0, totalDuration) lies in exactly one
    window and no window reaches outside [0, totalDuration); resolving the
    position totalDuration gives the last scene with fraction 1. *)
Theorem scene_windows_cover_timeline :
  forall (totalDuration : Q) (sceneCount : Z),
    1 <= sceneCount -> (0 < totalDuration)%Q ->
    (fst (sceneWindowFor 0 totalDuration sceneCount) == 0)%Q
    /\ (snd (sceneWindowFor (sceneCount - 1) totalDuration sceneCount)
        == totalDuration)%Q
    /\ (forall i, 0 <= i < sceneCount - 1 ->
          (snd (sceneWindowFor i totalDuration sceneCount)
           == fst (sceneWindowFor (i + 1) totalDuration sceneCount))%Q)
    /\ (forall t, (0 <= t)%Q -> (t < totalDuration)%Q ->
          exists i, 0 <= i < sceneCount
            /\ inWindow t i totalDuration sceneCount
            /\ forall j, 0 <= j < sceneCount ->
                 inWindow t j totalDuration sceneCount -> j = i)
    /\ (forall i t, 0 <= i < sceneCount ->
          inWindow t i totalDuration sceneCount ->
          (0 <= t)%Q /\ (t < totalDuration)%Q)
    /\ fst (resolve totalDuration sceneCount totalDuration) = sceneCount - 1
    /\ (snd (resolve totalDuration sceneCount totalDuration) == 1)%Q.
Proof.
  intros T n Hn HT.
  pose proof (d_pos T n Hn HT) as Hd.
  pose proof (d_total T n Hn) as Htot.
  split; [|split; [|split; [|split; [|split]]]].
  - rewrite (window_start T n Hn). change (inject_Z 0) with 0%Q. ring.
  - rewrite (window_end T n Hn).
    replace (n - 1 + 1) with n by lia. exact Htot.
  - intros i _. now rewrite (window_end T n Hn), (window_start T n Hn).
  - intros t H0 H1.
    destruct (window_exists T n Hn HT t H0 H1) as [Hr Hin].
    exists (Qfloor (t / sceneDuration T n)).
    split; [exact Hr|]. split; [exact Hin|].
    intros j _ Hj. exact (window_unique T n Hn HT t _ _ Hj Hin).
  - intros i t Hi Hin.
    apply (inWindow_iff T n Hn) in Hin. destruct Hin as [Hlo Hhi]. split.
    + eapply Qle_trans; [|exact Hlo].
      apply Qmult_le_0_compat; [|lra].
      change 0%Q with (inject_Z 0). rewrite <- Zle_Qle. lia.
    + assert (Hle : (inject_Z (i + 1) * sceneDuration T n
                       <= inject_Z n * sceneDuration T n)%Q)
        by (apply Qmult_le_r; [assumption | rewrite <- Zle_Qle; lia]).
      eapply Qlt_le_trans; [exact Hhi|].
      eapply Qle_trans; [exact Hle|]. rewrite Htot. apply Qle_refl.
  - apply (resolve_end T n Hn HT).
Qed.

Lemma scene_windows_cover_timeline_witness :
  fst (resolve 10 4 10) = 4 - 1 /\ (snd (resolve 10 4 10) == 1)%Q.
Proof.
  apply (scene_windows_cover_timeline 10 4); [lia | reflexivity].
Defined.

(* ================================================================= *)
(** ** The clamp on binary64 numbers *)

(** The products the exact model takes as 21 and 300 are the same binary64
    numbers: [30 * 0.7] rounds to 21, and a ten second narration in two
    scenes has 300 frames, 150 per scene. *)
Example b64_transitionFrames : B64.transitionFrames 150 = 21%float.
Proof. vm_compute. reflexivity. Qed.

Example b64_ten_seconds :
  B64.totalFrames 10 = 300%float /\ B64.framesPerScene 10 2 = 150%float
  /\ B64.newScene 149 150 2 = 0%float /\ B64.newScene 150 150 2 = 1%float.
Proof. vm_compute. repeat split. Qed.

(** C10 fails on the numbers the code computes with.  A narration of 386400
    sample frames at 24000 Hz lasts 16.1 s; with three scenes [duration * 30]
    rounds to a number just above 483, so totalFrames is 484, while
    [duration / 3 * 30] rounds to 161 exactly: 484 > 3 * 161.  Frame 483 is
    drawn, floor(483 / 161) is 3, and the clamp turns it into 2. *)
Lemma b64_clamp_changes_value :
  let duration := B64.bufferDuration 386400%uint63 24000%uint63 in
  PrimFloat.ltb 0 duration = true
  /\ B64.totalFrames duration = 484%float
  /\ B64.framesPerScene duration 3 = 161%float
  /\ PrimFloat.leb (B64.totalFrames duration)
                   (PrimFloat.mul 3 (B64.framesPerScene duration 3)) = false
  /\ PrimFloat.ltb 483 (B64.totalFrames duration) = true
  /\ B64.unclampedScene 483 (B64.framesPerScene duration 3) = 3%float
  /\ B64.newScene 483 (B64.framesPerScene duration 3) 3 = 2%float.
Proof. vm_compute. repeat split. Qed.

(* ================================================================= *)
(** ** Stopping the audio sources *)

Lemma nth_error_update_same {A} (f : A -> A) (l : list A) (i : nat) :
  nth_error (update i f l) i = option_map f (nth_error l i).
Proof.
  revert i. induction l as [|x l IH]; intros [|i]; simpl; auto.
Qed.

Lemma nth_error_update_other {A} (f : A -> A) (l : list A) (i j : nat) :
  i <> j -> nth_error (update i f l) j = nth_error l j.
Proof.
  revert i j. induction l as [|x l IH]; intros [|i] [|j] Hij; simpl; auto.
  congruence.
Qed.

(** [stop()] never leaves a source playing, and never starts one. *)
Lemma node_stop_not_playing (env : Env) (n n' : SourceNode) :
  node_stop env n = Some n' -> status n' <> Playing.
Proof.
  unfold node_stop. destruct (status n) eqn:E; try discriminate.
  - intros [= <-]. discriminate.
  - destruct (stop_twice_throws env); [discriminate|]. intros [= <-]. congruence.
  - intros [= <-]. congruence.
Qed.

Lemma node_stop_throws_not_playing (env : Env) (n : SourceNode) :
  node_stop env n = None -> status n <> Playing.
Proof. unfold node_stop. destruct (status n); congruence. Qed.

(** [try { ref.current.stop() } catch (e) {}] in part_000: it returns in
    every engine and from every state, only the source heap and the log
    change, the source is not playing afterwards, and no other source is
    set playing. *)
Lemma tryStop_returns (env : Env) (id : nat) (s : Part000.State) :
  exists nodes' log',
    Part000.tryStop env (Some id) s
    = Returns tt (Part000.set_world
                    (mkWorld nodes' (contexts (Part000.world s)) log') s)
    /\ notPlaying (mkWorld nodes' (contexts (Part000.world s)) log') (Some id)
    /\ forall r, notPlaying (Part000.world s) r ->
                 notPlaying (mkWorld nodes' (contexts (Part000.world s)) log') r.
Proof.
  unfold Part000.tryStop, tryIgnore, stopNode. cbn [getWorld setWorld Part000.component].
  destruct s as [a b c d e f g h i j rf [nd cx lg]]; cbn.
  destruct (nth_error nd id) as [n|] eqn:En.
  - destruct (node_stop env n) as [n'|] eqn:Es.
    + exists (update id (fun _ => n') nd), (lg ++ [NodeStop id]).
      split; [reflexivity|]. split.
      * unfold notPlaying, refStatus; cbn. rewrite nth_error_update_same, En. cbn.
        intros [= E]. now apply (node_stop_not_playing env n n').
      * intros [r|]; unfold notPlaying, refStatus; cbn; [|auto].
        destruct (Nat.eq_dec id r) as [<-|Hne].
        -- rewrite nth_error_update_same, En. cbn. intros _ [= E].
           now apply (node_stop_not_playing env n n').
        -- now rewrite nth_error_update_other.
    + exists nd, lg. split; [reflexivity|]. split; [|auto].
      unfold notPlaying, refStatus; cbn. rewrite En. cbn. intros [= E].
      now apply (node_stop_throws_not_playing env n).
  - exists nd, lg. split; [reflexivity|]. split; [|auto].
    unfold notPlaying, refStatus; cbn. rewrite En. discriminate.
Qed.

Arguments Part000.tryStop : simpl never.

(** Unfolding the field updates of the two state records. *)
Ltac unfold_setters :=
  unfold Part000.set_isPlaying, Part000.set_currentVideoIndex,
    Part000.set_isExportMenuOpen, Part000.set_isExporting,
    Part000.set_exportProgress, Part000.set_exportFormat,
    Part000.set_videoRef, Part000.set_bgmBuffer, Part000.set_isBgmLoading,
    Part000.set_refs, Part000.set_world,
    Player.set_isPlaying, Player.set_currentIndex, Player.set_prevIndex,
    Player.set_isExporting, Player.set_bgmBuffer, Player.set_videoRefs,
    Player.set_refs, Player.set_world in *.

Ltac normalise := repeat (progress (unfold_setters; cbn in *)).

(** Running the straight-line part of a handler. *)
Ltac run :=
  repeat (progress
    (unfold bind, ret, gets, modify, emit, throw, awaitForever, newContext,
       closeContext, createSource, startNode, setAudioContextRef,
       setNarrationSourceRef, setBgmSourceRef, tryCatchFinally in *;
     normalise)).

(** [stopAudio] of part_000 returns in every engine and from every state; it
    clears both source refs and leaves neither source playing. *)
Lemma stopAudio_returns (env : Env) (s : Part000.State) :
  exists nodes' log',
    let w' := mkWorld nodes' (contexts (Part000.world s)) log' in
    Part000.stopAudio env s
    = Returns tt (Part000.set_refs
                    (mkRefs (audioContextRef (Part000.refs s)) None None)
                    (Part000.set_world w' s))
    /\ notPlaying w' (narrationSourceRef (Part000.refs s))
    /\ notPlaying w' (bgmSourceRef (Part000.refs s))
    /\ forall r, notPlaying (Part000.world s) r -> notPlaying w' r.
Proof.
  destruct s as [a b c d e f g h i j [cx [n|] [bg|]] w];
    unfold Part000.stopAudio, bind, gets; normalise.
  - destruct (tryStop_returns env n
               (Part000.mkState a b c d e f g h i j (mkRefs cx (Some n) (Some bg)) w))
      as (nd1 & lg1 & E1 & P1 & Q1).
    normalise. rewrite E1.
    unfold setNarrationSourceRef, modify; normalise.
    destruct (tryStop_returns env bg
               (Part000.mkState a b c d e f g h i j (mkRefs cx None (Some bg))
                  (mkWorld nd1 (contexts w) lg1)))
      as (nd2 & lg2 & E2 & P2 & Q2).
    normalise. rewrite E2.
    unfold setBgmSourceRef, modify; normalise.
    exists nd2, lg2. repeat split; auto.
  - destruct (tryStop_returns env n
               (Part000.mkState a b c d e f g h i j (mkRefs cx (Some n) None) w))
      as (nd1 & lg1 & E1 & P1 & Q1).
    normalise. rewrite E1.
    unfold setNarrationSourceRef, modify; normalise.
    exists nd1, lg1. repeat split; auto. discriminate.
  - destruct (tryStop_returns env bg
               (Part000.mkState a b c d e f g h i j (mkRefs cx None (Some bg)) w))
      as (nd2 & lg2 & E2 & P2 & Q2).
    normalise. rewrite E2.
    unfold setBgmSourceRef, modify; normalise.
    exists nd2, lg2. repeat split; auto. discriminate.
  - destruct w as [nd cs lg]. exists nd, lg. normalise.
    repeat split; auto; discriminate.
Qed.

(** Calling [stopAudio] again changes nothing any more. *)
Lemma stopAudio_idempotent (env : Env) (s s1 : Part000.State) :
  Part000.stopAudio env s = Returns tt s1 ->
  Part000.stopAudio env s1 = Returns tt s1.
Proof.
  destruct (stopAudio_returns env s) as (nd & lg & E & _).
  cbn zeta in E. rewrite E. intros [= <-].
  destruct s as [a b c d e f g h i j [cx n bg] w]. reflexivity.
Qed.

(** [stopAll] of Player.tsx has no [try] around its [stop()] calls and
    keeps the refs.  Were a second [stop()] on a stopped source to throw,
    the error would reach the caller: after PLAY and PAUSE a second
    [stopAll] would throw, and so would the next PLAY, whose first
    statement is [stopAll()]. *)
Example stopAll_has_no_catch :
  exists s1 s2,
    bind (Player.loadBgm strictEngine)
         (fun _ => Player.clickPlayButton strictEngine twoScenes
                     (pauseInScene0 strictEngine twoScenes))
         (Player.initial twoScenes) = Returns tt s1
    /\ Player.isPlaying s1 = false
    /\ refStatus (Player.world s1) (narrationSourceRef (Player.refs s1))
       = Some Stopped
    /\ Player.stopAll strictEngine s1 = Throws s1
    /\ Player.clickPlayButton strictEngine twoScenes Player.undisturbed s1
       = Throws s2
    /\ Player.isPlaying s2 = false
    /\ sounding (Player.world s2) Narration = false.
Proof.
  eexists. eexists.
  split; [vm_compute; reflexivity|].
  split; [reflexivity|]. split; [reflexivity|].
  split; [vm_compute; reflexivity|].
  split; [vm_compute; reflexivity|].
  split; reflexivity.
Qed.

(* ================================================================= *)
(** ** Export with an asset that does not load *)

Lemma alerts_app (l l' : list Effect) : alerts (l ++ l') = (alerts l + alerts l')%nat.
Proof. unfold alerts. now rewrite filter_app, length_app. Qed.

Lemma downloads_app (l l' : list Effect) :
  downloads (l ++ l') = (downloads l + downloads l')%nat.
Proof. unfold downloads. now rewrite filter_app, length_app. Qed.

Lemma alerts_frames (fs : list FrameInfo) : alerts (map DrawFrame fs) = 0%nat.
Proof. unfold alerts. induction fs; simpl; auto. Qed.

Lemma downloads_frames (fs : list FrameInfo) : downloads (map DrawFrame fs) = 0%nat.
Proof. unfold downloads. induction fs; simpl; auto. Qed.

(** In Player.tsx a load that fails settles nothing: the loop that loads the
    media never gets past it. *)
Lemma loadMedia_awaits (env : Env) (urls : list string) :
  (exists url, In url urls /\ decodes env url = false) ->
  forall s, Player.loadMedia env urls s = Awaits s.
Proof.
  induction urls as [|u rest IH]; intros (url & Hin & Hbad) s.
  - destruct Hin.
  - simpl. destruct (decodes env u) eqn:Eu; [|reflexivity].
    apply IH. destruct Hin as [->|Hin]; [congruence|]. now exists url.
Qed.

Lemma loadMedia_returns (env : Env) (urls : list string) :
  (forall url, In url urls -> decodes env url = true) ->
  forall s, Player.loadMedia env urls s = Returns tt s.
Proof.
  induction urls as [|u rest IH]; intros Hall s; [reflexivity|].
  simpl. rewrite (Hall u) by now left. apply IH. intros url Hin.
  apply Hall. now right.
Qed.

Lemma loadMedia_cases (env : Env) (urls : list string) (s : Player.State) :
  Player.loadMedia env urls s
  = if forallb (decodes env) urls then Returns tt s else Awaits s.
Proof.
  induction urls as [|u rest IH]; [reflexivity|].
  unfold Player.loadMedia; fold Player.loadMedia. cbn [forallb].
  destruct (decodes env u); cbn [andb]; [exact IH | reflexivity].
Qed.

Arguments Player.loadMedia : simpl never.
Arguments exportFrames : simpl never.
Arguments alerts : simpl never.
Arguments downloads : simpl never.
Arguments recorderStarted : simpl never.
Arguments recorderStopped : simpl never.

(** Whenever some asset does not load, [exportToMp4] is left awaiting with
    the exporting flag set; nothing was alerted or downloaded on the way. *)
Lemma exportToMp4_awaits (env : Env) (p : Player.Props) (buf : AudioBuffer)
    (s : Player.State) :
  Player.audioBuffer p = Some buf ->
  recorder_supports env webm = true ->
  (exists url, In url (Player.videoUrls p) /\ decodes env url = false) ->
  exists s',
    Player.exportToMp4 env p s = Awaits s'
    /\ Player.isExporting s' = true
    /\ alerts (log (Player.world s')) = alerts (log (Player.world s))
    /\ downloads (log (Player.world s')) = downloads (log (Player.world s))
    /\ recorderStopped (log (Player.world s'))
       = recorderStopped (log (Player.world s)).
Proof.
  intros Hbuf Hrec Hbad.
  destruct p as [urls ab]; cbn in Hbuf, Hbad; subst ab.
  destruct urls as [|u rest]; [destruct Hbad as (? & [] & _)|].
  destruct s as [a b c d e f g h i rf [nd cx lg]].
  unfold Player.exportToMp4, Player.exportJob, tryCatchFinally, bind,
    Player.setIsExporting, modify, gets, newContext, createSource, startNode,
    emit, ret; normalise.
  rewrite Hrec.
  destruct h as [bb|]; normalise; rewrite (loadMedia_awaits env (u :: rest) Hbad);
    eexists; (split; [reflexivity|]); normalise;
    rewrite <- !app_assoc;
    rewrite !alerts_app, !downloads_app;
    unfold recorderStopped; rewrite !existsb_app; simpl;
    rewrite ?Nat.add_0_r, ?orb_false_r; auto.
Qed.

(** C6 fails on Player.tsx.  The second asset is an image that does not
    decode: [img.onload] never fires, the promise is never settled, and
    [exportToMp4] stays suspended inside its [try]: no alert, no download,
    the exporting flag still set, the recorder started and never stopped,
    the capture context still running its narration source.  On the same
    storyboard [handleExport] of part_000 does abort, with one alert, no
    download and the flag cleared, though its recorder is never stopped and
    its capture context never closed either. *)
Theorem export_hangs_on_broken_asset :
  (exists s,
     bind (Player.loadBgm brokenAssetEngine)
          (fun _ => Player.clickDownload brokenAssetEngine brokenScenes)
          (Player.initial brokenScenes) = Awaits s
     /\ Player.isExporting s = true
     /\ alerts (log (Player.world s)) = 0%nat
     /\ downloads (log (Player.world s)) = 0%nat
     /\ recorderStarted (log (Player.world s)) = true
     /\ recorderStopped (log (Player.world s)) = false
     /\ sounding (Player.world s) Narration = true)
  /\ (exists s,
     bind (Part000.loadBgm brokenAssetEngine)
          (fun _ => bind Part000.clickExportMenu
          (fun _ => Part000.clickStartDownload brokenAssetEngine brokenClips))
          (Part000.initial brokenClips) = Returns tt s
     /\ Part000.isExporting s = false
     /\ alerts (log (Part000.world s)) = 1%nat
     /\ downloads (log (Part000.world s)) = 0%nat
     /\ recorderStarted (log (Part000.world s)) = true
     /\ recorderStopped (log (Part000.world s)) = false
     /\ sounding (Part000.world s) Narration = true).
Proof.
  split; eexists; (split; [vm_compute; reflexivity|]); repeat split.
Qed.

(* ================================================================= *)
(** ** The scene loop of [playAll] *)

Lemma mounted_update_some (vs : list (option VideoEl)) (i : nat)
    (f : option VideoEl -> option VideoEl) :
  (forall e, exists e', f (Some e) = Some e') ->
  (exists e, nth_error vs i = Some (Some e)) ->
  mounted (update i f vs) = mounted vs.
Proof.
  intros Hf. revert i. induction vs as [|v vs IH]; intros [|i] [e He];
    simpl in *; try discriminate.
  - injection He as ->. destruct (Hf e) as [e' ->]. reflexivity.
  - f_equal. apply IH. now exists e.
Qed.

Lemma sceneVideo_mounted (i : nat) (url : string) (s : Player.State) :
  Player.sceneVideo i url s
  = nth i (mounted (Player.videoRefs s)) false && negb (isImage url).
Proof.
  unfold Player.sceneVideo. generalize (Player.videoRefs s) as vs.
  intro vs. revert i. induction vs as [|v vs IH]; intros [|i]; simpl; auto.
  destruct v; reflexivity.
Qed.

Lemma sceneVideo_true (i : nat) (url : string) (s : Player.State) :
  Player.sceneVideo i url s = true ->
  exists e, nth_error (Player.videoRefs s) i = Some (Some e).
Proof.
  unfold Player.sceneVideo.
  destruct (nth_error (Player.videoRefs s) i) as [[e|]|]; try discriminate.
  intros _. now exists e.
Qed.

Lemma sceneVideo_ext (i : nat) (url : string) (s1 s2 : Player.State) :
  Player.videoRefs s1 = Player.videoRefs s2 ->
  Player.sceneVideo i url s1 = Player.sceneVideo i url s2.
Proof. unfold Player.sceneVideo. now intros ->. Qed.

Arguments Player.sceneVideo : simpl never.
Arguments mounted : simpl never.

Ltac sceneVideo_is v E :=
  match goal with
  | |- context [Player.sceneVideo ?i ?url ?st] =>
      replace (Player.sceneVideo i url st) with v
        by (symmetry; rewrite <- E; apply sceneVideo_ext; reflexivity)
  end.

(** One scene of the loop, with a quiet wait: what it leaves unchanged and
    what it adds to the log. *)
Lemma scene_step (during : nat -> M Player.State unit) (i : nat)
    (url : string) (s : Player.State) :
  quiet during ->
  exists s',
    bind (Player.sceneEnter i url)
         (fun _ => bind (during i) (fun _ => Player.sceneLeave i url)) s
    = Returns tt s'
    /\ Player.refs s' = Player.refs s
    /\ mounted (Player.videoRefs s') = mounted (Player.videoRefs s)
    /\ Player.isPlaying s' = Player.isPlaying s
    /\ Player.isExporting s' = Player.isExporting s
    /\ Player.currentIndex s' = Z.of_nat i
    /\ contexts (Player.world s') = contexts (Player.world s)
    /\ log (Player.world s')
       = log (Player.world s) ++ sceneEffects (mounted (Player.videoRefs s)) i url.
Proof.
  intro Hq. unfold sceneEffects. rewrite <- sceneVideo_mounted.
  destruct (Player.sceneVideo i url s) eqn:Ev.
  - pose proof (sceneVideo_true i url s Ev) as Hnth.
    destruct s as [a b c d e f g h vs rf [nd cx lg]].
    unfold Player.sceneEnter, Player.sceneLeave, Player.setPrevIndex,
      Player.setCurrentIndex; run.
    sceneVideo_is true Ev. run.
    set (vs1 := update i (fun _ => Some (mkVideo false 0)) vs).
    assert (Hm1 : mounted vs1 = mounted vs).
    { apply mounted_update_some; [|exact Hnth]. intros ?. eauto. }
    match goal with
    | |- context [during i ?st] =>
        destruct (Hq i st) as [nd' Hd]; rewrite Hd
    end.
    run.
    match goal with
    | |- context [Player.sceneVideo i url ?st] =>
        assert (Ev1 : Player.sceneVideo i url st = true)
          by (rewrite sceneVideo_mounted in *; cbn [Player.videoRefs] in *;
              now rewrite Hm1);
        rewrite Ev1
    end.
    run. eexists. split; [reflexivity|]. normalise.
    repeat split.
    + rewrite mounted_update_some; [exact Hm1| |].
      * intros e0. cbn. eauto.
      * apply sceneVideo_true in Ev1. exact Ev1.
    + now rewrite <- !app_assoc.
  - destruct s as [a b c d e f g h vs rf [nd cx lg]].
    unfold Player.sceneEnter, Player.sceneLeave, Player.setPrevIndex,
      Player.setCurrentIndex; run.
    sceneVideo_is false Ev. run.
    match goal with
    | |- context [during i ?st] =>
        destruct (Hq i st) as [nd' Hd]; rewrite Hd
    end.
    run.
    sceneVideo_is false Ev. run.
    eexists. split; [reflexivity|]. normalise. repeat split.
Qed.

Lemma scenes_unfold (during : nat -> M Player.State unit) (url : string)
    (rest : list string) (i : nat) (s : Player.State) :
  audioContextRef (Player.refs s) <> None ->
  Player.playAll_scenes during (url :: rest) i s
  = bind (bind (Player.sceneEnter i url)
               (fun _ => bind (during i) (fun _ => Player.sceneLeave i url)))
         (fun _ => Player.playAll_scenes during rest (S i)) s.
Proof.
  intro Hc. cbn [Player.playAll_scenes]. unfold bind at 1, gets.
  destruct (audioContextRef (Player.refs s)) as [c|]; [|congruence].
  unfold bind.
  destruct (Player.sceneEnter i url s) as [[] s1|s1|s1]; auto.
  destruct (during i s1) as [[] s2|s2|s2]; auto.
Qed.

(** The whole loop with quiet waits: it returns, visits the scenes in order,
    and ends on the last one. *)
Lemma playAll_scenes_spec (during : nat -> M Player.State unit)
    (urls : list string) :
  quiet during ->
  forall (i : nat) (s : Player.State),
    audioContextRef (Player.refs s) <> None ->
    exists s',
      Player.playAll_scenes during urls i s = Returns tt s'
      /\ Player.refs s' = Player.refs s
      /\ mounted (Player.videoRefs s') = mounted (Player.videoRefs s)
      /\ Player.isPlaying s' = Player.isPlaying s
      /\ Player.isExporting s' = Player.isExporting s
      /\ contexts (Player.world s') = contexts (Player.world s)
      /\ log (Player.world s')
         = log (Player.world s)
           ++ scenesEffects (mounted (Player.videoRefs s)) urls i
      /\ (urls <> [] ->
          Player.currentIndex s' = Z.of_nat (i + List.length urls) - 1).
Proof.
  intro Hq. induction urls as [|url rest IH]; intros i s Hc.
  - exists s. cbn. rewrite app_nil_r. repeat split; congruence.
  - rewrite scenes_unfold by assumption.
    destruct (scene_step during i url s Hq)
      as (s1 & E1 & Hr1 & Hm1 & Hp1 & He1 & Hi1 & Hc1 & Hl1).
    unfold bind at 1. rewrite E1.
    destruct (IH (S i) s1) as (s2 & E2 & Hr2 & Hm2 & Hp2 & He2 & Hc2 & Hl2 & Hi2);
      [rewrite Hr1; assumption|].
    exists s2. split; [exact E2|].
    split; [congruence|]. split; [congruence|]. split; [congruence|].
    split; [congruence|]. split; [congruence|]. split.
    + rewrite Hl2, Hl1, Hm1. cbn [scenesEffects]. now rewrite <- app_assoc.
    + intros _. destruct rest as [|u r].
      * cbn in E2. injection E2 as <-. rewrite Hi1. cbn. lia.
      * rewrite Hi2 by discriminate. cbn [List.length]. lia.
Qed.

Lemma undisturbed_quiet : quiet Player.undisturbed.
Proof.
  intros i [a b c d e f g h vs rf [nd cx lg]]. exists nd. reflexivity.
Qed.

Lemma narrationEndsInLastScene_quiet (p : Player.Props) :
  quiet (narrationEndsInLastScene p).
Proof.
  intros i [a b c d e f g h vs [ac [n|] bg] [nd cx lg]];
    unfold narrationEndsInLastScene;
    destruct (Nat.eqb (S i) (List.length (Player.videoUrls p)));
    unfold Player.narrationEnds, nodeEnds; run; eexists; reflexivity.
Qed.

(** The scenes are visited in increasing order. *)
Lemma indicesSet_app (l l' : list Effect) :
  indicesSet (l ++ l') = indicesSet l ++ indicesSet l'.
Proof. unfold indicesSet. apply flat_map_app. Qed.

Lemma indicesSet_scenes (m : list bool) (urls : list string) (i : nat) :
  indicesSet (scenesEffects m urls i)
  = map Z.of_nat (seq i (List.length urls)).
Proof.
  revert i. induction urls as [|url rest IH]; intro i; [reflexivity|].
  cbn [scenesEffects List.length seq map]. rewrite indicesSet_app, IH.
  unfold sceneEffects.
  destruct (nth i m false && negb (isImage url)); reflexivity.
Qed.

Lemma update_app_length {A} (f : A -> A) (l : list A) (x : A) :
  update (List.length l) f (l ++ [x]) = l ++ [f x].
Proof. induction l as [|y l IH]; simpl; [reflexivity | now rewrite IH]. Qed.

Lemma nth_error_app_length {A} (l : list A) (x : A) (r : list A) :
  nth_error (l ++ x :: r) (List.length l) = Some x.
Proof. induction l; simpl; auto. Qed.

Lemma nth_error_app_second {A} (l : list A) (x y : A) (r : list A) :
  nth_error (l ++ x :: y :: r) (S (List.length l)) = Some y.
Proof. induction l; simpl; auto. Qed.

Lemma update_app_head {A} (f : A -> A) (l : list A) (x : A) (r : list A) :
  update (List.length l) f (l ++ x :: r) = l ++ f x :: r.
Proof. induction l as [|y l IH]; simpl; [reflexivity | now rewrite IH]. Qed.

Lemma mounted_pause (vs : list (option VideoEl)) (f : VideoEl -> VideoEl) :
  mounted (map (option_map f) vs) = mounted vs.
Proof.
  unfold mounted. rewrite map_map. apply map_ext. now intros [e|].
Qed.

(** [stopAll], when it returns, leaves playback flagged off, every ref'd
    context closed, and touches neither the exporting flag nor the set of
    mounted videos. *)
Lemma stopAll_returns_frame (env : Env) (s s0 : Player.State) :
  Player.stopAll env s = Returns tt s0 ->
  Player.isPlaying s0 = false
  /\ Player.isExporting s0 = Player.isExporting s
  /\ Player.bgmBuffer s0 = Player.bgmBuffer s
  /\ Player.bgmVolume s0 = Player.bgmVolume s
  /\ Player.narrationVolume s0 = Player.narrationVolume s
  /\ mounted (Player.videoRefs s0) = mounted (Player.videoRefs s)
  /\ audioContextRef (Player.refs s0) = None.
Proof.
  destruct s as [a b c d e f g h vs [ac n bg] [nd cx lg]].
  unfold Player.stopAll, Player.stopIfPresent, Player.pauseAllVideos,
    Player.setIsPlaying, stopNode; run.
  destruct n as [n|]; run.
  - destruct (nth_error nd n) as [x|]; [|discriminate].
    destruct (node_stop env x) as [x'|]; [|discriminate]. run.
    destruct bg as [bg|]; run.
    + destruct (nth_error _ bg) as [y|]; [|discriminate].
      destruct (node_stop env y) as [y'|]; [|discriminate]. run.
      destruct ac; run; intros [= <-]; cbn; repeat split; apply mounted_pause.
    + destruct ac; run; intros [= <-]; cbn; repeat split; apply mounted_pause.
  - destruct bg as [bg|]; run.
    + destruct (nth_error _ bg) as [y|]; [|discriminate].
      destruct (node_stop env y) as [y'|]; [|discriminate]. run.
      destruct ac; run; intros [= <-]; cbn; repeat split; apply mounted_pause.
    + destruct ac; run; intros [= <-]; cbn; repeat split; apply mounted_pause.
Qed.

Arguments Player.stopAll : simpl never.

(** The part of [playAll] before the loop, once its [stopAll] has returned:
    playback is flagged on at scene 0 and a fresh context carries the
    narration source, and the background source only if a buffer is there. *)
Lemma playAll_begin_spec (env : Env) (s s0 : Player.State) :
  Player.stopAll env s = Returns tt s0 ->
  exists s',
    Player.playAll_begin env s = Returns tt s'
    /\ Player.isPlaying s' = true
    /\ Player.isExporting s' = Player.isExporting s0
    /\ Player.bgmBuffer s' = Player.bgmBuffer s0
    /\ Player.videoRefs s' = Player.videoRefs s0
    /\ audioContextRef (Player.refs s')
       = Some (List.length (contexts (Player.world s0)))
    /\ narrationSourceRef (Player.refs s')
       = Some (List.length (nodes (Player.world s0)))
    /\ contexts (Player.world s') = contexts (Player.world s0) ++ [Running]
    /\ nodes (Player.world s')
       = nodes (Player.world s0)
         ++ mkNode Narration false (Player.narrationVolume s0) Speakers
                   (List.length (contexts (Player.world s0))) Playing
         :: match Player.bgmBuffer s0 with
            | Some _ => [mkNode Bgm true (Player.bgmVolume s0) Speakers
                           (List.length (contexts (Player.world s0))) Playing]
            | None => []
            end
    /\ log (Player.world s')
       = log (Player.world s0)
         ++ SetCurrentIndex 0 :: NodeStart (List.length (nodes (Player.world s0)))
         :: match Player.bgmBuffer s0 with
            | Some _ => [NodeStart (S (List.length (nodes (Player.world s0))))]
            | None => []
            end.
Proof.
  intro Hs. unfold Player.playAll_begin. unfold bind at 1. rewrite Hs.
  destruct s0 as [a b c d e f g h vs [ac n bg] [nd cx lg]].
  unfold Player.setIsPlaying, Player.setCurrentIndex, Player.setPrevIndex; run.
  rewrite update_app_length.
  destruct h as [bb|]; run.
  - rewrite update_app_length.
    eexists. split; [reflexivity|]. cbn.
    repeat split; rewrite <- ?app_assoc; cbn; try reflexivity.
    rewrite length_app. cbn. now rewrite Nat.add_1_r.
  - eexists. split; [reflexivity|]. cbn. repeat split.
    now rewrite <- !app_assoc.
Qed.

Arguments Player.playAll_begin : simpl never.
Arguments Player.playAll_scenes : simpl never.
Arguments scenesEffects : simpl never.

(** A whole [playAll] with quiet waits, once its [stopAll] has returned. *)
Lemma playAll_spec (env : Env) (p : Player.Props) (buf : AudioBuffer)
    (during : nat -> M Player.State unit) (s s0 : Player.State) :
  Player.audioBuffer p = Some buf ->
  quiet during ->
  Player.stopAll env s = Returns tt s0 ->
  exists s',
    Player.playAll env p during s = Returns tt s'
    /\ Player.isPlaying s' = false
    /\ Player.isExporting s' = Player.isExporting s
    /\ (Player.videoUrls p <> [] ->
        Player.currentIndex s'
        = Z.of_nat (List.length (Player.videoUrls p)) - 1)
    /\ log (Player.world s')
       = log (Player.world s0)
         ++ (SetCurrentIndex 0
             :: NodeStart (List.length (nodes (Player.world s0)))
             :: match Player.bgmBuffer s0 with
                | Some _ => [NodeStart (S (List.length (nodes (Player.world s0))))]
                | None => []
                end)
         ++ scenesEffects (mounted (Player.videoRefs s)) (Player.videoUrls p) 0.
Proof.
  intros Hbuf Hq Hs. unfold Player.playAll. rewrite Hbuf.
  destruct (playAll_begin_spec env s s0 Hs)
    as (s1 & E1 & Hp1 & He1 & Hb1 & Hv1 & Ha1 & Hn1 & Hc1 & Hnd1 & Hl1).
  destruct (stopAll_returns_frame env s s0 Hs)
    as (_ & He0 & _ & _ & _ & Hm0 & _).
  destruct (playAll_scenes_spec during (Player.videoUrls p) Hq 0%nat s1)
    as (s2 & E2 & Hr2 & Hm2 & Hp2 & He2 & Hc2 & Hl2 & Hi2);
    [rewrite Ha1; discriminate|].
  unfold bind at 1. rewrite E1. unfold bind at 1. rewrite E2.
  destruct s2 as [a b c d e f g h vs rf w].
  unfold Player.setIsPlaying; run.
  eexists. split; [reflexivity|]. cbn.
  split; [reflexivity|]. split; [congruence|]. split; [exact Hi2|].
  rewrite Hl2, Hl1, Hv1, Hm0. now rewrite <- app_assoc.
Qed.

(* ================================================================= *)
(** ** The active scene during playback *)

Lemma handleVideoEnded_next (q : Part000.Props) (t : Part000.State) :
  let n := Z.of_nat (List.length (Part000.videoUrls q)) in
  1 < n -> 0 <= Part000.currentVideoIndex t < n ->
  exists t',
    Part000.handleVideoEnded q t = Returns tt t'
    /\ Part000.currentVideoIndex t'
       = (if Part000.currentVideoIndex t + 1 <? n
          then Part000.currentVideoIndex t + 1 else 0)
    /\ Part000.isPlaying t' = Part000.isPlaying t
    /\ Part000.refs t' = Part000.refs t
    /\ nodes (Part000.world t') = nodes (Part000.world t).
Proof.
  intros n Hn Hi. unfold Part000.handleVideoEnded. fold n.
  destruct (Z.ltb_spec 1 n) as [_|]; [|lia].
  destruct t as [a b c d e f g h i j rf [nd cx lg]]. cbn in Hi.
  assert (Hrem : Z.rem (b + 1) n = if b + 1 <? n then b + 1 else 0).
  { destruct (Z.ltb_spec (b + 1) n).
    - apply Z.rem_small; lia.
    - replace (b + 1) with n by lia. apply Z.rem_same; lia. }
  unfold Part000.setCurrentVideoIndex, Part000.playEffect, Part000.playVideo.
  unfold bind at 1, gets. cbn [Part000.currentVideoIndex]. rewrite Hrem.
  set (v := if b + 1 <? n then b + 1 else 0).
  run.
  destruct (b =? v); run.
  - eexists. split; [reflexivity|]. repeat split.
  - destruct a; run.
    + destruct (Part000.mountedVideo q v); run;
        eexists; (split; [reflexivity|]); repeat split.
    + eexists. split; [reflexivity|]. repeat split.
Qed.

(** C9 (amended): in Player.tsx one run of [playAll] activates the scenes
    0, 1, ..., n-1 in this order and never goes back; each video scene is
    played and then paused before the next index is set.  In part_000 the
    end of a clip moves the index to the next clip and from the last clip
    back to 0, playback and audio sources untouched. *)
Theorem scene_index_progression :
  forall (env : Env) (p : Player.Props) (buf : AudioBuffer)
         (during : nat -> M Player.State unit) (s s0 : Player.State)
         (q : Part000.Props) (t : Part000.State),
    Player.audioBuffer p = Some buf ->
    quiet during ->
    Player.stopAll env s = Returns tt s0 ->
    1 < Z.of_nat (List.length (Part000.videoUrls q)) ->
    0 <= Part000.currentVideoIndex t
      < Z.of_nat (List.length (Part000.videoUrls q)) ->
    (exists s' started,
       Player.playAll env p during s = Returns tt s'
       /\ log (Player.world s')
          = log (Player.world s0) ++ started
            ++ scenesEffects (mounted (Player.videoRefs s))
                             (Player.videoUrls p) 0
       /\ indicesSet started = [0]
       /\ indicesSet (scenesEffects (mounted (Player.videoRefs s))
                                    (Player.videoUrls p) 0)
          = map Z.of_nat (seq 0 (List.length (Player.videoUrls p))))
    /\ (exists t',
       Part000.handleVideoEnded q t = Returns tt t'
       /\ Part000.currentVideoIndex t'
          = (if Part000.currentVideoIndex t + 1
                <? Z.of_nat (List.length (Part000.videoUrls q))
             then Part000.currentVideoIndex t + 1 else 0)
       /\ Part000.isPlaying t' = Part000.isPlaying t
       /\ Part000.refs t' = Part000.refs t
       /\ nodes (Part000.world t') = nodes (Part000.world t)).
Proof.
  intros env p buf during s s0 q t Hbuf Hq Hs Hn Hi. split.
  - destruct (playAll_spec env p buf during s s0 Hbuf Hq Hs)
      as (s' & E & _ & _ & _ & Hl).
    eexists. eexists. split; [exact E|]. split; [exact Hl|]. split.
    + destruct (Player.bgmBuffer s0); reflexivity.
    + apply indicesSet_scenes.
  - apply handleVideoEnded_next; assumption.
Qed.

Lemma scene_index_progression_witness :
  (exists s' started,
     Player.playAll currentEngine twoScenes Player.undisturbed
                    (Player.initial twoScenes) = Returns tt s'
     /\ log (Player.world s')
        = [] ++ started
          ++ scenesEffects [true; false] (Player.videoUrls twoScenes) 0
     /\ indicesSet started = [0]
     /\ indicesSet (scenesEffects [true; false] (Player.videoUrls twoScenes) 0)
        = [0; 1])
  /\ (exists t',
     Part000.handleVideoEnded twoClips (Part000.initial twoClips)
     = Returns tt t'
     /\ Part000.currentVideoIndex t' = 1
     /\ Part000.isPlaying t' = false
     /\ Part000.refs t' = mkRefs None None None
     /\ nodes (Part000.world t') = []).
Proof.
  apply (scene_index_progression currentEngine twoScenes (mkBuffer 10)
           Player.undisturbed (Player.initial twoScenes)
           (stateOf (Player.stopAll currentEngine (Player.initial twoScenes)))
           twoClips (Part000.initial twoClips)).
  - reflexivity.
  - apply undisturbed_quiet.
  - vm_compute. reflexivity.
  - vm_compute. reflexivity.
  - cbn. lia.
Defined.

(** C9 fails on part_000: two clips, playback running and the narration
    still sounding; when the second clip ends the index goes from 1 back
    to 0 without any reset of the playback. *)
Lemma clip_index_wraps_during_playback :
  exists t1 t2,
    bind (Part000.loadBgm currentEngine)
         (fun _ => bind (Part000.clickPlayButton currentEngine twoClips)
         (fun _ => Part000.handleVideoEnded twoClips))
         (Part000.initial twoClips) = Returns tt t1
    /\ Part000.currentVideoIndex t1 = 1
    /\ Part000.handleVideoEnded twoClips t1 = Returns tt t2
    /\ Part000.currentVideoIndex t2 = 0
    /\ Part000.isPlaying t2 = true
    /\ sounding (Part000.world t2) Narration = true
    /\ sounding (Part000.world t2) Bgm = true.
Proof.
  eexists. eexists. split; [vm_compute; reflexivity|].
  split; [reflexivity|]. split; [vm_compute; reflexivity|].
  repeat split.
Qed.

(* ================================================================= *)
(** ** The end of the narration *)

Lemma ended_notPlaying (nd : list SourceNode) (cx : list ContextState)
    (lg : list Effect) (id : nat) :
  notPlaying (mkWorld (update id endIfPlaying nd) cx lg) (Some id).
Proof.
  unfold notPlaying, refStatus; cbn. rewrite nth_error_update_same.
  destruct (nth_error nd id) as [n|]; cbn; [|discriminate].
  unfold endIfPlaying. destruct (status n) eqn:E; cbn; congruence.
Qed.

(** In part_000 the end of the narration runs the [onended] handler: the
    playing flag is cleared, the video is paused, the background source is
    stopped, and the index is back at 0. *)
Lemma narrationEnds_resets (env : Env) (q : Part000.Props)
    (t : Part000.State) (id : nat) :
  narrationSourceRef (Part000.refs t) = Some id ->
  exists t',
    Part000.narrationEnds env q t = Returns tt t'
    /\ Part000.isPlaying t' = false
    /\ Part000.currentVideoIndex t' = 0
    /\ notPlaying (Part000.world t') (Some id)
    /\ notPlaying (Part000.world t') (bgmSourceRef (Part000.refs t))
    /\ match Part000.videoRef t' with
       | Some e => paused e = true
       | None => True
       end.
Proof.
  intro Hid.
  destruct t as [a b c d e f g h i j [ac n bg] [nd cx lg]].
  cbn in Hid; subst n.
  unfold Part000.narrationEnds, nodeEnds, Part000.narrSource_onended,
    Part000.setIsPlaying, Part000.pauseVideo, Part000.setCurrentVideoIndex,
    Part000.playEffect.
  run.
  pose proof (ended_notPlaying nd cx lg id) as Hend.
  destruct h as [v|]; run; destruct bg as [bg|].
  all: try match goal with
    | |- context [Part000.tryStop ?en (Some ?r) ?st] =>
        destruct (tryStop_returns en r st) as (nd' & lg' & E & P & Q);
        normalise; rewrite E; clear E
    end.
  all: unfold Part000.tryStop; run.
  all: destruct (b =? 0) eqn:Eb; run.
  all: try apply Z.eqb_eq in Eb.
  all: eexists; (split; [reflexivity|]); cbn.
  all: repeat split; auto.
  all: try (unfold notPlaying, refStatus in *; cbn in *; auto; fail).
  all: try discriminate.
  all: destruct (Part000.videoUrls q) as [|u us]; cbn; auto.
  all: destruct (String.eqb u ""); cbn; auto.
Qed.

(** C5 (amended): in part_000 the natural end of the narration runs the
    [onended] handler, a full reset: playing flag false, index 0, video
    paused, narration source ended and background source stopped.  In
    Player.tsx, where no handler is attached to the narration source, the
    scene loop runs out with the narration: the playing flag becomes false
    and the index stays on the last scene. *)
Theorem narration_completion :
  forall (env : Env) (q : Part000.Props) (t : Part000.State) (id : nat)
         (p : Player.Props) (buf : AudioBuffer) (s s0 : Player.State),
    narrationSourceRef (Part000.refs t) = Some id ->
    Player.audioBuffer p = Some buf ->
    Player.videoUrls p <> [] ->
    Player.stopAll env s = Returns tt s0 ->
    (exists t',
       Part000.narrationEnds env q t = Returns tt t'
       /\ Part000.isPlaying t' = false
       /\ Part000.currentVideoIndex t' = 0
       /\ notPlaying (Part000.world t') (Some id)
       /\ notPlaying (Part000.world t') (bgmSourceRef (Part000.refs t))
       /\ match Part000.videoRef t' with
          | Some e => paused e = true
          | None => True
          end)
    /\ (exists s',
       Player.playAll env p (narrationEndsInLastScene p) s = Returns tt s'
       /\ Player.isPlaying s' = false
       /\ Player.currentIndex s'
          = Z.of_nat (List.length (Player.videoUrls p)) - 1).
Proof.
  intros env q t id p buf s s0 Hid Hbuf Hurls Hs. split.
  - apply narrationEnds_resets. exact Hid.
  - destruct (playAll_spec env p buf (narrationEndsInLastScene p) s s0 Hbuf
                (narrationEndsInLastScene_quiet p) Hs)
      as (s' & E & Hp & _ & Hi & _).
    exists s'. split; [exact E|]. split; [exact Hp|]. now apply Hi.
Qed.

Lemma narration_completion_witness :
  let t := stateOf (bind (Part000.loadBgm currentEngine)
                         (fun _ => Part000.clickPlayButton currentEngine twoClips)
                         (Part000.initial twoClips)) in
  (exists t',
     Part000.narrationEnds currentEngine twoClips t = Returns tt t'
     /\ Part000.isPlaying t' = false
     /\ Part000.currentVideoIndex t' = 0
     /\ notPlaying (Part000.world t') (Some 0%nat)
     /\ notPlaying (Part000.world t') (bgmSourceRef (Part000.refs t))
     /\ match Part000.videoRef t' with
        | Some e => paused e = true
        | None => True
        end)
  /\ (exists s',
     Player.playAll currentEngine twoScenes (narrationEndsInLastScene twoScenes)
                    (Player.initial twoScenes) = Returns tt s'
     /\ Player.isPlaying s' = false
     /\ Player.currentIndex s' = 2 - 1).
Proof.
  apply (narration_completion currentEngine twoClips _ 0%nat twoScenes
           (mkBuffer 10) (Player.initial twoScenes)
           (stateOf (Player.stopAll currentEngine (Player.initial twoScenes)))).
  - vm_compute. reflexivity.
  - reflexivity.
  - discriminate.
  - vm_compute. reflexivity.
Defined.

(** C5 fails on Player.tsx: two scenes, background track loaded, the
    narration ends while the last scene shows.  When [playAll] returns the
    narration source has ended and the playing flag is false, but the index
    is 1, not 0, and the looping background source is still playing in a
    running context. *)
Lemma playAll_completion_is_no_reset :
  exists s,
    bind (Player.loadBgm currentEngine)
         (fun _ => Player.clickPlayButton currentEngine twoScenes
                     (narrationEndsInLastScene twoScenes))
         (Player.initial twoScenes) = Returns tt s
    /\ refStatus (Player.world s) (narrationSourceRef (Player.refs s))
       = Some Ended
    /\ Player.isPlaying s = false
    /\ Player.currentIndex s = 1
    /\ refStatus (Player.world s) (bgmSourceRef (Player.refs s))
       = Some Playing
    /\ sounding (Player.world s) Bgm = true.
Proof.
  eexists. split; [vm_compute; reflexivity|]. repeat split.
Qed.

(* ================================================================= *)
(** ** Export against playback *)

Arguments Part000.stopAudio : simpl never.
Arguments Part000.exportJob : simpl never.
Arguments Player.exportToMp4 : simpl never.
Arguments Player.playAll : simpl never.

(** In part_000, [handleExport] called during playback stops it before the
    [try] block is entered. *)
Lemma handleExport_enter_stops (env : Env) (q : Part000.Props)
    (t : Part000.State) :
  Part000.isPlaying t = true ->
  exists t1,
    Part000.handleExport_enter env q t = Returns tt t1
    /\ Part000.isPlaying t1 = false
    /\ Part000.isExporting t1 = true
    /\ narrationSourceRef (Part000.refs t1) = None
    /\ bgmSourceRef (Part000.refs t1) = None
    /\ notPlaying (Part000.world t1) (narrationSourceRef (Part000.refs t))
    /\ notPlaying (Part000.world t1) (bgmSourceRef (Part000.refs t))
    /\ match Part000.videoRef t1 with
       | Some e => paused e = true
       | None => True
       end.
Proof.
  intro Hp. destruct t as [a b c d e f g h i j rf w]. cbn in Hp; subst a.
  unfold Part000.handleExport_enter, Part000.togglePlay,
    Part000.setIsExportMenuOpen, Part000.setIsExporting,
    Part000.setExportProgress, Part000.setIsPlaying, Part000.pauseVideo.
  run.
  match goal with
  | |- context [Part000.stopAudio ?en ?st] =>
      destruct (stopAudio_returns en st) as (nd' & lg' & E & P1 & P2 & _)
  end.
  normalise. rewrite E. clear E.
  destruct h as [v|]; run;
    (eexists; split; [reflexivity|]; cbn; repeat split; assumption).
Qed.

(** Sources and contexts that stay as they are stay audible. *)
Lemma audible_extends (w w' : World) (t : Track) :
  (forall id n, nth_error (nodes w) id = Some n ->
                nth_error (nodes w') id = Some n) ->
  (forall c st, nth_error (contexts w) c = Some st ->
                nth_error (contexts w') c = Some st) ->
  audible w t = true -> audible w' t = true.
Proof.
  intros Hn Hc. unfold audible. rewrite !existsb_exists.
  intros (n & Hin & Hp). exists n. split.
  - apply In_nth_error in Hin. destruct Hin as [id Hid].
    apply (nth_error_In _ id). now apply Hn.
  - destruct (nth_error (contexts w) (context n)) as [st|] eqn:E.
    + now rewrite (Hc _ _ E).
    + destruct (track n), t, (destination n), (status n); discriminate.
Qed.

Lemma stopCalls_app (l l' : list Effect) :
  stopCalls (l ++ l') = (stopCalls l + stopCalls l')%nat.
Proof. unfold stopCalls. now rewrite filter_app, length_app. Qed.

Lemma stopCalls_frames (fs : list FrameInfo) : stopCalls (map DrawFrame fs) = 0%nat.
Proof. unfold stopCalls. induction fs; simpl; auto. Qed.

Lemma stopCalls_cons (e : Effect) (l : list Effect) :
  stopCalls (e :: l)
  = (match e with NodeStop _ => 1 | _ => 0 end + stopCalls l)%nat.
Proof. unfold stopCalls. destruct e; reflexivity. Qed.

Arguments stopCalls : simpl never.

(** [exportToMp4] only adds: sources and contexts of its own.  It calls
    [stop()] on nothing and leaves the playing flag, the refs and the
    videos of the page as they are, however it ends. *)
Lemma exportToMp4_extends (env : Env) (p : Player.Props) (s : Player.State) :
  let s' := stateOf (Player.exportToMp4 env p s) in
  Player.isPlaying s' = Player.isPlaying s
  /\ Player.refs s' = Player.refs s
  /\ Player.videoRefs s' = Player.videoRefs s
  /\ Player.currentIndex s' = Player.currentIndex s
  /\ stopCalls (log (Player.world s')) = stopCalls (log (Player.world s))
  /\ exists newNodes newContexts,
       nodes (Player.world s') = nodes (Player.world s) ++ newNodes
       /\ contexts (Player.world s')
          = contexts (Player.world s) ++ newContexts.
Proof.
  destruct p as [urls ab]. cbv zeta.
  unfold Player.exportToMp4. cbn [Player.audioBuffer Player.videoUrls].
  destruct ab as [buf|];
    [|cbn; repeat split; exists [], []; now rewrite !app_nil_r].
  destruct urls as [|u rest];
    [cbn; repeat split; exists [], []; now rewrite !app_nil_r|].
  destruct s as [a b c d e f g h vs rf [nd cx lg]].
  unfold Player.exportJob, Player.setIsExporting.
  cbn [Player.audioBuffer Player.videoUrls].
  run.
  destruct h as [bb|]; run;
    (destruct (recorder_supports env webm) eqn:Er; run);
    rewrite ?(loadMedia_cases env (u :: rest));
    try (destruct (forallb (decodes env) (u :: rest)) eqn:Ed; run);
    try (unfold Player.renderAll;
         match goal with
         | |- context [exportFrames ?x ?n ?t] =>
             destruct (exportFrames x n t) as [|fr frs]
         end; run);
    try (destruct (canvas2d env); run).
  all: rewrite ?update_app_length; rewrite <- ?app_assoc; cbn [app];
    rewrite ?update_app_head, ?update_app_length.
  all: repeat split.
  all: try (repeat first [ rewrite stopCalls_app | rewrite stopCalls_cons
                         | rewrite stopCalls_frames ];
            change (stopCalls []) with 0%nat; lia).
  all: try (eexists; eexists; split; reflexivity).
Qed.




(* ================================================================= *)
(** ** Stopping again *)

Lemma update_same {A} (l : list A) (i : nat) (x : A) :
  nth_error l i = Some x -> update i (fun _ => x) l = l.
Proof.
  revert i. induction l as [|y l IH]; intros [|i] H; simpl in *;
    try discriminate; [congruence|]. now rewrite IH.
Qed.

(** [stop()] on a source that was started, where a repeated [stop()] is
    allowed: it returns, and it changes the source only if it was playing. *)
Lemma node_stop_started (env : Env) (n : SourceNode) :
  stop_twice_throws env = false -> status n <> Unstarted ->
  exists n',
    node_stop env n = Some n'
    /\ status n' <> Unstarted /\ status n' <> Playing
    /\ (status n <> Playing -> n' = n).
Proof.
  intros Hstd Hn. unfold node_stop. rewrite Hstd.
  destruct (status n) eqn:E; try congruence.
  - eexists. split; [reflexivity|]. cbn. repeat split; congruence.
  - exists n. rewrite E. repeat split; congruence.
  - exists n. rewrite E. repeat split; congruence.
Qed.

(** [ref.current?.stop()] under the same conditions. *)
Lemma stopIfPresent_started (env : Env) (r : option nat) (s : Player.State) :
  stop_twice_throws env = false ->
  started (Player.world s) r ->
  exists nodes' log',
    let w' := mkWorld nodes' (contexts (Player.world s)) log' in
    Player.stopIfPresent env r s = Returns tt (Player.set_world w' s)
    /\ notPlaying w' r
    /\ (forall r', started (Player.world s) r' -> started w' r')
    /\ (forall r', notPlaying (Player.world s) r' -> notPlaying w' r')
    /\ (notPlaying (Player.world s) r -> nodes' = nodes (Player.world s)).
Proof.
  intros Hstd Hr.
  destruct s as [a b c d e f g h vs rf [nd cx lg]].
  destruct r as [id|]; cbn in Hr.
  - destruct Hr as (n & En & Hn).
    destruct (node_stop_started env n Hstd Hn) as (n' & Es & Hu & Hp & Hsame).
    exists (update id (fun _ => n') nd), (lg ++ [NodeStop id]).
    unfold Player.stopIfPresent, stopNode. cbn. rewrite En, Es.
    split; [reflexivity|]. split; [|split; [|split]].
    + unfold notPlaying, refStatus. cbn.
      rewrite nth_error_update_same, En. cbn. congruence.
    + intros [r'|]; cbn; [|auto]. intros (m & Em & Hm).
      destruct (Nat.eq_dec id r') as [<-|Hne].
      * exists n'. rewrite nth_error_update_same, En. auto.
      * exists m. rewrite nth_error_update_other by assumption. auto.
    + intros [r'|]; unfold notPlaying, refStatus; cbn; [|auto].
      destruct (Nat.eq_dec id r') as [<-|Hne].
      * rewrite nth_error_update_same, En. cbn. congruence.
      * now rewrite nth_error_update_other.
    + unfold notPlaying, refStatus. cbn. rewrite En. cbn. intro H.
      assert (Hnp : status n <> Playing) by congruence.
      rewrite (Hsame Hnp). now apply update_same.
  - exists nd, lg. cbn. repeat split; auto. discriminate.
Qed.

Lemma stopAll_started (env : Env) (s : Player.State) :
  stop_twice_throws env = false ->
  started (Player.world s) (narrationSourceRef (Player.refs s)) ->
  started (Player.world s) (bgmSourceRef (Player.refs s)) ->
  exists s1,
    Player.stopAll env s = Returns tt s1
    /\ Player.isPlaying s1 = false
    /\ Player.refs s1
       = mkRefs None (narrationSourceRef (Player.refs s))
                (bgmSourceRef (Player.refs s))
    /\ started (Player.world s1) (narrationSourceRef (Player.refs s))
    /\ started (Player.world s1) (bgmSourceRef (Player.refs s))
    /\ notPlaying (Player.world s1) (narrationSourceRef (Player.refs s))
    /\ notPlaying (Player.world s1) (bgmSourceRef (Player.refs s))
    /\ Player.videoRefs s1
       = map (option_map (fun _ => mkVideo true 0)) (Player.videoRefs s)
    /\ Player.currentIndex s1 = Player.currentIndex s
    /\ Player.isExporting s1 = Player.isExporting s
    /\ (notPlaying (Player.world s) (narrationSourceRef (Player.refs s)) ->
        notPlaying (Player.world s) (bgmSourceRef (Player.refs s)) ->
        audioContextRef (Player.refs s) = None ->
        nodes (Player.world s1) = nodes (Player.world s)
        /\ contexts (Player.world s1) = contexts (Player.world s)).
Proof.
  intros Hstd Hn Hb.
  destruct (stopIfPresent_started env _ s Hstd Hn)
    as (nd1 & lg1 & E1 & P1 & S1 & Q1 & K1).
  cbv zeta in *.
  set (s' := Player.set_world
               (mkWorld nd1 (contexts (Player.world s)) lg1) s) in *.
  assert (Hb' : started (Player.world s') (bgmSourceRef (Player.refs s')))
    by (subst s'; destruct s; cbn in *; auto).
  destruct (stopIfPresent_started env _ s' Hstd Hb')
    as (nd2 & lg2 & E2 & P2 & S2 & Q2 & K2).
  cbv zeta in *.
  unfold Player.stopAll. unfold bind at 1, gets. unfold bind at 1.
  rewrite E1. unfold bind at 1, gets. unfold bind at 1. rewrite E2.
  subst s'. destruct s as [a b c d e f g h vs [ac n bg] [nd cx lg]].
  cbn in *.
  unfold Player.pauseAllVideos, Player.setIsPlaying.
  destruct ac as [c0|]; run;
    (eexists; split; [reflexivity|]; cbn;
     repeat split; auto; try discriminate;
     first [ exact (S2 _ (S1 _ Hn)) | exact (S2 _ Hb') | exact (Q2 _ P1)
           | exact P2 | idtac ]).
  all: try discriminate.
  all: match goal with
       | Hnp : notPlaying _ _, Hbp : notPlaying _ _ |- _ =>
           assert (E : nd1 = nd) by (apply K1; exact Hnp); subst nd1;
           apply K2; exact Hbp
       end.
Qed.

(** The part of [playAll] before the loop leaves both refs on started
    sources. *)
Lemma playAll_begin_started (env : Env) (s s0 : Player.State) :
  Player.stopAll env s = Returns tt s0 ->
  started (Player.world s0) (bgmSourceRef (Player.refs s0)) ->
  exists s',
    Player.playAll_begin env s = Returns tt s'
    /\ Player.isPlaying s' = true
    /\ refStatus (Player.world s') (narrationSourceRef (Player.refs s'))
       = Some Playing
    /\ started (Player.world s') (narrationSourceRef (Player.refs s'))
    /\ started (Player.world s') (bgmSourceRef (Player.refs s')).
Proof.
  intros Hs Hb. unfold Player.playAll_begin. unfold bind at 1. rewrite Hs.
  destruct s0 as [a b c d e f g h vs [ac n bg] [nd cx lg]]. cbn in Hb.
  unfold Player.setIsPlaying, Player.setCurrentIndex, Player.setPrevIndex; run.
  rewrite update_app_length.
  destruct h as [bb|]; run.
  - rewrite update_app_length.
    eexists. split; [reflexivity|]. cbn. split; [reflexivity|].
    unfold refStatus, started; cbn.
    rewrite <- !app_assoc; cbn [app].
    rewrite nth_error_app_length.
    replace (List.length (nd ++ [with_status Playing
               (mkNode Narration false e Speakers (List.length cx) Unstarted)]))
      with (S (List.length nd)) by (rewrite length_app; cbn; lia).
    rewrite nth_error_app_second.
    split; [reflexivity|]. split; eexists; (split; [reflexivity|]);
      cbn; discriminate.
  - eexists. split; [reflexivity|]. cbn. split; [reflexivity|].
    unfold refStatus, started; cbn.
    rewrite nth_error_app_length.
    split; [reflexivity|]. split.
    + eexists. split; [reflexivity|]. cbn. discriminate.
    + destruct bg as [bg|]; [|exact I].
      destruct Hb as (m & Em & Hm). cbn in Em. exists m. split; [|exact Hm].
      rewrite nth_error_app1; [exact Em|].
      apply nth_error_Some. congruence.
Qed.

(** Entering and leaving a scene touches neither a ref nor a source. *)
Lemma sceneEnter_frame (i : nat) (url : string) (s : Player.State) :
  exists s',
    Player.sceneEnter i url s = Returns tt s'
    /\ Player.refs s' = Player.refs s
    /\ nodes (Player.world s') = nodes (Player.world s).
Proof.
  destruct s as [a b c d e f g h vs rf [nd cx lg]].
  unfold Player.sceneEnter, Player.setPrevIndex, Player.setCurrentIndex. run.
  match goal with |- context [Player.sceneVideo ?i ?u ?st] =>
    destruct (Player.sceneVideo i u st) end; run;
    (eexists; split; [reflexivity|]; cbn; split; reflexivity).
Qed.

Lemma sceneLeave_frame (i : nat) (url : string) (s : Player.State) :
  exists s',
    Player.sceneLeave i url s = Returns tt s'
    /\ Player.refs s' = Player.refs s
    /\ nodes (Player.world s') = nodes (Player.world s).
Proof.
  destruct s as [a b c d e f g h vs rf [nd cx lg]].
  unfold Player.sceneLeave. run.
  match goal with |- context [Player.sceneVideo ?i ?u ?st] =>
    destruct (Player.sceneVideo i u st) end; run;
    (eexists; split; [reflexivity|]; cbn; split; reflexivity).
Qed.

Lemma refsStarted_frame (s s' : Player.State) :
  Player.refs s' = Player.refs s ->
  nodes (Player.world s') = nodes (Player.world s) ->
  refsStarted s -> refsStarted s'.
Proof.
  unfold refsStarted, started. intros -> ->. auto.
Qed.

(** The scene loop, [playAll] and the three click handlers keep the refs on
    started sources, and none of them throws. *)
Lemma playAll_scenes_keeps (during : nat -> M Player.State unit) :
  keepsRefsStarted during ->
  forall (urls : list string) (i : nat) (s : Player.State),
    refsStarted s ->
    exists s',
      Player.playAll_scenes during urls i s = Returns tt s' /\ refsStarted s'.
Proof.
  intros Hd urls. induction urls as [|url rest IH]; intros i s Hs.
  - exists s. split; [reflexivity | exact Hs].
  - unfold Player.playAll_scenes; fold Player.playAll_scenes.
    unfold bind at 1, gets.
    destruct (audioContextRef (Player.refs s)); [|exists s; split; auto].
    destruct (sceneEnter_frame i url s) as (s1 & E1 & R1 & N1).
    unfold bind at 1. rewrite E1.
    destruct (Hd i s1 (refsStarted_frame s s1 R1 N1 Hs)) as (s2 & E2 & H2).
    unfold bind at 1. rewrite E2.
    destruct (sceneLeave_frame i url s2) as (s3 & E3 & R3 & N3).
    unfold bind at 1. rewrite E3.
    apply IH. exact (refsStarted_frame s2 s3 R3 N3 H2).
Qed.

Lemma exportToMp4_never_throws (env : Env) (p : Player.Props)
    (s : Player.State) :
  threw (Player.exportToMp4 env p s) = false.
Proof.
  destruct p as [urls ab].
  unfold Player.exportToMp4. cbn [Player.audioBuffer Player.videoUrls].
  destruct ab as [buf|]; [|reflexivity].
  destruct urls as [|u rest]; [reflexivity|].
  destruct s as [a b c d e f g h vs rf [nd cx lg]].
  unfold Player.exportJob, Player.setIsExporting.
  cbn [Player.audioBuffer Player.videoUrls].
  run.
  destruct h as [bb|]; run;
    (destruct (recorder_supports env webm) eqn:Er; run);
    rewrite ?(loadMedia_cases env (u :: rest));
    try (destruct (forallb (decodes env) (u :: rest)) eqn:Ed; run);
    try (unfold Player.renderAll;
         match goal with
         | |- context [exportFrames ?x ?n ?t] =>
             destruct (exportFrames x n t) as [|fr frs]
         end; run);
    try (destruct (canvas2d env); run);
    reflexivity.
Qed.

Lemma playAll_keeps (env : Env) (p : Player.Props)
    (during : nat -> M Player.State unit) (s : Player.State) :
  stop_twice_throws env = false ->
  keepsRefsStarted during ->
  refsStarted s ->
  exists s',
    Player.playAll env p during s = Returns tt s' /\ refsStarted s'.
Proof.
  intros Hstd Hd [Hn Hb]. unfold Player.playAll.
  destruct (Player.audioBuffer p); [|exists s; split; [reflexivity | now split]].
  destruct (stopAll_started env s Hstd Hn Hb)
    as (s0 & E0 & _ & Hr0 & _ & Sb0 & _).
  assert (Hb0 : started (Player.world s0) (bgmSourceRef (Player.refs s0)))
    by now rewrite Hr0.
  destruct (playAll_begin_started env s s0 E0 Hb0)
    as (s1 & E1 & _ & _ & Sn1 & Sb1).
  destruct (playAll_scenes_keeps during Hd (Player.videoUrls p) 0%nat s1
              (conj Sn1 Sb1)) as (s2 & E2 & H2).
  unfold bind at 1. rewrite E1. unfold bind at 1. rewrite E2.
  eexists. split; [reflexivity|].
  apply (refsStarted_frame s2); [| |exact H2]; now destruct s2.
Qed.

Lemma clicks_keep_refs_started (env : Env) (p : Player.Props)
    (during : nat -> M Player.State unit) (s : Player.State) :
  stop_twice_throws env = false ->
  keepsRefsStarted during ->
  refsStarted s ->
  (exists s', Player.clickPlayButton env p during s = Returns tt s'
              /\ refsStarted s')
  /\ (exists s', Player.clickOverlay env p during s = Returns tt s'
                 /\ refsStarted s')
  /\ threw (Player.clickDownload env p s) = false
  /\ refsStarted (stateOf (Player.clickDownload env p s)).
Proof.
  intros Hstd Hd Hs.
  destruct (playAll_keeps env p during s Hstd Hd Hs) as (s1 & E1 & H1).
  split; [|split].
  - unfold Player.clickPlayButton, bind, gets.
    destruct (Player.isExporting s); [exists s; split; auto|].
    destruct (Player.isPlaying s); [|exists s1; split; assumption].
    destruct Hs as [Hn Hb].
    destruct (stopAll_started env s Hstd Hn Hb)
      as (s0 & E0 & _ & Hr0 & Sn0 & Sb0 & _).
    exists s0. split; [exact E0|]. split; now rewrite Hr0.
  - unfold Player.clickOverlay, bind, gets.
    destruct (negb (Player.isPlaying s) && negb (Player.isExporting s));
      [exists s1; split; assumption | exists s; split; auto].
  - unfold Player.clickDownload, bind, gets.
    destruct (Player.isExporting s || Player.isPlaying s);
      [split; [reflexivity | exact Hs]|].
    split; [apply exportToMp4_never_throws|].
    destruct (exportToMp4_extends env p s)
      as (_ & Hr & _ & _ & _ & nn & nc & Hn & _).
    cbv zeta in *. destruct Hs as [Sn Sb].
    unfold refsStarted. rewrite Hr.
    assert (Hext : forall r, started (Player.world s) r ->
              started (Player.world
                         (stateOf (Player.exportToMp4 env p s))) r).
    { intros [id|]; cbn; [|auto]. intros (m & Em & Hm). exists m.
      split; [|exact Hm]. rewrite Hn. rewrite nth_error_app1; [exact Em|].
      apply nth_error_Some. congruence. }
    split; now apply Hext.
Qed.

Lemma pauseInScene0_keeps (env : Env) (p : Player.Props) :
  stop_twice_throws env = false ->
  keepsRefsStarted (pauseInScene0 env p).
Proof.
  intros Hstd i s Hs. unfold pauseInScene0.
  destruct (Nat.eqb i 0); [|exists s; split; auto].
  apply (clicks_keep_refs_started env p Player.undisturbed s Hstd); [|exact Hs].
  intros j s0 H0. exists s0. split; [reflexivity | exact H0].
Qed.



(* ================================================================= *)
(** ** Without the background track *)

Lemma playClips_returns (env : Env) (urls : list string) :
  (forall url, In url urls -> decodes env url = true) ->
  forall (i n : nat) (t : Part000.State),
    exists z,
      Part000.playClips env urls i n t
      = Returns tt (Part000.set_exportProgress z t).
Proof.
  induction urls as [|u rest IH]; intros Hall i n t.
  - exists (Part000.exportProgress t). now destruct t.
  - cbn [Part000.playClips]. rewrite (Hall u) by now left.
    unfold Part000.setExportProgress, bind, modify.
    destruct (IH (fun url H => Hall url (or_intror H)) (S i) n
                 (Part000.set_exportProgress (Part000.progressAfter i n) t))
      as [z Ez].
    rewrite Ez. exists z. now destruct t.
Qed.

(** Counting alerts and downloads in a log built by appending. *)
Ltac count_log :=
  rewrite <- ?app_assoc;
  rewrite ?alerts_app, ?downloads_app, ?alerts_frames, ?downloads_frames;
  unfold alerts, downloads; cbn; lia.

Arguments Part000.playClips : simpl never.
Arguments Player.renderAll : simpl never.

(** With every asset loading and no background buffer, [exportToMp4] runs to
    its download: one narration source into the capture sink, no alert. *)
Lemma exportToMp4_narration_only (env : Env) (p : Player.Props)
    (buf : AudioBuffer) (s : Player.State) :
  Player.audioBuffer p = Some buf ->
  Player.videoUrls p <> [] ->
  (forall url, In url (Player.videoUrls p) -> decodes env url = true) ->
  canvas2d env = true ->
  recorder_supports env webm = true ->
  Player.bgmBuffer s = None ->
  exists s',
    Player.exportToMp4 env p s = Returns tt s'
    /\ Player.isExporting s' = false
    /\ nodes (Player.world s')
       = nodes (Player.world s)
         ++ [mkNode Narration false (Player.narrationVolume s) CaptureSink
                    (List.length (contexts (Player.world s))) Playing]
    /\ alerts (log (Player.world s')) = alerts (log (Player.world s))
    /\ downloads (log (Player.world s')) = S (downloads (log (Player.world s))).
Proof.
  intros Hbuf Hne Hall Hcv Hrec Hbgm.
  destruct p as [urls ab]; cbn in Hbuf, Hne, Hall; subst ab.
  destruct urls as [|u rest]; [congruence|].
  destruct s as [a b c d e f g h vs rf [nd cx lg]]. cbn in Hbgm; subst h.
  unfold Player.exportToMp4, Player.exportJob, Player.setIsExporting. run.
  rewrite Hrec. run.
  rewrite (loadMedia_returns env (u :: rest) Hall). run.
  unfold Player.renderAll.
  match goal with
  | |- context [exportFrames ?d ?n ?t] => destruct (exportFrames d n t) as [|fr frs]
  end; run.
  - rewrite update_app_length.
    eexists. split; [reflexivity|]. cbn. split; [reflexivity|].
    split; [reflexivity|]. split; count_log.
  - rewrite Hcv. run. rewrite update_app_length.
    eexists. split; [reflexivity|]. cbn. split; [reflexivity|].
    split; [reflexivity|].
    change (DrawFrame fr :: map DrawFrame frs) with (map DrawFrame (fr :: frs)).
    split; count_log.
Qed.

Arguments Part000.mountedVideo : simpl never.

Lemma handleExport_narration_only (env : Env) (q : Part000.Props)
    (buf : AudioBuffer) (t : Part000.State) :
  Part000.audioBuffer q = Some buf ->
  (forall url, In url (Part000.videoUrls q) -> decodes env url = true) ->
  canvas2d env = true ->
  recorder_supports env webm = true ->
  Part000.bgmBuffer t = None ->
  Part000.isPlaying t = false ->
  exists t',
    Part000.handleExport env q t = Returns tt t'
    /\ Part000.isExporting t' = false
    /\ nodes (Part000.world t')
       = nodes (Part000.world t)
         ++ [mkNode Narration false 1 CaptureSink
                    (List.length (contexts (Part000.world t))) Playing]
    /\ alerts (log (Part000.world t')) = alerts (log (Part000.world t))
    /\ downloads (log (Part000.world t'))
       = S (downloads (log (Part000.world t))).
Proof.
  intros Hbuf Hall Hcv Hrec Hbgm Hp.
  destruct q as [urls ab]; cbn in Hbuf, Hall; subst ab.
  destruct t as [a b c d e f g h i j rf [nd cx lg]].
  cbn in Hbgm, Hp; subst i a.
  unfold Part000.handleExport, Part000.handleExport_enter, Part000.exportJob,
    Part000.setIsExportMenuOpen, Part000.setIsExporting,
    Part000.setExportProgress.
  run. rewrite Hcv. run. rewrite update_app_length.
  assert (Hmime : recorder_supports env
                    match f with
                    | webm => webm
                    | mp4 => if recorder_supports env mp4 then mp4 else webm
                    end = true).
  { destruct f; [assumption|].
    destruct (recorder_supports env mp4) eqn:E; assumption. }
  rewrite Hmime. run.
  match goal with
  | |- context [Part000.playClips ?en ?us ?i ?n ?st] =>
      destruct (playClips_returns en us Hall i n st) as [z Ez]; rewrite Ez
  end.
  run. eexists. split; [reflexivity|]. cbn.
  split; [reflexivity|]. split; [reflexivity|]. split; count_log.
Qed.

(** C8: if the background track cannot be fetched or decoded, nothing is
    alerted and both components go on with the narration alone: playback
    starts with a single, playing narration source into the speakers, and
    an export of assets that all load runs to its download with a single
    narration source into the capture sink. *)
Theorem background_failure_is_silent :
  forall (env : Env) (urls : list string) (buf : AudioBuffer),
    bgm env = FetchFails \/ bgm env = DecodeFails ->
    urls <> [] ->
    (forall url, In url urls -> decodes env url = true) ->
    canvas2d env = true ->
    recorder_supports env webm = true ->
    let p := Player.mkProps urls (Some buf) in
    let q := Part000.mkProps urls (Some buf) in
    (exists s,
       bind (Player.loadBgm env) (fun _ => Player.playAll_begin env)
            (Player.initial p) = Returns tt s
       /\ Player.isPlaying s = true
       /\ Player.bgmBuffer s = None
       /\ map track (nodes (Player.world s)) = [Narration]
       /\ map status (nodes (Player.world s)) = [Playing]
       /\ map destination (nodes (Player.world s)) = [Speakers]
       /\ alerts (log (Player.world s)) = 0%nat)
    /\ (exists s,
       bind (Player.loadBgm env) (fun _ => Player.clickDownload env p)
            (Player.initial p) = Returns tt s
       /\ Player.isExporting s = false
       /\ map track (nodes (Player.world s)) = [Narration]
       /\ map destination (nodes (Player.world s)) = [CaptureSink]
       /\ downloads (log (Player.world s)) = 1%nat
       /\ alerts (log (Player.world s)) = 0%nat)
    /\ (exists t,
       bind (Part000.loadBgm env) (fun _ => Part000.clickPlayButton env q)
            (Part000.initial q) = Returns tt t
       /\ Part000.isPlaying t = true
       /\ Part000.bgmBuffer t = None
       /\ map track (nodes (Part000.world t)) = [Narration]
       /\ map status (nodes (Part000.world t)) = [Playing]
       /\ map destination (nodes (Part000.world t)) = [Speakers]
       /\ alerts (log (Part000.world t)) = 0%nat)
    /\ (exists t,
       bind (Part000.loadBgm env)
            (fun _ => bind (Part000.checkMp4Support env)
            (fun _ => bind Part000.clickExportMenu
            (fun _ => Part000.clickStartDownload env q)))
            (Part000.initial q) = Returns tt t
       /\ Part000.isExporting t = false
       /\ map track (nodes (Part000.world t)) = [Narration]
       /\ map destination (nodes (Part000.world t)) = [CaptureSink]
       /\ downloads (log (Part000.world t)) = 1%nat
       /\ alerts (log (Part000.world t)) = 0%nat).
Proof.
  intros env urls buf Hbgm Hne Hall Hcv Hrec p q.
  split; [|split; [|split]].
  - unfold Player.loadBgm, Player.playAll_begin, Player.stopAll,
      Player.stopIfPresent, Player.pauseAllVideos, Player.setIsPlaying,
      Player.setCurrentIndex, Player.setPrevIndex, Player.initial.
    destruct Hbgm as [E|E]; rewrite E; run;
      (eexists; split; [reflexivity|]; cbn; repeat split).
  - assert (Hload : exists s1,
             Player.loadBgm env (Player.initial p) = Returns tt s1
             /\ Player.isExporting s1 = false /\ Player.isPlaying s1 = false
             /\ Player.bgmBuffer s1 = None /\ nodes (Player.world s1) = []
             /\ alerts (log (Player.world s1)) = 0%nat
             /\ downloads (log (Player.world s1)) = 0%nat).
    { unfold Player.loadBgm, Player.initial.
      destruct Hbgm as [E|E]; rewrite E; run;
        (eexists; split; [reflexivity|]; cbn; repeat split). }
    destruct Hload as (s1 & E1 & He1 & Hp1 & Hb1 & Hn1 & Ha1 & Hd1).
    destruct (exportToMp4_narration_only env p buf s1 eq_refl Hne Hall Hcv Hrec Hb1)
      as (s2 & E2 & He2 & Hn2 & Ha2 & Hd2).
    exists s2. unfold bind at 1. rewrite E1.
    unfold Player.clickDownload, bind, gets. rewrite He1, Hp1. cbn [orb].
    split; [exact E2|]. split; [exact He2|].
    rewrite Hn2, Hn1, Ha2, Hd2, Ha1, Hd1. repeat split.
  - unfold Part000.loadBgm, Part000.clickPlayButton, Part000.togglePlay,
      Part000.playAudio, Part000.liveContext, Part000.playVideo,
      Part000.setIsPlaying, Part000.initial.
    destruct Hbgm as [E|E]; rewrite E; run;
      match goal with
      | |- context [Part000.mountedVideo ?a ?b] =>
          destruct (Part000.mountedVideo a b)
      end; run;
      (eexists; split; [reflexivity|]; cbn; repeat split).
  - assert (Hload : exists t1,
             bind (Part000.loadBgm env)
                  (fun _ => bind (Part000.checkMp4Support env)
                  (fun _ => Part000.clickExportMenu))
                  (Part000.initial q) = Returns tt t1
             /\ Part000.isExportMenuOpen t1 = true
             /\ Part000.isPlaying t1 = false
             /\ Part000.bgmBuffer t1 = None /\ nodes (Part000.world t1) = []
             /\ alerts (log (Part000.world t1)) = 0%nat
             /\ downloads (log (Part000.world t1)) = 0%nat).
    { unfold Part000.loadBgm, Part000.checkMp4Support, Part000.clickExportMenu,
        Part000.setIsExportMenuOpen, Part000.initial.
      destruct Hbgm as [E|E]; rewrite E; run;
        (eexists; split; [reflexivity|]; cbn; repeat split). }
    destruct Hload as (t1 & E1 & Ho1 & Hp1 & Hb1 & Hn1 & Ha1 & Hd1).
    destruct (handleExport_narration_only env q buf t1 eq_refl Hall Hcv Hrec Hb1 Hp1)
      as (t2 & E2 & He2 & Hn2 & Ha2 & Hd2).
    exists t2. split.
    + revert E1. unfold bind.
      destruct (Part000.loadBgm env (Part000.initial q)) as [[] x|x|x];
        try discriminate.
      destruct (Part000.checkMp4Support env x) as [[] y|y|y]; try discriminate.
      intros ->. unfold Part000.clickStartDownload, bind, gets.
      rewrite Ho1. exact E2.
    + split; [exact He2|]. rewrite Hn2, Hn1, Ha2, Hd2, Ha1, Hd1. repeat split.
Qed.

Lemma background_failure_is_silent_witness :
  let urls := ["blob:clip0"; "data:image/png;base64,AAAA"]%string in
  let p := Player.mkProps urls (Some (mkBuffer 10)) in
  let q := Part000.mkProps urls (Some (mkBuffer 10)) in
  (exists s,
     bind (Player.loadBgm noBgmEngine) (fun _ => Player.playAll_begin noBgmEngine)
          (Player.initial p) = Returns tt s
     /\ Player.isPlaying s = true
     /\ Player.bgmBuffer s = None
     /\ map track (nodes (Player.world s)) = [Narration]
     /\ map status (nodes (Player.world s)) = [Playing]
     /\ map destination (nodes (Player.world s)) = [Speakers]
     /\ alerts (log (Player.world s)) = 0%nat)
  /\ (exists s,
     bind (Player.loadBgm noBgmEngine)
          (fun _ => Player.clickDownload noBgmEngine p)
          (Player.initial p) = Returns tt s
     /\ Player.isExporting s = false
     /\ map track (nodes (Player.world s)) = [Narration]
     /\ map destination (nodes (Player.world s)) = [CaptureSink]
     /\ downloads (log (Player.world s)) = 1%nat
     /\ alerts (log (Player.world s)) = 0%nat)
  /\ (exists t,
     bind (Part000.loadBgm noBgmEngine)
          (fun _ => Part000.clickPlayButton noBgmEngine q)
          (Part000.initial q) = Returns tt t
     /\ Part000.isPlaying t = true
     /\ Part000.bgmBuffer t = None
     /\ map track (nodes (Part000.world t)) = [Narration]
     /\ map status (nodes (Part000.world t)) = [Playing]
     /\ map destination (nodes (Part000.world t)) = [Speakers]
     /\ alerts (log (Part000.world t)) = 0%nat)
  /\ (exists t,
     bind (Part000.loadBgm noBgmEngine)
          (fun _ => bind (Part000.checkMp4Support noBgmEngine)
          (fun _ => bind Part000.clickExportMenu
          (fun _ => Part000.clickStartDownload noBgmEngine q)))
          (Part000.initial q) = Returns tt t
     /\ Part000.isExporting t = false
     /\ map track (nodes (Part000.world t)) = [Narration]
     /\ map destination (nodes (Part000.world t)) = [CaptureSink]
     /\ downloads (log (Part000.world t)) = 1%nat
     /\ alerts (log (Part000.world t)) = 0%nat).
Proof.
  intros urls.
  apply (background_failure_is_silent noBgmEngine urls (mkBuffer 10));
    [left; reflexivity | discriminate | reflexivity | reflexivity | reflexivity].
Defined.

(* ================================================================= *)
(** ** Drawing a frame: cover fit and video seek *)



Lemma allFrom_spec (P : Z -> bool) (k : nat) :
  forall z, allFrom k z P = true ->
  forall x, z <= x < z + Z.of_nat k -> P x = true.
Proof.
  induction k as [|k IH]; intros z H x Hx; [lia|].
  cbn [allFrom] in H. apply andb_prop in H. destruct H as [Hz Hrest].
  destruct (Z.eq_dec x z) as [->|Hne]; [exact Hz|].
  apply (IH (z + 1) Hrest). lia.
Qed.

(** The integer part lies between 0 and the number. *)
Lemma Qtrunc_bounds (x : Q) :
  ((0 <= x)%Q -> 0 <= Qtrunc x /\ (inject_Z (Qtrunc x) <= x)%Q
                 /\ (x < inject_Z (Qtrunc x) + 1)%Q)
  /\ ((x <= 0)%Q -> Qtrunc x <= 0 /\ (x <= inject_Z (Qtrunc x))%Q
                    /\ (inject_Z (Qtrunc x) - 1 < x)%Q).
Proof.
  unfold Qtrunc. split; intro Hx.
  - assert (E : Qle_bool 0 x = true) by now apply Qle_bool_iff.
    rewrite E. split; [|split].
    + change 0 with (Qfloor 0). now apply Qfloor_resp_le.
    + apply Qfloor_le.
    + pose proof (Qlt_floor x) as H. rewrite inject_Z_plus in H. exact H.
  - destruct (Qle_bool 0 x) eqn:E.
    + apply Qle_bool_iff in E.
      assert (E0 : (x == 0)%Q) by lra.
      rewrite (Qfloor_comp _ _ E0). change (Qfloor 0) with 0.
      split; [lia|]. change (inject_Z 0) with 0%Q.
      split; lra.
    + split; [|split].
      * change 0 with (Qceiling 0). now apply Qceiling_resp_le.
      * apply Qle_ceiling.
      * pose proof (Qceiling_lt x) as H.
        unfold Z.sub in H. rewrite inject_Z_plus in H.
        change (inject_Z (- (1))) with (-(1))%Q in H. lra.
Qed.

(** The remainder of a non-negative number: in [0, |D|), not above the
    number, the number itself below |D|, and 0 at |D|. *)
Lemma Qrem_range (a D : Q) :
  (0 <= a)%Q -> ~ (D == 0)%Q ->
  (0 <= Qrem a D)%Q /\ (Qrem a D <= a)%Q /\ (Qrem a D < Qabs D)%Q
  /\ ((a < Qabs D)%Q -> (Qrem a D == a)%Q)
  /\ ((a == Qabs D)%Q -> (Qrem a D == 0)%Q).
Proof.
  intros Ha HD. unfold Qrem.
  set (x := (a / D)%Q).
  assert (Hx : (x * D == a)%Q) by (unfold x; field; exact HD).
  destruct (Qlt_le_dec 0 D) as [Hpos|Hneg].
  - assert (Hx0 : (0 <= x)%Q).
    { unfold x. apply Qdiv_pos; assumption. }
    destruct (proj1 (Qtrunc_bounds x) Hx0) as (Hk & Hlo & Hhi).
    set (k := Qtrunc x) in *.
    assert (HK : (0 <= inject_Z k)%Q)
      by (change 0%Q with (inject_Z 0); now rewrite <- Zle_Qle).
    rewrite (Qabs_pos D) by lra.
    assert (H1 : (inject_Z k * D <= x * D)%Q)
      by (apply Qmult_le_compat_r; lra).
    assert (H2 : (x * D < (inject_Z k + 1) * D)%Q)
      by (apply Qmult_lt_compat_r; lra).
    assert (H3 : (0 <= inject_Z k * D)%Q)
      by (apply Qmult_le_0_compat; lra).
    split; [lra|]. split; [lra|]. split; [lra|]. split.
    + intro Hlt.
      assert (Hx1 : (x < 1)%Q).
      { unfold x. apply Qlt_shift_div_r; [assumption | lra]. }
      assert (Hk0 : k = 0).
      { assert (Hlt1 : (inject_Z k < inject_Z 1)%Q)
          by (change (inject_Z 1) with 1%Q; lra).
        rewrite <- Zlt_Qlt in Hlt1. lia. }
      rewrite Hk0. change (inject_Z 0) with 0%Q. ring.
    + intro Heq.
      assert (Hx1 : (x == 1)%Q).
      { unfold x. rewrite Heq. field. exact HD. }
      assert (Hk1 : k = 1).
      { assert (Hle1 : (inject_Z k <= inject_Z 1)%Q)
          by (change (inject_Z 1) with 1%Q; lra).
        assert (Hlt0 : (inject_Z 0 < inject_Z k)%Q)
          by (change (inject_Z 0) with 0%Q; lra).
        rewrite <- Zle_Qle in Hle1. rewrite <- Zlt_Qlt in Hlt0. lia. }
      rewrite Hk1. change (inject_Z 1) with 1%Q. lra.
  - assert (HD' : (D < 0)%Q).
    { destruct (Qlt_le_dec D 0) as [H|H]; [exact H|].
      exfalso. apply HD. lra. }
    assert (Hx0 : (x <= 0)%Q).
    { destruct (Qlt_le_dec 0 x) as [Hp|Hn]; [|exact Hn].
      exfalso.
      assert (Hc : (0 < x * - D)%Q) by (apply Qmult_lt_0_compat; lra).
      lra. }
    destruct (proj2 (Qtrunc_bounds x) Hx0) as (Hk & Hlo & Hhi).
    set (k := Qtrunc x) in *.
    assert (HK : (inject_Z k <= 0)%Q)
      by (change 0%Q with (inject_Z 0); now rewrite <- Zle_Qle).
    rewrite (Qabs_neg D) by lra.
    assert (H1 : (x * (- D) <= inject_Z k * (- D))%Q)
      by (apply Qmult_le_compat_r; lra).
    assert (H2 : ((inject_Z k - 1) * (- D) < x * (- D))%Q)
      by (apply Qmult_lt_compat_r; lra).
    assert (H3 : (0 <= (- inject_Z k) * (- D))%Q)
      by (apply Qmult_le_0_compat; lra).
    split; [lra|]. split; [lra|]. split; [lra|]. split.
    + intro Hlt.
      assert (Hx1 : (-(1) < x)%Q).
      { assert (Hm : (x * - D < 1 * - D)%Q) by lra.
        destruct (Qlt_le_dec (-(1)) x) as [Hp|Hn]; [exact Hp|exfalso].
        assert (Hq : (1 * - D <= (- x) * - D)%Q)
          by (apply Qmult_le_compat_r; lra).
        lra. }
      assert (Hk0 : k = 0).
      { assert (Hlt1 : (inject_Z (-1) < inject_Z k)%Q)
          by (change (inject_Z (-1)) with (-(1))%Q; lra).
        rewrite <- Zlt_Qlt in Hlt1. lia. }
      rewrite Hk0. change (inject_Z 0) with 0%Q. ring.
    + intro Heq.
      assert (Hx1 : (x == -(1))%Q).
      { unfold x. rewrite Heq. field. exact HD. }
      assert (Hk1 : k = -1).
      { assert (Hle1 : (inject_Z (-1) <= inject_Z k)%Q)
          by (change (inject_Z (-1)) with (-(1))%Q; lra).
        assert (Hlt0 : (inject_Z k < inject_Z 0)%Q)
          by (change (inject_Z 0) with 0%Q; lra).
        rewrite <- Zle_Qle in Hle1. rewrite <- Zlt_Qlt in Hlt0. lia. }
      rewrite Hk1. change (inject_Z (-1)) with (-(1))%Q. lra.
Qed.

Lemma sceneTime_checked : allFrom (Z.to_nat 108000) 0 sceneTimeChecked = true.
Proof. vm_cast_no_check (eq_refl true). Qed.

Lemma valueOf_one : exists D, B64.valueOf 1 = Finite D /\ (D == 1)%Q.
Proof. eexists. split; vm_compute; reflexivity. Qed.

(** X2: the time a video is seeked to before it is drawn, on the binary64
    numbers of the code, for a position of up to an hour within the scene
    (frameInScene < 108000).  The quotient frameInScene / fps is a number q
    within 2^-42 of the exact quotient; the time t assigned is a number
    with 0 <= t <= q, for every value of video.duration.  The divisor
    video.duration || 1 is never NaN or zero.  If it is a finite number D,
    then t < |D|, t = q as long as q < |D|, and t = 0 when q = |D|; if it is
    infinite, t = q. *)
Theorem seek_time_within_clip :
  forall (inScene : Z) (videoDuration : PrimFloat.float),
    0 <= inScene < 108000 ->
    exists q t,
      B64.valueOf (B64.sceneTime inScene) = Finite q
      /\ (Qabs (q - inject_Z inScene / inject_Z fps) <= 1 # 4398046511104)%Q
      /\ seekTime inScene videoDuration = Finite t
      /\ (0 <= t)%Q /\ (t <= q)%Q
      /\ match B64.valueOf (durationOr1 videoDuration) with
         | Finite D =>
             ~ (D == 0)%Q /\ (t < Qabs D)%Q
             /\ ((q < Qabs D)%Q -> (t == q)%Q)
             /\ ((q == Qabs D)%Q -> (t == 0)%Q)
         | Infinite _ => (t == q)%Q
         | NotANumber => False
         end.
Proof.
  intros i d Hi.
  pose proof (allFrom_spec sceneTimeChecked _ 0 sceneTime_checked i
                ltac:(lia)) as Hc.
  unfold sceneTimeChecked in Hc.
  destruct (B64.valueOf (B64.sceneTime i)) as [q| |] eqn:Eq;
    try discriminate.
  apply andb_prop in Hc. destruct Hc as [Hq Hnear].
  apply Qle_bool_iff in Hq. apply Qle_bool_iff in Hnear.
  exists q.
  assert (Hfin : forall D, ~ (D == 0)%Q ->
            B64.valueOf (durationOr1 d) = Finite D ->
            exists t, seekTime i d = Finite t
              /\ (0 <= t)%Q /\ (t <= q)%Q
              /\ ~ (D == 0)%Q /\ (t < Qabs D)%Q
              /\ ((q < Qabs D)%Q -> (t == q)%Q)
              /\ ((q == Qabs D)%Q -> (t == 0)%Q)).
  { intros D HD ED. unfold seekTime. rewrite Eq, ED. cbn [Number_rem].
    destruct (Qeq_bool D 0) eqn:E0; [apply Qeq_bool_iff in E0; contradiction|].
    destruct (Qrem_range q D Hq HD) as (H1 & H2 & H3 & H4 & H5).
    exists (Qrem q D). repeat split; assumption. }
  assert (Hone : B64.valueOf (durationOr1 d) = B64.valueOf 1 ->
            exists t, seekTime i d = Finite t
              /\ (0 <= t)%Q /\ (t <= q)%Q
              /\ match B64.valueOf (durationOr1 d) with
                 | Finite D =>
                     ~ (D == 0)%Q /\ (t < Qabs D)%Q
                     /\ ((q < Qabs D)%Q -> (t == q)%Q)
                     /\ ((q == Qabs D)%Q -> (t == 0)%Q)
                 | Infinite _ => (t == q)%Q
                 | NotANumber => False
                 end).
  { intro E1. destruct valueOf_one as (D & ED & HD1).
    rewrite ED in E1.
    assert (HD : ~ (D == 0)%Q) by (rewrite HD1; discriminate).
    destruct (Hfin D HD E1) as (t & Et & H).
    exists t. rewrite E1. split; [exact Et|]. tauto. }
  destruct (B64.valueOf d) as [v|s|] eqn:Ed.
  - destruct (Qeq_bool v 0) eqn:Ev.
    + destruct Hone as (t & Et & H).
      { unfold durationOr1. now rewrite Ed, Ev. }
      exists t. tauto.
    + assert (E : durationOr1 d = d) by (unfold durationOr1; now rewrite Ed, Ev).
      apply Qeq_bool_neq in Ev.
      destruct (Hfin v Ev) as (t & Et & H); [now rewrite E|].
      exists t. rewrite E, Ed. tauto.
  - assert (E : durationOr1 d = d) by (unfold durationOr1; now rewrite Ed).
    exists q. rewrite E, Ed. unfold seekTime. rewrite Eq, E, Ed. cbn [Number_rem].
    repeat split; try assumption; try reflexivity. apply Qle_refl.
  - destruct Hone as (t & Et & H).
    { unfold durationOr1. now rewrite Ed. }
    exists t. tauto.
Qed.

#[local] Set Warnings "-inexact-float".

Lemma seek_time_within_clip_witness :
  exists q t,
    B64.valueOf (B64.sceneTime 149) = Finite q
    /\ (Qabs (q - inject_Z 149 / inject_Z fps) <= 1 # 4398046511104)%Q
    /\ seekTime 149 4.966666666666667%float = Finite t
    /\ (0 <= t)%Q /\ (t <= q)%Q
    /\ match B64.valueOf (durationOr1 4.966666666666667%float) with
       | Finite D =>
           ~ (D == 0)%Q /\ (t < Qabs D)%Q
           /\ ((q < Qabs D)%Q -> (t == q)%Q)
           /\ ((q == Qabs D)%Q -> (t == 0)%Q)
       | Infinite _ => (t == q)%Q
       | NotANumber => False
       end.
Proof. apply (seek_time_within_clip 149 4.966666666666667%float). lia. Defined.

(** A clip as long as 149 frames, 4.966666666666667 s as a binary64 number:
    at position 149 the quotient equals the duration and the video is
    seeked to 0, one position earlier to 148 / 30.  With an unknown
    duration the time stays below 1, with an infinite one it is the
    quotient. *)
Example seek_wraps_at_the_clip_end :
  let clip := 4.966666666666667%float in
  B64.sceneTime 149 = clip
  /\ (exists t, seekTime 149 clip = Finite t /\ (t == 0)%Q)
  /\ (exists q t, B64.valueOf (B64.sceneTime 148) = Finite q
                  /\ seekTime 148 clip = Finite t /\ (t == q)%Q)
  /\ (exists t, seekTime 149 PrimFloat.nan = Finite t /\ (t < 1)%Q)
  /\ (exists q t, B64.valueOf (B64.sceneTime 149) = Finite q
                  /\ seekTime 149 PrimFloat.infinity = Finite t /\ (t == q)%Q).
Proof.
  cbv zeta. split; [vm_compute; reflexivity|].
  split; [eexists; split; vm_compute; reflexivity|].
  split; [eexists; eexists; split; [|split]; vm_compute; reflexivity|].
  split; [eexists; split; vm_compute; reflexivity|].
  eexists; eexists; split; [|split]; vm_compute; reflexivity.
Qed.

(* ================================================================= *)
(** ** The frames of an export, in order *)

Lemma div_succ_step (f F : Z) :
  0 <= f -> 0 < F -> (f + 1) / F = f / F \/ (f + 1) / F = f / F + 1.
Proof.
  intros Hf HF.
  pose proof (Z.div_mod f F ltac:(lia)) as E.
  pose proof (Z.mod_pos_bound f F HF) as B.
  destruct (Z_lt_dec (f mod F + 1) F) as [Hlt|Hge].
  - left. symmetry. apply (Z.div_unique (f + 1) F (f / F) (f mod F + 1)); lia.
  - right. symmetry. apply (Z.div_unique (f + 1) F (f / F + 1) 0); lia.
Qed.

(** X3: the frame loop, for any number of frames and any framesPerScene >= 1
    (so for the counts binary64 arithmetic yields as well), with at least
    one scene.  Every frame number below the total is drawn, in the order
    0, 1, 2, ..., and nothing else.  Every frame lies in a scene between 0
    and sceneCount - 1 at a position below framesPerScene; below
    sceneCount * framesPerScene the frame number is scene * framesPerScene +
    position, at or beyond it (one rounding can put a frame there) the
    frame is drawn with the last scene.  The first frame shows scene 0 and
    from one frame to the next the scene stays or advances by one. *)
Theorem export_frames_in_order :
  forall (total perScene sceneCount : Z) (t : TransitionType),
    1 <= perScene -> 1 <= sceneCount ->
    let frames := frameLoop total perScene sceneCount t in
    (forall i, 0 <= i < total ->
       exists x, nth_error frames (Z.to_nat i) = Some x /\ fr_frame x = i)
    /\ (forall i x, nth_error frames i = Some x ->
          fr_frame x = Z.of_nat i
          /\ Z.of_nat i < total
          /\ 0 <= fr_scene x <= sceneCount - 1
          /\ 0 <= fr_inScene x < perScene
          /\ (fr_frame x < sceneCount * perScene ->
              fr_frame x = fr_scene x * perScene + fr_inScene x)
          /\ (sceneCount * perScene <= fr_frame x ->
              fr_scene x = sceneCount - 1))
    /\ (forall x, nth_error frames 0 = Some x -> fr_scene x = 0)
    /\ (forall i x y,
          nth_error frames i = Some x -> nth_error frames (S i) = Some y ->
          fr_scene y = fr_scene x \/ fr_scene y = fr_scene x + 1).
Proof.
  intros total fpsn n t HF Hn frames.
  assert (Hlen : List.length frames = Z.to_nat total)
    by apply renderFrames_length.
  assert (Hspec : forall i x, nth_error frames i = Some x ->
            fr_frame x = Z.of_nat i
            /\ fr_scene x = Z.min (Z.of_nat i / fpsn) (n - 1)
            /\ fr_inScene x = Z.rem (Z.of_nat i) fpsn).
  { intros i x Hx.
    destruct (renderFrames_spec _ _ _ _ _ _ _ _ Hx) as (Ef & Es & Ei & _).
    rewrite Z.add_0_l in Ef. rewrite Es, Ei, Ef.
    rewrite newScene_div by lia. repeat split. }
  split; [|split; [|split]].
  - intros i Hi.
    destruct (nth_error frames (Z.to_nat i)) as [x|] eqn:E.
    + exists x. split; [reflexivity|].
      destruct (Hspec _ _ E) as (Ef & _). lia.
    + apply nth_error_None in E. lia.
  - intros i x Hx.
    assert (Hi : (i < List.length frames)%nat)
      by (apply nth_error_Some; congruence).
    destruct (Hspec i x Hx) as (Ef & Es & Ei).
    split; [exact Ef|]. split; [lia|]. rewrite Ef, Es, Ei.
    pose proof (Z.div_pos (Z.of_nat i) fpsn ltac:(lia) ltac:(lia)) as Hq.
    pose proof (Z.rem_bound_pos (Z.of_nat i) fpsn ltac:(lia) ltac:(lia)) as Hr.
    split; [lia|]. split; [lia|]. split.
    + intro Hlt.
      assert (Hd : Z.of_nat i / fpsn < n)
        by (apply Z.div_lt_upper_bound; lia).
      rewrite Z.min_l by lia.
      rewrite Z.rem_mod_nonneg by lia.
      pose proof (Z.div_mod (Z.of_nat i) fpsn ltac:(lia)). lia.
    + intro Hge. apply Z.min_r.
      assert (H : n <= Z.of_nat i / fpsn)
        by (apply Z.div_le_lower_bound; lia).
      lia.
  - intros x Hx. destruct (Hspec 0%nat x Hx) as (_ & Es & _).
    rewrite Es. cbn [Z.of_nat]. rewrite Z.div_0_l; lia.
  - intros i x y Hx Hy.
    destruct (Hspec i x Hx) as (_ & Ex & _).
    destruct (Hspec (S i) y Hy) as (_ & Ey & _).
    rewrite Ex, Ey. rewrite Nat2Z.inj_succ. unfold Z.succ.
    destruct (div_succ_step (Z.of_nat i) fpsn ltac:(lia) ltac:(lia)) as [E|E];
      rewrite E; lia.
Qed.

(** The 16.1 s job of [b64_sixteen_seconds_frames]. *)
Lemma export_frames_in_order_witness :
  let frames := frameLoop 484 161 3 slide in
  (forall i, 0 <= i < 484 ->
     exists x, nth_error frames (Z.to_nat i) = Some x /\ fr_frame x = i)
  /\ (forall i x, nth_error frames i = Some x ->
        fr_frame x = Z.of_nat i
        /\ Z.of_nat i < 484
        /\ 0 <= fr_scene x <= 3 - 1
        /\ 0 <= fr_inScene x < 161
        /\ (fr_frame x < 3 * 161 ->
            fr_frame x = fr_scene x * 161 + fr_inScene x)
        /\ (3 * 161 <= fr_frame x -> fr_scene x = 3 - 1))
  /\ (forall x, nth_error frames 0 = Some x -> fr_scene x = 0)
  /\ (forall i x y,
        nth_error frames i = Some x -> nth_error frames (S i) = Some y ->
        fr_scene y = fr_scene x \/ fr_scene y = fr_scene x + 1).
Proof. apply (export_frames_in_order 484 161 3 slide); lia. Defined.

(* ================================================================= *)
(** ** The classes of a scene element *)

(** X4: whatever the transition, the element of the active scene is never
    transparent or moved off the viewport, every scene that is neither the
    active nor the previous one is transparent, no other scene carries the
    marks of the active one, and every element keeps the base classes. *)
Theorem scene_classes_visibility :
  forall (t : TransitionType) (currentIndex prevIndex index : Z),
    let c := getTransitionClasses t currentIndex prevIndex index in
    (index = currentIndex ->
       hasClass "opacity-0" c = false
       /\ hasClass "translate-x-full" c = false
       /\ hasClass "-translate-x-full" c = false)
    /\ (index <> currentIndex -> index <> prevIndex ->
        hasClass "opacity-0" c = true)
    /\ (index <> currentIndex ->
        hasClass "opacity-100" c = false
        /\ hasClass "translate-x-0" c = false
        /\ hasClass "scale-100" c = false)
    /\ hasClass "absolute" c = true /\ hasClass "object-cover" c = true.
Proof.
  intros t cur prev i c. subst c. unfold getTransitionClasses.
  destruct (Z.eqb_spec i cur) as [Ec|Ec]; destruct (Z.eqb_spec i prev) as [Ep|Ep];
    destruct t; vm_compute; repeat split; intros; congruence.
Qed.

(* ================================================================= *)
(** ** Export progress in part_000 *)

Lemma risesTo100_spec (total : Z) (k : nat) :
  forall done prev,
    risesTo100 k done prev total = true ->
    (forall x, done <= x < done + Z.of_nat k -> prev <= Part000.percentDone x total)
    /\ (forall x y, done <= x <= y -> y < done + Z.of_nat k ->
          Part000.percentDone x total <= Part000.percentDone y total)
    /\ ((0 < k)%nat -> Part000.percentDone (done + Z.of_nat k - 1) total = 100)
    /\ (k = 0%nat -> prev = 100).
Proof.
  induction k as [|k IH]; intros done prev H.
  - cbn [risesTo100] in H. apply Z.eqb_eq in H.
    repeat split; intros; try lia.
  - cbn [risesTo100] in H. cbv zeta in H.
    apply andb_prop in H. destruct H as [Hp Hrest]. apply Z.leb_le in Hp.
    destruct (IH (done + 1) (Part000.percentDone done total) Hrest)
      as (Hlow & Hmono & Hlast & Hzero).
    split; [|split; [|split]].
    + intros x Hx. destruct (Z.eq_dec x done) as [->|Hne]; [exact Hp|].
      pose proof (Hlow x ltac:(lia)). lia.
    + intros x y Hxy Hy. destruct (Z.eq_dec x done) as [->|Hne].
      * destruct (Z.eq_dec y done) as [->|Hne']; [lia|].
        apply Hlow. lia.
      * apply Hmono; lia.
    + intros _. destruct k as [|k'].
      * rewrite <- (Hzero eq_refl). f_equal. lia.
      * replace (done + Z.of_nat (S (S k')) - 1)
          with (done + 1 + Z.of_nat (S k') - 1) by lia.
        apply Hlast. lia.
    + discriminate.
Qed.

(** Up to 500 clips. *)
Lemma progress_checked : allFrom 500 1 progressChecked = true.
Proof. vm_cast_no_check (eq_refl true). Qed.

Lemma percentDone_rises (total : Z) :
  1 <= total <= 500 ->
  (forall d, 1 <= d <= total -> 0 <= Part000.percentDone d total <= 100)
  /\ (forall d e, 1 <= d <= e -> e <= total ->
        Part000.percentDone d total <= Part000.percentDone e total)
  /\ Part000.percentDone total total = 100.
Proof.
  intro Ht.
  pose proof (allFrom_spec progressChecked 500 1 progress_checked total
                ltac:(lia)) as H.
  unfold progressChecked in H.
  destruct (risesTo100_spec total (Z.to_nat total) 1 0 H)
    as (Hlow & Hmono & Hlast & _).
  rewrite Z2Nat.id in * by lia.
  assert (E : Part000.percentDone total total = 100).
  { replace total with (1 + total - 1) at 1 by lia. apply Hlast. lia. }
  split; [|split; [|exact E]].
  - intros d Hd. split; [apply Hlow; lia|].
    rewrite <- E. apply Hmono; lia.
  - intros d e Hde He. apply Hmono; lia.
Qed.

Lemma progressAfter_range (i j n : nat) :
  (0 < n <= 500)%nat -> (i <= j < n)%nat ->
  0 <= Part000.progressAfter i n
  /\ Part000.progressAfter i n <= Part000.progressAfter j n
  /\ Part000.progressAfter j n <= 100.
Proof.
  intros Hn Hij. unfold Part000.progressAfter.
  destruct (percentDone_rises (Z.of_nat n) ltac:(lia)) as (Hr & Hm & _).
  split; [apply Hr; lia|]. split; [apply Hm; lia | apply Hr; lia].
Qed.

Lemma progressAfter_last (n : nat) :
  (0 < n <= 500)%nat -> Part000.progressAfter (n - 1) n = 100.
Proof.
  intro Hn. unfold Part000.progressAfter.
  replace (Z.of_nat (n - 1) + 1) with (Z.of_nat n) by lia.
  apply percentDone_rises. lia.
Qed.

(** With 40 clips the progress after the 23rd is 57: the product of the
    rounded quotient and 100 is just below 57.5, where exact arithmetic
    gives 57.5 and 58. *)
Example progress_rounds_the_binary64_product :
  Part000.progressAfter 22 40 = 57
  /\ Qfloor (inject_Z 23 / inject_Z 40 * 100 + (1 # 2)) = 58.
Proof. vm_compute. split; reflexivity. Qed.

Lemma playClips_cases (env : Env) (urls : list string) :
  forall (i n : nat) (t : Part000.State),
    exists z,
      Part000.playClips env urls i n t
      = if forallb (decodes env) urls
        then Returns tt (Part000.set_exportProgress z t)
        else Throws (Part000.set_exportProgress z t).
Proof.
  induction urls as [|u rest IH]; intros i n t.
  - exists (Part000.exportProgress t). now destruct t.
  - unfold Part000.playClips; fold Part000.playClips. cbn [forallb].
    destruct (decodes env u); cbn [andb].
    + unfold Part000.setExportProgress, bind, modify.
      destruct (IH (S i) n
                  (Part000.set_exportProgress (Part000.progressAfter i n) t))
        as [z Ez].
      rewrite Ez. exists z. destruct (forallb (decodes env) rest); now destruct t.
    + exists (Part000.exportProgress t). now destruct t.
Qed.

Lemma playClips_final_progress (env : Env) (urls : list string) :
  forallb (decodes env) urls = true -> urls <> [] ->
  forall (i n : nat) (t : Part000.State),
    (i + List.length urls = n)%nat ->
    Part000.playClips env urls i n t
    = Returns tt (Part000.set_exportProgress (Part000.progressAfter (n - 1) n) t).
Proof.
  induction urls as [|u rest IH]; intros Hall Hne i n t Hn; [congruence|].
  cbn [forallb] in Hall. apply andb_prop in Hall. destruct Hall as [Hu Hrest].
  unfold Part000.playClips; fold Part000.playClips. rewrite Hu.
  unfold Part000.setExportProgress, bind, modify.
  destruct rest as [|v rest'].
  - unfold Part000.playClips. cbn [List.length] in Hn.
    replace (n - 1)%nat with i by lia. reflexivity.
  - rewrite (IH Hrest ltac:(discriminate) (S i) n); [|cbn [List.length] in *; lia].
    now destruct t.
Qed.

(** X5: in part_000, for up to 500 clips, the progress shown during an
    export, computed on binary64 numbers, is a whole percentage between 0
    and 100 that never decreases from clip to clip, and when all clips have
    played it stands at exactly 100. *)
Theorem export_progress_reaches_100 :
  forall (env : Env) (urls : list string) (t : Part000.State) (i j : nat),
    urls <> [] ->
    (List.length urls <= 500)%nat ->
    forallb (decodes env) urls = true ->
    (i <= j < List.length urls)%nat ->
    0 <= Part000.progressAfter i (List.length urls)
    /\ Part000.progressAfter i (List.length urls)
       <= Part000.progressAfter j (List.length urls)
    /\ Part000.progressAfter j (List.length urls) <= 100
    /\ exists t',
         Part000.playClips env urls 0 (List.length urls) t = Returns tt t'
         /\ Part000.exportProgress t' = 100.
Proof.
  intros env urls t i j Hne Hmax Hall Hij.
  set (n := List.length urls) in *.
  assert (Hn : (0 < n <= 500)%nat) by lia.
  destruct (progressAfter_range i j n Hn Hij) as (H0 & Hm & H100).
  split; [exact H0|]. split; [exact Hm|]. split; [exact H100|].
  rewrite (playClips_final_progress env urls Hall Hne 0%nat n t eq_refl).
  eexists. split; [reflexivity|]. destruct t; cbn.
  apply progressAfter_last. exact Hn.
Qed.

Lemma export_progress_reaches_100_witness :
  let urls := ["blob:a"; "blob:b"; "blob:c"]%string in
  0 <= Part000.progressAfter 0 (List.length urls)
  /\ Part000.progressAfter 0 (List.length urls)
     <= Part000.progressAfter 1 (List.length urls)
  /\ Part000.progressAfter 1 (List.length urls) <= 100
  /\ exists t',
       Part000.playClips currentEngine urls 0 (List.length urls)
                         (Part000.initial twoClips) = Returns tt t'
       /\ Part000.exportProgress t' = 100.
Proof.
  intro urls.
  apply (export_progress_reaches_100 currentEngine urls
           (Part000.initial twoClips) 0%nat 1%nat);
    [discriminate | cbn; lia | reflexivity | cbn; lia].
Defined.

(* ================================================================= *)
(** ** How an export ends *)

(** Stopping a source adds neither an alert nor a download to the log. *)
Lemma tryStop_counts (env : Env) (r : option nat) (t t' : Part000.State) :
  Part000.tryStop env r t = Returns tt t' ->
  alerts (log (Part000.world t')) = alerts (log (Part000.world t))
  /\ downloads (log (Part000.world t')) = downloads (log (Part000.world t)).
Proof.
  destruct t as [a b c d e f g h i j rf [nd cx lg]].
  unfold Part000.tryStop, tryIgnore, stopNode. destruct r as [id|]; run.
  - destruct (nth_error nd id) as [n|]; [|intros [= <-]; cbn; auto].
    destruct (node_stop env n) as [n'|]; intros [= <-]; cbn; auto.
    split; count_log.
  - intros [= <-]. cbn. auto.
Qed.

Lemma stopAudio_counts (env : Env) (t t' : Part000.State) :
  Part000.stopAudio env t = Returns tt t' ->
  alerts (log (Part000.world t')) = alerts (log (Part000.world t))
  /\ downloads (log (Part000.world t')) = downloads (log (Part000.world t)).
Proof.
  unfold Part000.stopAudio.
  destruct t as [a b c d e f g h i j [cx n bg] w].
  unfold bind at 1, gets. cbn [Part000.refs narrationSourceRef].
  assert (Hn : forall t0 t1,
    (match n with
     | Some _ => bind (Part000.tryStop env n) (fun _ => setNarrationSourceRef None)
     | None => ret tt
     end) t0 = Returns tt t1 ->
    alerts (log (Part000.world t1)) = alerts (log (Part000.world t0))
    /\ downloads (log (Part000.world t1)) = downloads (log (Part000.world t0))
    /\ bgmSourceRef (Part000.refs t1) = bgmSourceRef (Part000.refs t0)).
  { intros t0 t1. destruct n as [id|].
    - destruct (tryStop_returns env id t0) as (nd' & lg' & E' & _).
      pose proof (tryStop_counts env (Some id) t0 _ E') as [Ea Ed].
      unfold bind. rewrite E'.
      unfold setNarrationSourceRef, modify. intros [= <-].
      destruct t0 as [? ? ? ? ? ? ? ? ? ? [? ? ?] ?]. cbn in *. auto.
    - intros [= <-]. auto. }
  unfold bind at 1.
  match goal with
  | |- context [match ?c ?st with Returns _ _ => _ | Throws _ => _ | Awaits _ => _ end] =>
      destruct (c st) as [[] t0|t0|t0] eqn:E0; try discriminate
  end.
  apply Hn in E0. destruct E0 as (Ea0 & Ed0 & Eb0).
  unfold bind at 1, gets.
  destruct (bgmSourceRef (Part000.refs t0)) as [id|].
  - destruct (tryStop_returns env id t0) as (nd' & lg' & E' & _).
    pose proof (tryStop_counts env (Some id) t0 _ E') as [Ea Ed].
    unfold bind. rewrite E'.
    unfold setBgmSourceRef, modify. intros [= <-].
    destruct t0 as [? ? ? ? ? ? ? ? ? ? [? ? ?] ?]. cbn in *.
    split; congruence.
  - intros [= <-]. auto.
Qed.

Ltac count_all :=
  rewrite <- ?app_assoc;
  rewrite ?alerts_app, ?downloads_app, ?alerts_frames, ?downloads_frames;
  unfold alerts, downloads in *; cbn in *; lia.

(** What [handleExport] has done when its [try] block is entered, from any
    state: the flags are set and playback, if there was one, is off. *)
Lemma handleExport_enter_frame (env : Env) (q : Part000.Props)
    (t : Part000.State) :
  exists t1,
    Part000.handleExport_enter env q t = Returns tt t1
    /\ Part000.isPlaying t1 = false
    /\ Part000.isExporting t1 = true
    /\ Part000.exportFormat t1 = Part000.exportFormat t
    /\ Part000.bgmBuffer t1 = Part000.bgmBuffer t
    /\ alerts (log (Part000.world t1)) = alerts (log (Part000.world t))
    /\ downloads (log (Part000.world t1)) = downloads (log (Part000.world t)).
Proof.
  destruct t as [a b c d e f g h i j rf w].
  unfold Part000.handleExport_enter, Part000.togglePlay,
    Part000.setIsExportMenuOpen, Part000.setIsExporting,
    Part000.setExportProgress, Part000.setIsPlaying, Part000.pauseVideo.
  destruct a; run.
  - match goal with
    | |- context [Part000.stopAudio ?en ?st] =>
        destruct (stopAudio_returns en st) as (nd' & lg' & E & _);
        pose proof (stopAudio_counts en st _ E) as [Ha Hd]
    end.
    normalise. rewrite E. clear E.
    destruct h as [v|]; run;
      (eexists; split; [reflexivity|]; cbn; repeat split; count_all).
  - eexists. split; [reflexivity|]. cbn. repeat split.
Qed.

(** X6: in part_000 [handleExport] always comes to an end, from any state
    and in any browser, with the exporting and playing flags cleared and
    with exactly one of two outcomes: one download and no alert when the
    canvas, the recorder format and every clip are available, one alert and
    no download otherwise. *)
Theorem handleExport_download_or_alert :
  forall (env : Env) (q : Part000.Props) (t : Part000.State),
    let mimeType :=
      match Part000.exportFormat t with
      | mp4 => if recorder_supports env mp4 then mp4 else webm
      | webm => webm
      end in
    exists t',
      Part000.handleExport env q t = Returns tt t'
      /\ Part000.isExporting t' = false
      /\ Part000.isPlaying t' = false
      /\ if canvas2d env && recorder_supports env mimeType
            && forallb (decodes env) (Part000.videoUrls q)
         then downloads (log (Part000.world t'))
              = S (downloads (log (Part000.world t)))
              /\ alerts (log (Part000.world t')) = alerts (log (Part000.world t))
         else alerts (log (Part000.world t'))
              = S (alerts (log (Part000.world t)))
              /\ downloads (log (Part000.world t'))
                 = downloads (log (Part000.world t)).
Proof.
  intros env q t mimeType.
  destruct (handleExport_enter_frame env q t)
    as (t1 & E1 & Hp & He & Hf & Hb & Ha & Hd).
  unfold Part000.handleExport. unfold bind at 1. rewrite E1.
  subst mimeType. rewrite <- Hf. rewrite <- Ha, <- Hd. clear E1 Hf Ha Hd Hb t.
  destruct t1 as [a b c d e f g h i j rf [nd cx lg]]. cbn in Hp, He; subst a d.
  destruct q as [urls ab].
  unfold Part000.exportJob, Part000.setIsExporting.
  cbn [Part000.exportFormat Part000.videoUrls Part000.audioBuffer
       Part000.world log].
  destruct (canvas2d env); run;
    [|eexists; split; [reflexivity|]; cbn; repeat split; count_all].
  destruct ab as [buf|]; run; destruct i as [bb|]; run;
    match goal with
    | |- context [recorder_supports env ?m] =>
        destruct (recorder_supports env m) eqn:Em
    end; run;
    try (eexists; split; [reflexivity|]; cbn; repeat split; count_all);
    match goal with
    | |- context [Part000.playClips ?en ?us ?k ?n ?st] =>
        destruct (playClips_cases en us k n st) as [z Ez]; rewrite Ez
    end;
    destruct (forallb (decodes env) urls); run;
    (eexists; split; [reflexivity|]; cbn; repeat split; count_all).
Qed.

(** X7: [exportToMp4] of Player.tsx never throws to its caller.  Without a
    narration buffer or without scenes it does nothing at all.  Otherwise
    it either stays suspended, exporting flag set, on an asset that does
    not load, or it returns with the flag cleared after exactly one
    download (recorder, assets and canvas all fine) or exactly one alert. *)
Theorem exportToMp4_outcomes :
  forall (env : Env) (p : Player.Props) (s : Player.State),
    match Player.audioBuffer p, Player.videoUrls p with
    | None, _ | _, [] => Player.exportToMp4 env p s = Returns tt s
    | Some buf, _ :: _ =>
        match Player.exportToMp4 env p s with
        | Throws _ => False
        | Awaits s' =>
            Player.isExporting s' = true
            /\ recorder_supports env webm = true
            /\ forallb (decodes env) (Player.videoUrls p) = false
            /\ alerts (log (Player.world s')) = alerts (log (Player.world s))
            /\ downloads (log (Player.world s'))
               = downloads (log (Player.world s))
        | Returns _ s' =>
            Player.isExporting s' = false
            /\ Player.isPlaying s' = Player.isPlaying s
            /\ ((downloads (log (Player.world s'))
                 = S (downloads (log (Player.world s)))
                 /\ alerts (log (Player.world s'))
                    = alerts (log (Player.world s))
                 /\ recorder_supports env webm = true
                 /\ forallb (decodes env) (Player.videoUrls p) = true)
                \/ (alerts (log (Player.world s'))
                    = S (alerts (log (Player.world s)))
                    /\ downloads (log (Player.world s'))
                       = downloads (log (Player.world s))))
        end
    end.
Proof.
  intros env [urls ab] s. cbn [Player.audioBuffer Player.videoUrls].
  destruct ab as [buf|]; [|reflexivity].
  destruct urls as [|u rest]; [reflexivity|].
  destruct s as [a b c d e f g h vs rf [nd cx lg]].
  unfold Player.exportToMp4, Player.exportJob, Player.setIsExporting.
  cbn [Player.audioBuffer Player.videoUrls].
  run.
  destruct h as [bb|]; run;
    (destruct (recorder_supports env webm) eqn:Er; run;
     [|repeat split; right; split; count_all]);
    rewrite (loadMedia_cases env (u :: rest));
    (destruct (forallb (decodes env) (u :: rest)) eqn:Ed;
     [|run; repeat split; try assumption; count_all]);
    run; unfold Player.renderAll;
    match goal with
    | |- context [exportFrames ?x ?n ?t] =>
        destruct (exportFrames x n t) as [|fr frs]
    end; run;
    try (repeat split; left; repeat split; try assumption; count_all);
    (destruct (canvas2d env); run;
     [ change (DrawFrame fr :: map DrawFrame frs)
         with (map DrawFrame (fr :: frs));
       repeat split; left; repeat split; try assumption; count_all
     | repeat split; right; split; count_all ]).
Qed.

(* ================================================================= *)
(** ** Stopping and toggling playback *)

(** X8: when [stopAll] returns, playback is flagged off, both sources the
    refs point to are no longer playing, the context that was in use is
    closed and forgotten, and every mounted video is paused and rewound to
    0.  The refs to the two sources are kept as they were. *)
Theorem stopAll_halts_playback :
  forall (env : Env) (s s0 : Player.State),
    Player.stopAll env s = Returns tt s0 ->
    Player.isPlaying s0 = false
    /\ audioContextRef (Player.refs s0) = None
    /\ narrationSourceRef (Player.refs s0) = narrationSourceRef (Player.refs s)
    /\ bgmSourceRef (Player.refs s0) = bgmSourceRef (Player.refs s)
    /\ Player.videoRefs s0
       = map (option_map (fun _ => mkVideo true 0)) (Player.videoRefs s)
    /\ notPlaying (Player.world s0) (narrationSourceRef (Player.refs s))
    /\ notPlaying (Player.world s0) (bgmSourceRef (Player.refs s))
    /\ (forall c, audioContextRef (Player.refs s) = Some c ->
          (c < List.length (contexts (Player.world s)))%nat ->
          nth_error (contexts (Player.world s0)) c = Some Closed).
Proof.
  intros env s s0 Hs.
  revert Hs.
  destruct s as [a b c d e f g h vs [ac n bg] [nd cx lg]].
  unfold Player.stopAll, Player.stopIfPresent, Player.pauseAllVideos,
    Player.setIsPlaying, stopNode; run.
  assert (Hctx : forall c0 (l : list ContextState),
            (c0 < List.length l)%nat ->
            nth_error (update c0 (fun _ => Closed) l) c0 = Some Closed).
  { intros c0 l Hc. rewrite nth_error_update_same.
    destruct (nth_error l c0) eqn:E; [reflexivity|].
    apply nth_error_None in E. lia. }
  destruct n as [n|]; run.
  - destruct (nth_error nd n) as [x|] eqn:En; [|discriminate].
    destruct (node_stop env x) as [x'|] eqn:Ex; [|discriminate]. run.
    pose proof (node_stop_not_playing env x x' Ex) as Hx'.
    destruct bg as [bg|]; run.
    + destruct (nth_error (update n (fun _ => x') nd) bg) as [y|] eqn:Eb;
        [|discriminate].
      destruct (node_stop env y) as [y'|] eqn:Ey; [|discriminate]. run.
      pose proof (node_stop_not_playing env y y' Ey) as Hy'.
      assert (Hn : notPlaying
                (mkWorld (update bg (fun _ => y') (update n (fun _ => x') nd))
                         cx lg) (Some n)).
      { unfold notPlaying, refStatus; cbn.
        destruct (Nat.eq_dec bg n) as [->|Hne].
        - rewrite nth_error_update_same, Eb. cbn. congruence.
        - rewrite nth_error_update_other by assumption.
          rewrite nth_error_update_same, En. cbn. congruence. }
      assert (Hb : notPlaying
                (mkWorld (update bg (fun _ => y') (update n (fun _ => x') nd))
                         cx lg) (Some bg)).
      { unfold notPlaying, refStatus; cbn.
        rewrite nth_error_update_same, Eb. cbn. congruence. }
      destruct ac; run; intros [= <-]; cbn;
        repeat split; auto; try discriminate;
        try (intros c0 [= <-] Hc; now apply Hctx).
    + assert (Hn : notPlaying (mkWorld (update n (fun _ => x') nd) cx lg)
                              (Some n)).
      { unfold notPlaying, refStatus; cbn.
        rewrite nth_error_update_same, En. cbn. congruence. }
      destruct ac; run; intros [= <-]; cbn;
        repeat split; auto; try discriminate;
        try (intros c0 [= <-] Hc; now apply Hctx).
  - destruct bg as [bg|]; run.
    + destruct (nth_error nd bg) as [y|] eqn:Eb; [|discriminate].
      destruct (node_stop env y) as [y'|] eqn:Ey; [|discriminate]. run.
      pose proof (node_stop_not_playing env y y' Ey) as Hy'.
      assert (Hb : notPlaying (mkWorld (update bg (fun _ => y') nd) cx lg)
                              (Some bg)).
      { unfold notPlaying, refStatus; cbn.
        rewrite nth_error_update_same, Eb. cbn. congruence. }
      destruct ac; run; intros [= <-]; cbn;
        repeat split; auto; try discriminate;
        try (intros c0 [= <-] Hc; now apply Hctx).
    + destruct ac; run; intros [= <-]; cbn;
        repeat split; auto; try discriminate;
        try (intros c0 [= <-] Hc; now apply Hctx).
Qed.

Lemma stopAll_halts_playback_witness :
  let s := stateOf (bind (Player.loadBgm currentEngine)
                         (fun _ => Player.playAll_begin currentEngine)
                         (Player.initial twoScenes)) in
  let s0 := stateOf (Player.stopAll currentEngine s) in
  Player.isPlaying s0 = false
  /\ audioContextRef (Player.refs s0) = None
  /\ narrationSourceRef (Player.refs s0) = narrationSourceRef (Player.refs s)
  /\ bgmSourceRef (Player.refs s0) = bgmSourceRef (Player.refs s)
  /\ Player.videoRefs s0
     = map (option_map (fun _ => mkVideo true 0)) (Player.videoRefs s)
  /\ notPlaying (Player.world s0) (narrationSourceRef (Player.refs s))
  /\ notPlaying (Player.world s0) (bgmSourceRef (Player.refs s))
  /\ (forall c, audioContextRef (Player.refs s) = Some c ->
        (c < List.length (contexts (Player.world s)))%nat ->
        nth_error (contexts (Player.world s0)) c = Some Closed).
Proof.
  intros s s0.
  apply (stopAll_halts_playback currentEngine s s0).
  vm_compute. reflexivity.
Defined.

(** X9: [stopAudio] of part_000 returns from every state and in every
    browser; afterwards both source refs are cleared and the sources they
    pointed to are not playing; it touches neither the playing flag nor the
    video, and calling it again changes nothing. *)
Theorem stopAudio_total_and_idempotent :
  forall (env : Env) (t : Part000.State),
    exists t',
      Part000.stopAudio env t = Returns tt t'
      /\ narrationSourceRef (Part000.refs t') = None
      /\ bgmSourceRef (Part000.refs t') = None
      /\ audioContextRef (Part000.refs t') = audioContextRef (Part000.refs t)
      /\ notPlaying (Part000.world t') (narrationSourceRef (Part000.refs t))
      /\ notPlaying (Part000.world t') (bgmSourceRef (Part000.refs t))
      /\ Part000.isPlaying t' = Part000.isPlaying t
      /\ Part000.videoRef t' = Part000.videoRef t
      /\ contexts (Part000.world t') = contexts (Part000.world t)
      /\ Part000.stopAudio env t' = Returns tt t'.
Proof.
  intros env t.
  destruct (stopAudio_returns env t) as (nd & lg & E & Hn & Hb & _).
  cbn zeta in E, Hn, Hb.
  eexists. split; [exact E|].
  pose proof (stopAudio_idempotent env t _ E) as Hidem.
  destruct t as [a b c d e f g h i j [cx n bg] w]. cbn in *.
  repeat split; assumption.
Qed.

(** Starting playback in part_000 from a paused state with a narration
    buffer: the flag is set and a fresh narration source is playing. *)
Lemma togglePlay_starts (env : Env) (q : Part000.Props) (buf : AudioBuffer)
    (t : Part000.State) :
  Part000.audioBuffer q = Some buf ->
  Part000.isPlaying t = false ->
  exists t1,
    Part000.togglePlay env q t = Returns tt t1
    /\ Part000.isPlaying t1 = true
    /\ narrationSourceRef (Part000.refs t1)
       = Some (List.length (nodes (Part000.world t)))
    /\ refStatus (Part000.world t1) (narrationSourceRef (Part000.refs t1))
       = Some Playing
    /\ (Part000.bgmBuffer t <> None ->
        refStatus (Part000.world t1) (bgmSourceRef (Part000.refs t1))
        = Some Playing)
    /\ Part000.isExporting t1 = Part000.isExporting t.
Proof.
  intros Hbuf Hp. destruct q as [urls ab]. cbn in Hbuf; subst ab.
  destruct t as [a b c d e f g h i j [ac n bg] [nd cx lg]]. cbn in Hp; subst a.
  unfold Part000.togglePlay, Part000.playAudio, Part000.liveContext,
    Part000.playVideo, Part000.setIsPlaying.
  run.
  destruct ac as [c0|]; [destruct (nth_error cx c0) as [[|]|]|]; run;
    destruct i as [bb|]; run; destruct h as [v|]; run;
    (eexists; split; [reflexivity|]; cbn;
     split; [reflexivity|]; split; [reflexivity|];
     split; [|split; [|reflexivity]]);
    try congruence; intros;
    unfold refStatus; cbn;
    rewrite ?update_app_length, <- ?app_assoc; cbn [app];
    rewrite ?update_app_head, ?length_app; cbn [List.length];
    rewrite ?Nat.add_1_r, ?nth_error_app_length, ?nth_error_app_second;
    reflexivity.
Qed.

(** Pausing in part_000: from any playing state, in any browser. *)
Lemma togglePlay_stops (env : Env) (q : Part000.Props) (t : Part000.State) :
  Part000.isPlaying t = true ->
  exists t2,
    Part000.togglePlay env q t = Returns tt t2
    /\ Part000.isPlaying t2 = false
    /\ narrationSourceRef (Part000.refs t2) = None
    /\ bgmSourceRef (Part000.refs t2) = None
    /\ notPlaying (Part000.world t2) (narrationSourceRef (Part000.refs t))
    /\ notPlaying (Part000.world t2) (bgmSourceRef (Part000.refs t))
    /\ match Part000.videoRef t2 with
       | Some e => paused e = true
       | None => True
       end
    /\ Part000.currentVideoIndex t2 = Part000.currentVideoIndex t.
Proof.
  intro Hp. destruct t as [a b c d e f g h i j rf w]. cbn in Hp; subst a.
  unfold Part000.togglePlay, Part000.setIsPlaying, Part000.pauseVideo.
  run.
  match goal with
  | |- context [Part000.stopAudio ?en ?st] =>
      destruct (stopAudio_returns en st) as (nd' & lg' & E & P1 & P2 & _)
  end.
  normalise. rewrite E. clear E.
  destruct h as [v|]; run;
    (eexists; split; [reflexivity|]; cbn; repeat split; assumption).
Qed.

(** Pausing in part_000 while the narration source is playing: the source
    is stopped, in any browser. *)
Lemma togglePlay_stops_source (env : Env) (q : Part000.Props)
    (t : Part000.State) (id : nat) :
  Part000.isPlaying t = true ->
  narrationSourceRef (Part000.refs t) = Some id ->
  refStatus (Part000.world t) (Some id) = Some Playing ->
  exists t2,
    Part000.togglePlay env q t = Returns tt t2
    /\ Part000.isPlaying t2 = false
    /\ narrationSourceRef (Part000.refs t2) = None
    /\ bgmSourceRef (Part000.refs t2) = None
    /\ refStatus (Part000.world t2) (Some id) = Some Stopped
    /\ notPlaying (Part000.world t2) (bgmSourceRef (Part000.refs t))
    /\ match Part000.videoRef t2 with
       | Some e => paused e = true
       | None => True
       end.
Proof.
  intros Hp Hid Hst.
  destruct t as [a b c d e f g h i j [ac n bg] [nd cx lg]].
  cbn in Hp, Hid, Hst; subst a n.
  destruct (nth_error nd id) as [x|] eqn:Ex; [|discriminate].
  cbn in Hst. injection Hst as Hst.
  unfold Part000.togglePlay, Part000.stopAudio, Part000.tryStop, tryIgnore,
    stopNode, Part000.setIsPlaying, Part000.pauseVideo.
  run. rewrite Ex. unfold node_stop. rewrite Hst. run.
  assert (Hsame : nth_error (update id (fun _ => with_status Stopped x) nd) id
                  = Some (with_status Stopped x)).
  { rewrite nth_error_update_same, Ex. reflexivity. }
  change (mkNode (track x) (loop x) (gain x) (destination x) (context x) Stopped)
    with (with_status Stopped x).
  destruct bg as [bg|]; run.
  - destruct (Nat.eq_dec bg id) as [->|Hne].
    + rewrite Hsame. cbn [with_status status].
      destruct (stop_twice_throws env); run;
        destruct h as [v|]; run;
        (eexists; split; [reflexivity|]; cbn;
         unfold notPlaying, refStatus; cbn;
         rewrite ?nth_error_update_same, ?Hsame, ?Ex; cbn;
         repeat split; try reflexivity; try discriminate).
    + rewrite (nth_error_update_other _ nd id bg) by congruence.
      destruct (nth_error nd bg) as [y|] eqn:Ey; run.
      * destruct (status y) eqn:Sy; run;
          try (destruct (stop_twice_throws env); run);
          destruct h as [v|]; run;
          (eexists; split; [reflexivity|]; cbn;
           unfold notPlaying, refStatus; cbn;
           rewrite ?nth_error_update_same, ?Ey;
           rewrite ?(nth_error_update_other _ _ bg id) by congruence;
           rewrite ?(nth_error_update_other _ _ id bg) by congruence;
           rewrite ?nth_error_update_same, ?Hsame, ?Ex, ?Ey; cbn;
           repeat split; try reflexivity; try discriminate; try congruence).
      * destruct h as [v|]; run;
          (eexists; split; [reflexivity|]; cbn;
           unfold notPlaying, refStatus; cbn;
           rewrite ?(nth_error_update_other _ _ id bg) by congruence;
           rewrite ?Hsame, ?Ey; cbn;
           repeat split; try reflexivity; try discriminate).
  - destruct h as [v|]; run;
      (eexists; split; [reflexivity|]; cbn;
       unfold notPlaying, refStatus; cbn; rewrite ?Hsame; cbn;
       repeat split; try reflexivity; try discriminate).
Qed.

(** The [ended] event of the stopped narration source, once the refs are
    cleared: the handler resets the index and finds no background source
    to stop. *)
Lemma endedAfterStop_resets (env : Env) (q : Part000.Props)
    (t : Part000.State) (id : nat) :
  refStatus (Part000.world t) (Some id) = Some Stopped ->
  bgmSourceRef (Part000.refs t) = None ->
  exists t3,
    Part000.endedAfterStop env q id t = Returns tt t3
    /\ Part000.isPlaying t3 = false
    /\ Part000.currentVideoIndex t3 = 0
    /\ Part000.refs t3 = Part000.refs t
    /\ nodes (Part000.world t3) = nodes (Part000.world t)
    /\ match Part000.videoRef t3 with
       | Some e => paused e = true
       | None => True
       end.
Proof.
  intros Hst Hbg.
  destruct t as [a b c d e f g h i j [ac n bg] [nd cx lg]].
  cbn in Hst, Hbg; subst bg.
  destruct (nth_error nd id) as [x|] eqn:Ex; [|discriminate].
  cbn in Hst. injection Hst as Hst.
  unfold Part000.endedAfterStop, Part000.narrSource_onended, Part000.tryStop,
    Part000.setIsPlaying, Part000.pauseVideo, Part000.setCurrentVideoIndex,
    Part000.playEffect.
  run. rewrite Ex. cbn [option_map]. rewrite Hst. run.
  destruct h as [v|]; run; destruct (b =? 0) eqn:Eb; run;
    try apply Z.eqb_eq in Eb;
    (eexists; split; [reflexivity|]; cbn; repeat split; auto);
    destruct (Part000.mountedVideo q 0) as [m|] eqn:Em; auto;
    unfold Part000.mountedVideo in Em; cbn in Em;
    destruct (Part000.videoUrls q) as [|u us]; cbn in Em; try discriminate;
    destruct (String.eqb u ""); cbn in Em; try discriminate;
    now injection Em as <-.
Qed.

(** X10: in part_000, from a paused state with a narration buffer
    [togglePlay] sets the playing flag and starts a fresh narration source
    (and the background source when its buffer is loaded).  From any later
    state in which playback is on and that source still plays, the next
    [togglePlay], in any browser, clears the flag and both refs, stops the
    narration source, leaves the background source not playing and pauses
    the video.  The [ended] event the engine then dispatches for the stopped
    narration source runs its [onended] handler: the flag stays cleared,
    the refs stay null, no source changes, the video stays paused, and the
    clip index is set back to 0: pausing does not keep the position. *)
Theorem togglePlay_play_then_pause :
  forall (env : Env) (q : Part000.Props) (buf : AudioBuffer)
         (t : Part000.State),
    Part000.audioBuffer q = Some buf ->
    Part000.isPlaying t = false ->
    exists t1 id,
      Part000.togglePlay env q t = Returns tt t1
      /\ Part000.isPlaying t1 = true
      /\ narrationSourceRef (Part000.refs t1) = Some id
      /\ refStatus (Part000.world t1) (Some id) = Some Playing
      /\ (Part000.bgmBuffer t <> None ->
          refStatus (Part000.world t1) (bgmSourceRef (Part000.refs t1))
          = Some Playing)
      /\ forall t1',
           Part000.isPlaying t1' = true ->
           narrationSourceRef (Part000.refs t1') = Some id ->
           refStatus (Part000.world t1') (Some id) = Some Playing ->
           exists t2 t3,
             Part000.togglePlay env q t1' = Returns tt t2
             /\ Part000.isPlaying t2 = false
             /\ narrationSourceRef (Part000.refs t2) = None
             /\ bgmSourceRef (Part000.refs t2) = None
             /\ refStatus (Part000.world t2) (Some id) = Some Stopped
             /\ notPlaying (Part000.world t2) (bgmSourceRef (Part000.refs t1'))
             /\ match Part000.videoRef t2 with
                | Some e => paused e = true
                | None => True
                end
             /\ Part000.endedAfterStop env q id t2 = Returns tt t3
             /\ Part000.isPlaying t3 = false
             /\ Part000.currentVideoIndex t3 = 0
             /\ Part000.refs t3 = Part000.refs t2
             /\ nodes (Part000.world t3) = nodes (Part000.world t2)
             /\ match Part000.videoRef t3 with
                | Some e => paused e = true
                | None => True
                end.
Proof.
  intros env q buf t Hbuf Hp.
  destruct (togglePlay_starts env q buf t Hbuf Hp)
    as (t1 & E1 & Hp1 & Hid & Hn1 & Hb1 & _).
  exists t1, (List.length (nodes (Part000.world t))).
  split; [exact E1|]. split; [exact Hp1|]. split; [exact Hid|].
  split; [now rewrite <- Hid|]. split; [exact Hb1|].
  intros t1' Hp' Hid' Hst'.
  destruct (togglePlay_stops_source env q t1' _ Hp' Hid' Hst')
    as (t2 & E2 & Hp2 & Hr1 & Hr2 & Hs1 & Hs2 & Hv).
  destruct (endedAfterStop_resets env q t2 _ Hs1 Hr2)
    as (t3 & E3 & Hp3 & Hi3 & Hr3 & Hn3 & Hv3).
  exists t2, t3. repeat split; assumption.
Qed.

(** PLAY, the first clip ends (index 1), PAUSE, then the [ended] event:
    index 0. *)
Lemma togglePlay_play_then_pause_witness :
  let t := stateOf (Part000.loadBgm strictEngine (Part000.initial twoClips)) in
  exists t1 t1' t2 t3,
    Part000.togglePlay strictEngine twoClips t = Returns tt t1
    /\ Part000.isPlaying t1 = true
    /\ Part000.handleVideoEnded twoClips t1 = Returns tt t1'
    /\ Part000.currentVideoIndex t1' = 1
    /\ Part000.togglePlay strictEngine twoClips t1' = Returns tt t2
    /\ Part000.isPlaying t2 = false
    /\ Part000.currentVideoIndex t2 = 1
    /\ Part000.endedAfterStop strictEngine twoClips 0 t2 = Returns tt t3
    /\ Part000.isPlaying t3 = false
    /\ Part000.currentVideoIndex t3 = 0.
Proof.
  intro t.
  destruct (togglePlay_play_then_pause strictEngine twoClips (mkBuffer 10) t
              eq_refl eq_refl)
    as (t1 & id & E1 & Hp1 & Hid & Hst & _ & Hpause).
  assert (Et1 : t1 = stateOf (Part000.togglePlay strictEngine twoClips t))
    by now rewrite E1.
  assert (Eid : id = 0%nat).
  { rewrite Et1 in Hid. vm_compute in Hid. now injection Hid as <-. }
  subst id.
  set (t1' := stateOf (Part000.handleVideoEnded twoClips t1)).
  destruct (Hpause t1') as (t2 & t3 & E2 & Hp2 & _ & _ & _ & _ & _ & E3 & Hp3 & Hi3 & _).
  { subst t1'. rewrite Et1. vm_compute. reflexivity. }
  { subst t1'. rewrite Et1. vm_compute. reflexivity. }
  { subst t1'. rewrite Et1. vm_compute. reflexivity. }
  exists t1, t1', t2, t3.
  split; [exact E1|]. split; [exact Hp1|].
  split; [subst t1'; rewrite Et1; vm_compute; reflexivity|].
  split; [subst t1'; rewrite Et1; vm_compute; reflexivity|].
  split; [exact E2|]. split; [exact Hp2|].
  split.
  { assert (Et2 : t2 = stateOf (Part000.togglePlay strictEngine twoClips t1'))
      by now rewrite E2.
    rewrite Et2. subst t1'. rewrite Et1. vm_compute. reflexivity. }
  split; [exact E3|]. split; [exact Hp3 | exact Hi3].
Defined.

(* ================================================================= *)
(** ** Missing inputs *)

(** X11: what the play handlers do with missing inputs.  In Player.tsx
    [playAll] without a narration buffer changes nothing; with a buffer but
    no scene it starts the narration source and returns at once with the
    playing flag off while that source keeps playing.  In part_000
    [togglePlay] without a narration buffer creates no audio source and
    starts no context, yet sets the playing flag. *)
Theorem play_with_missing_inputs :
  forall (env : Env) (during : nat -> M Player.State unit)
         (buf : AudioBuffer) (s s0 : Player.State)
         (urls000 : list string) (t : Part000.State),
    Player.stopAll env s = Returns tt s0 ->
    Part000.isPlaying t = false ->
    (forall urls,
       Player.playAll env (Player.mkProps urls None) during s = Returns tt s)
    /\ (exists s',
          Player.playAll env (Player.mkProps [] (Some buf)) during s
          = Returns tt s'
          /\ Player.isPlaying s' = false
          /\ refStatus (Player.world s') (narrationSourceRef (Player.refs s'))
             = Some Playing)
    /\ (exists t',
          Part000.togglePlay env (Part000.mkProps urls000 None) t
          = Returns tt t'
          /\ Part000.isPlaying t' = true
          /\ nodes (Part000.world t') = nodes (Part000.world t)
          /\ contexts (Part000.world t') = contexts (Part000.world t)
          /\ Part000.refs t' = Part000.refs t).
Proof.
  intros env during buf s s0 urls000 t Hs Hp.
  split; [reflexivity|]. split.
  - destruct (playAll_begin_spec env s s0 Hs)
      as (s1 & E1 & _ & _ & _ & _ & _ & Hn1 & _ & Hnd1 & _).
    unfold Player.playAll. cbn [Player.audioBuffer Player.videoUrls].
    unfold bind at 1. rewrite E1.
    unfold Player.playAll_scenes, bind, ret, Player.setIsPlaying, modify.
    eexists. split; [reflexivity|].
    destruct s1 as [a b c d e f g h vs rf w]. cbn in *.
    split; [reflexivity|].
    unfold refStatus. rewrite Hn1, Hnd1, nth_error_app_length. reflexivity.
  - destruct t as [a b c d e f g h i j rf [nd cx lg]]. cbn in Hp; subst a.
    unfold Part000.togglePlay, Part000.playAudio, Part000.playVideo,
      Part000.setIsPlaying.
    run. destruct h as [v|]; run;
      (eexists; split; [reflexivity|]; cbn; repeat split).
Qed.

Lemma play_with_missing_inputs_witness :
  let s := Player.initial twoScenes in
  let t := Part000.initial twoClips in
  (forall urls,
     Player.playAll currentEngine (Player.mkProps urls None)
                    Player.undisturbed s = Returns tt s)
  /\ (exists s',
        Player.playAll currentEngine (Player.mkProps [] (Some (mkBuffer 10)))
                       Player.undisturbed s = Returns tt s'
        /\ Player.isPlaying s' = false
        /\ refStatus (Player.world s') (narrationSourceRef (Player.refs s'))
           = Some Playing)
  /\ (exists t',
        Part000.togglePlay currentEngine (Part000.mkProps ["blob:a"]%string None) t
        = Returns tt t'
        /\ Part000.isPlaying t' = true
        /\ nodes (Part000.world t') = nodes (Part000.world t)
        /\ contexts (Part000.world t') = contexts (Part000.world t)
        /\ Part000.refs t' = Part000.refs t).
Proof.
  intros s t.
  apply (play_with_missing_inputs currentEngine Player.undisturbed (mkBuffer 10)
           s (stateOf (Player.stopAll currentEngine s)) ["blob:a"]%string t).
  - vm_compute. reflexivity.
  - reflexivity.
Defined.

(* ================================================================= *)
(** ** The clip index of part_000 *)

(** X12: in part_000 the clip index always stays a valid index of
    [videoUrls]: the end of a clip moves it inside [0, n), with a single clip
    it stays where it is and the clip is played again, and the end of the
    narration puts it at 0. *)
Theorem clip_index_stays_valid :
  forall (env : Env) (q : Part000.Props) (t : Part000.State),
    let n := Z.of_nat (List.length (Part000.videoUrls q)) in
    0 <= Part000.currentVideoIndex t < n ->
    (exists t',
       Part000.handleVideoEnded q t = Returns tt t'
       /\ 0 <= Part000.currentVideoIndex t' < n
       /\ (n = 1 ->
           Part000.currentVideoIndex t' = Part000.currentVideoIndex t
           /\ match Part000.videoRef t, Part000.videoRef t' with
              | Some _, Some e => paused e = false
              | Some _, None => False
              | None, _ => True
              end))
    /\ (forall t', Part000.narrSource_onended env q t = Returns tt t' ->
          0 <= Part000.currentVideoIndex t' < n).
Proof.
  intros env q t n Hi. subst n.
  set (n := Z.of_nat (List.length (Part000.videoUrls q))) in *. split.
  - destruct (Z_lt_dec 1 n) as [Hn|Hn].
    + destruct (handleVideoEnded_next q t Hn Hi) as (t' & E & Ei & _).
      exists t'. split; [exact E|]. split; [|lia].
      rewrite Ei. fold n.
      destruct (Z.ltb_spec (Part000.currentVideoIndex t + 1) n); lia.
    + assert (n = 1) by lia.
      unfold Part000.handleVideoEnded. fold n.
      destruct (Z.ltb_spec 1 n); [lia|].
      destruct t as [a b c d e f g h i j rf [nd cx lg]].
      unfold Part000.playVideo. run.
      destruct h as [v|]; run;
        (eexists; split; [reflexivity|]; cbn; repeat split; lia).
  - intros t'. clearbody n.
    destruct t as [a b c d e f g h i j [ac nr bg] [nd cx lg]].
    unfold Part000.narrSource_onended, Part000.setIsPlaying, Part000.pauseVideo,
      Part000.setCurrentVideoIndex, Part000.playEffect.
    cbn in Hi.
    destruct h as [v|]; run;
      (destruct bg as [bg|];
       [ match goal with
         | |- context [Part000.tryStop ?en (Some ?r) ?st] =>
             destruct (tryStop_returns en r st) as (nd' & lg' & E & _);
             normalise; rewrite E; clear E
         end
       | unfold Part000.tryStop ]);
      run; destruct (b =? 0); run; intros [= <-]; cbn; lia.
Qed.

Lemma clip_index_stays_valid_witness :
  let t := Part000.initial twoClips in
  (exists t',
     Part000.handleVideoEnded twoClips t = Returns tt t'
     /\ 0 <= Part000.currentVideoIndex t' < 2
     /\ (2 = 1 ->
         Part000.currentVideoIndex t' = Part000.currentVideoIndex t
         /\ match Part000.videoRef t, Part000.videoRef t' with
            | Some _, Some e => paused e = false
            | Some _, None => False
            | None, _ => True
            end))
  /\ (forall t', Part000.narrSource_onended currentEngine twoClips t
                 = Returns tt t' ->
        0 <= Part000.currentVideoIndex t' < 2).
Proof.
  intro t. apply (clip_index_stays_valid currentEngine twoClips t). cbn. lia.
Defined.

(* ================================================================= *)
(** ** The step indicator *)

(** X13: whatever the state of the page, [getStepStatus] yields four steps
    of which at most one is active, none is both active and completed, and
    the completed ones are exactly those before a later completed or active
    step (a prefix); in IDLE and ERROR no step is active or completed, in
    COMPLETED all four are completed and none is active. *)
Theorem step_status_shape :
  forall st : App.AppState,
    let l := App.getStepStatus st in
    List.length l = 4%nat
    /\ (forall i j a b,
          nth_error l i = Some a -> nth_error l j = Some b ->
          App.isActive a = true -> App.isActive b = true -> i = j)
    /\ (forall i a, nth_error l i = Some a ->
          App.isActive a = true -> App.isCompleted a = false)
    /\ (forall i j a b,
          (i < j)%nat -> nth_error l i = Some a -> nth_error l j = Some b ->
          App.isCompleted b = true \/ App.isActive b = true ->
          App.isCompleted a = true)
    /\ (st = App.IDLE \/ st = App.ERROR ->
        Forall (fun s => App.isActive s = false /\ App.isCompleted s = false) l)
    /\ (st = App.COMPLETED ->
        Forall (fun s => App.isActive s = false /\ App.isCompleted s = true) l).
Proof.
  intros st l.
  assert (Hcases :
    forall i a, nth_error l i = Some a ->
      (i < 4)%nat
      /\ App.isActive a = (Z.of_nat i =? App.currentStepIndex st)
      /\ App.isCompleted a
         = ((Z.of_nat i <? App.currentStepIndex st)
            || App.AppState_eqb st App.COMPLETED)).
  { intros i a H. subst l. unfold App.getStepStatus, mapi in H. cbn in H.
    destruct i as [|[|[|[|i]]]]; cbn in H; try discriminate;
      try (injection H as <-; cbn; split; [lia | split; reflexivity]).
    destruct i; discriminate. }
  split; [reflexivity|].
  split.
  { intros i j a b Ha Hb Aa Ab.
    destruct (Hcases _ _ Ha) as (_ & Ea & _).
    destruct (Hcases _ _ Hb) as (_ & Eb & _).
    rewrite Ea in Aa. rewrite Eb in Ab. lia. }
  split.
  { intros i a Ha Aa. destruct (Hcases _ _ Ha) as (Hi & Ea & Ec).
    rewrite Ea in Aa. rewrite Ec.
    apply Z.eqb_eq in Aa.
    replace (Z.of_nat i <? App.currentStepIndex st) with false
      by (symmetry; apply Z.ltb_ge; lia).
    destruct st; cbn in *; try reflexivity; lia. }
  split.
  { intros i j a b Hij Ha Hb Hc.
    destruct (Hcases _ _ Ha) as (_ & _ & Ec).
    destruct (Hcases _ _ Hb) as (_ & Eb & Ecb).
    rewrite Ec. rewrite Eb, Ecb in Hc.
    destruct (App.AppState_eqb st App.COMPLETED);
      [apply orb_true_r | rewrite orb_false_r in *].
    apply Z.ltb_lt. destruct Hc as [Hc|Hc];
      [apply Z.ltb_lt in Hc | apply Z.eqb_eq in Hc]; lia. }
  split.
  { intros [-> | ->]; subst l; cbn; repeat constructor. }
  { intros ->; subst l; cbn; repeat constructor. }
Qed.

(* ================================================================= *)
(** ** Decoding the narration *)

Lemma byteValue_range (b : Byte.byte) : 0 <= Gemini.byteValue b <= 255.
Proof.
  unfold Gemini.byteValue. pose proof (Byte.to_N_bounded b). lia.
Qed.

Lemma byteValue_inj (a b : Byte.byte) :
  Gemini.byteValue a = Gemini.byteValue b -> a = b.
Proof.
  unfold Gemini.byteValue. intro H. apply N2Z.inj in H.
  pose proof (Byte.of_to_N a) as Ha. rewrite H in Ha.
  rewrite Byte.of_to_N in Ha. now injection Ha.
Qed.

Lemma int16_range (le : bool) (b0 b1 : Byte.byte) :
  -32768 <= Gemini.int16 le b0 b1 <= 32767.
Proof.
  unfold Gemini.int16.
  pose proof (byteValue_range b0). pose proof (byteValue_range b1).
  destruct le;
    match goal with |- context [?u <? 32768] => destruct (Z.ltb_spec u 32768) end;
    lia.
Qed.

Lemma int16_inj (le : bool) (a0 a1 b0 b1 : Byte.byte) :
  Gemini.int16 le a0 a1 = Gemini.int16 le b0 b1 -> a0 = b0 /\ a1 = b1.
Proof.
  unfold Gemini.int16.
  pose proof (byteValue_range a0). pose proof (byteValue_range a1).
  pose proof (byteValue_range b0). pose proof (byteValue_range b1).
  intro E.
  assert (Gemini.byteValue a0 = Gemini.byteValue b0
          /\ Gemini.byteValue a1 = Gemini.byteValue b1) as [E0 E1].
  { destruct le;
      repeat match type of E with
             | context [?u <? 32768] => destruct (Z.ltb_spec u 32768)
             end; lia. }
  split; apply byteValue_inj; assumption.
Qed.

Lemma list_pair_ind {A} (P : list A -> Prop) :
  P [] -> (forall a, P [a]) -> (forall a b r, P r -> P (a :: b :: r)) ->
  forall l, P l.
Proof.
  intros H0 H1 H2. fix IH 1. intros [|a [|b r]].
  - exact H0.
  - apply H1.
  - apply H2, IH.
Qed.

Lemma int16Elements_range (le : bool) (data : list Byte.byte) (v : Z) :
  In v (Gemini.int16Elements le data) -> -32768 <= v <= 32767.
Proof.
  induction data as [|a|a b r IH] using list_pair_ind; cbn; try contradiction.
  intros [<- | Hv]; [apply int16_range | exact (IH Hv)].
Qed.

Lemma int16Elements_length (le : bool) (data : list Byte.byte) :
  Nat.even (List.length data) = true ->
  (2 * List.length (Gemini.int16Elements le data) = List.length data)%nat.
Proof.
  induction data as [|a|a b r IH] using list_pair_ind; intro H.
  - reflexivity.
  - discriminate.
  - cbn [Gemini.int16Elements List.length].
    change (Nat.even (S (S (List.length r)))) with (Nat.even (List.length r)) in H.
    specialize (IH H). lia.
Qed.

Lemma store_length (i : nat) (v : Q) (l : list Q) :
  List.length (Gemini.store i v l) = List.length l.
Proof.
  revert i; induction l as [|x r IH]; intros [|i]; cbn; auto.
Qed.

Lemma store_app (l : list Q) (x v : Q) (r : list Q) :
  Gemini.store (List.length l) v (l ++ x :: r) = l ++ v :: r.
Proof.
  induction l as [|y l IH]; cbn; [reflexivity | now rewrite IH].
Qed.

Lemma fillChannel_spec (xs done todo : list Z) (zeros : list Q) :
  xs = done ++ todo -> List.length zeros = List.length todo ->
  Gemini.fillChannel xs (List.length done) (List.length todo)
                     (map sample done ++ zeros)
  = map sample xs.
Proof.
  revert done zeros. induction todo as [|t todo IH]; intros done zeros -> Hz.
  - destruct zeros; [|discriminate]. cbn. now rewrite !app_nil_r.
  - destruct zeros as [|z zeros]; [discriminate|]. cbn [List.length Gemini.fillChannel].
    replace (List.length done) with (List.length (map sample done)) at 2
      by apply length_map.
    rewrite store_app.
    rewrite nth_middle.
    specialize (IH (done ++ [t]) zeros).
    rewrite length_app, Nat.add_1_r in IH. cbn [List.length] in IH.
    rewrite map_app, <- !app_assoc in IH. cbn [map app] in IH.
    fold (sample t).
    apply IH; [reflexivity | now injection Hz].
Qed.

Lemma fillChannel_all (xs : list Z) :
  Gemini.fillChannel xs 0 (List.length xs) (repeat 0%Q (List.length xs))
  = map sample xs.
Proof.
  apply (fillChannel_spec xs [] xs); [reflexivity | apply repeat_length].
Qed.

Lemma sample_range (v : Z) :
  -32768 <= v <= 32767 -> (-1 <= sample v)%Q /\ (sample v < 1)%Q.
Proof.
  intros Hv. unfold sample. split.
  - apply Qle_shift_div_l; [reflexivity|].
    unfold Qle; cbn. lia.
  - apply Qlt_shift_div_r; [reflexivity|].
    unfold Qlt; cbn. lia.
Qed.

Lemma decodePCM_ok (svc : Gemini.Service) (data : list Byte.byte) :
  data <> [] -> Nat.even (List.length data) = true ->
  Gemini.decodePCM svc data
  = Gemini.Ok (Gemini.mkPcm 24000
       (map sample (Gemini.int16Elements (Gemini.littleEndian svc) data))).
Proof.
  intros Hne Hev. unfold Gemini.decodePCM, Gemini.newInt16Array.
  rewrite Hev. unfold Gemini.createBuffer.
  pose proof (int16Elements_length (Gemini.littleEndian svc) data Hev) as Hl.
  destruct (Nat.eqb_spec
              (List.length (Gemini.int16Elements (Gemini.littleEndian svc) data)) 0)
    as [E|E].
  - rewrite E in Hl. destruct data; [contradiction | discriminate].
  - cbn [Gemini.sampleRate Gemini.channelData]. now rewrite fillChannel_all.
Qed.

Lemma decodePCM_err (svc : Gemini.Service) (data : list Byte.byte) :
  data = [] \/ Nat.even (List.length data) = false ->
  exists e, Gemini.decodePCM svc data = Gemini.Err e.
Proof.
  intros [-> | H]; unfold Gemini.decodePCM, Gemini.newInt16Array.
  - cbn. eexists; reflexivity.
  - rewrite H. eexists; reflexivity.
Qed.

(** X14: [decodePCM] rejects an empty byte array (no buffer of zero frames)
    and one of odd length (no 16-bit view), and nothing else.  Otherwise the
    buffer has the rate 24000 and one frame per two bytes, every sample is
    the 16-bit value over 32768 and lies in [-1, 1), and the duration is the
    byte count over 48000 seconds, above zero. *)
Theorem decodePCM_shape :
  forall (svc : Gemini.Service) (data : list Byte.byte),
    match Gemini.decodePCM svc data with
    | Gemini.Ok b =>
        data <> [] /\ Nat.even (List.length data) = true
        /\ Gemini.sampleRate b = 24000
        /\ (2 * List.length (Gemini.channelData b) = List.length data)%nat
        /\ Forall (fun x => (-1 <= x)%Q /\ (x < 1)%Q) (Gemini.channelData b)
        /\ (duration (Gemini.asAudioBuffer b)
            == inject_Z (Z.of_nat (List.length data)) / 48000)%Q
        /\ (0 < duration (Gemini.asAudioBuffer b))%Q
    | Gemini.Err _ => data = [] \/ Nat.even (List.length data) = false
    end.
Proof.
  intros svc data.
  destruct data as [|b0 r] eqn:Ed.
  { cbn. now left. }
  rewrite <- Ed.
  destruct (Nat.even (List.length data)) eqn:Hev.
  2:{ destruct (decodePCM_err svc data (or_intror Hev)) as [e ->]. now right. }
  assert (Hne : data <> []) by (rewrite Ed; discriminate).
  rewrite (decodePCM_ok svc data Hne Hev).
  pose proof (int16Elements_length (Gemini.littleEndian svc) data Hev) as Hl.
  cbn [Gemini.sampleRate Gemini.channelData].
  assert (Hpos : (0 < List.length data)%nat)
    by (rewrite Ed; cbn; lia).
  assert (Hdur : (duration (Gemini.asAudioBuffer (Gemini.mkPcm 24000
             (map sample (Gemini.int16Elements (Gemini.littleEndian svc) data))))
           == inject_Z (Z.of_nat (List.length data)) / 48000)%Q).
  { unfold Gemini.asAudioBuffer. cbn [duration Gemini.sampleRate Gemini.channelData].
    rewrite length_map. rewrite <- Hl.
    rewrite Nat2Z.inj_mul, inject_Z_mult.
    change (inject_Z (Z.of_nat 2)) with 2%Q.
    change (inject_Z 24000) with 24000%Q.
    field. }
  split; [exact Hne|]. split; [reflexivity|]. split; [reflexivity|].
  split; [now rewrite length_map|].
  split.
  { apply Forall_forall. intros x Hx. apply in_map_iff in Hx.
    destruct Hx as (v & <- & Hv). apply sample_range.
    exact (int16Elements_range _ _ _ Hv). }
  split; [exact Hdur|].
  rewrite Hdur. apply Qlt_shift_div_l; [reflexivity|].
  rewrite Qmult_0_l. change 0%Q with (inject_Z 0). rewrite <- Zlt_Qlt. lia.
Qed.

Lemma int16Elements_inj (le : bool) (d1 d2 : list Byte.byte) :
  Nat.even (List.length d1) = true -> Nat.even (List.length d2) = true ->
  Gemini.int16Elements le d1 = Gemini.int16Elements le d2 -> d1 = d2.
Proof.
  revert d2. induction d1 as [|a0|a0 a1 r1 IH] using list_pair_ind;
    intros [|b0 [|b1 r2]] H1 H2 E; try discriminate.
  - reflexivity.
  - cbn [Gemini.int16Elements] in E. injection E as E0 Er.
    apply int16_inj in E0 as [-> ->].
    f_equal. f_equal. apply IH; assumption.
Qed.

Lemma sample_inj (v w : Z) : (sample v == sample w)%Q -> v = w.
Proof.
  unfold sample. intro H.
  assert (H' : (inject_Z v == inject_Z w)%Q).
  { setoid_replace (inject_Z v) with (inject_Z v / 32768 * 32768)%Q by (field).
    rewrite H. field. }
  exact (proj1 (inject_Z_injective v w) H').
Qed.

(** X15: decoding loses nothing: two byte arrays that decode to buffers with
    the same samples are the same array. *)
Theorem decodePCM_lossless :
  forall (svc : Gemini.Service) (d1 d2 : list Byte.byte) (b1 b2 : Gemini.PcmBuffer),
    Gemini.decodePCM svc d1 = Gemini.Ok b1 ->
    Gemini.decodePCM svc d2 = Gemini.Ok b2 ->
    Forall2 Qeq (Gemini.channelData b1) (Gemini.channelData b2) ->
    d1 = d2.
Proof.
  intros svc d1 d2 b1 b2 H1 H2 HF.
  pose proof (decodePCM_shape svc d1) as S1. rewrite H1 in S1.
  pose proof (decodePCM_shape svc d2) as S2. rewrite H2 in S2.
  destruct S1 as (N1 & E1 & _). destruct S2 as (N2 & E2 & _).
  rewrite (decodePCM_ok svc d1 N1 E1) in H1. injection H1 as <-.
  rewrite (decodePCM_ok svc d2 N2 E2) in H2. injection H2 as <-.
  cbn [Gemini.channelData] in HF.
  apply (int16Elements_inj (Gemini.littleEndian svc)); try assumption.
  clear - HF. revert HF.
  generalize (Gemini.int16Elements (Gemini.littleEndian svc) d1) as l1.
  generalize (Gemini.int16Elements (Gemini.littleEndian svc) d2) as l2.
  intros l2 l1. revert l2.
  induction l1 as [|x l1 IH]; intros [|y l2] HF; cbn in HF; inversion HF; subst.
  - reflexivity.
  - f_equal; [now apply sample_inj | now apply IH].
Qed.

Lemma decodePCM_lossless_witness :
  (exists b, Gemini.decodePCM workingService twoFrames = Gemini.Ok b)
  /\ twoFrames = [Byte.x00; Byte.x40; Byte.x00; Byte.xc0].
Proof.
  split; [eexists; reflexivity|].
  eapply (decodePCM_lossless workingService twoFrames
            [Byte.x00; Byte.x40; Byte.x00; Byte.xc0]);
    [reflexivity | reflexivity | repeat constructor].
Defined.

(* ================================================================= *)
(** ** One video, with at most one retry *)

Lemma occurrences_app (p : Gemini.Event -> bool) (a b : Gemini.Trace) :
  occurrences p (a ++ b) = (occurrences p a + occurrences p b)%nat.
Proof.
  unfold occurrences. now rewrite filter_app, length_app.
Qed.

Lemma occurrences_none (p : Gemini.Event -> bool) (evs : Gemini.Trace) :
  Forall (fun e => p e = false) evs -> occurrences p evs = 0%nat.
Proof.
  unfold occurrences. induction 1 as [|e evs He _ IH]; cbn; [reflexivity|].
  now rewrite He.
Qed.

Ltac async :=
  unfold Gemini.andThen, Gemini.catch, Gemini.pure, Gemini.reject,
    Gemini.pending, Gemini.log, Gemini.update, Gemini.await, Gemini.settle,
    Gemini.ofResult in *;
  cbn in *.

Ltac ext_trace :=
  rewrite <- ?app_assoc; cbn [app];
  first [ reflexivity | symmetry; apply app_nil_r ].

(** The key check never rejects; it makes no request to the model or the
    network, nothing at all outside AI Studio, and it opens the key dialog
    exactly once on a retry. *)
Lemma keyCheck_spec (svc : Gemini.Service) (isRetry : bool) (tr : Gemini.Trace) :
  exists evs,
    (Gemini.keyCheck svc isRetry tr = Gemini.Resolved tt (tr ++ evs)
     \/ Gemini.keyCheck svc isRetry tr = Gemini.Pending (tr ++ evs))
    /\ Forall (fun e => isRequest e = false) evs
    /\ (Gemini.aistudio svc = false -> evs = [])
    /\ (Gemini.aistudio svc = true -> isRetry = true ->
        occurrences isOpenSelectKey evs = 1%nat).
Proof.
  unfold Gemini.keyCheck. async.
  destruct (Gemini.aistudio svc) eqn:Ea.
  2:{ exists []. rewrite app_nil_r. repeat split; auto. discriminate. }
  destruct isRetry; cbn.
  - destruct (Gemini.openSelectKey svc (List.length tr)) as [[]|e|];
      eexists; (split; [first [left; ext_trace | right; ext_trace]|]);
      (split; [repeat constructor|]); (split; [discriminate|]); reflexivity.
  - destruct (Gemini.hasSelectedApiKey svc (List.length tr)) as [[|]|e|]; cbn;
      try (eexists; (split; [first [left; ext_trace | right; ext_trace]|]);
           (split; [repeat constructor|]); (split; discriminate)).
    destruct (Gemini.openSelectKey svc _) as [[]|e|];
      eexists; (split; [first [left; ext_trace | right; ext_trace]|]);
      (split; [repeat constructor|]); (split; discriminate).
Qed.

Lemma pollUntilDone_spec (svc : Gemini.Service) (fuel : nat)
    (op : Gemini.Operation) (tr : Gemini.Trace) :
  exists evs,
    Gemini.final (Gemini.pollUntilDone svc fuel op tr) = tr ++ evs
    /\ Forall (fun e => e = Gemini.GetVideosOperation) evs.
Proof.
  revert op tr. induction fuel as [|fuel IH]; intros op tr; cbn.
  - destruct (Gemini.done op); exists []; rewrite app_nil_r; split; auto.
  - destruct (Gemini.done op).
    + exists []; rewrite app_nil_r; split; auto.
    + async. destruct (Gemini.getVideosOperation svc (List.length tr)) as [op'|e|]; cbn.
      * destruct (IH op' (tr ++ [Gemini.GetVideosOperation])) as (evs & E & F).
        exists (Gemini.GetVideosOperation :: evs). rewrite E.
        rewrite <- app_assoc. split; [reflexivity | now constructor].
      * eexists; split; [reflexivity | repeat constructor].
      * eexists; split; [reflexivity | repeat constructor].
Qed.

Lemma polls_quiet (evs : Gemini.Trace) :
  Forall (fun e => e = Gemini.GetVideosOperation) evs ->
  Forall (fun e => isGenerateVideos e = false /\ isKeyDialog e = false) evs.
Proof.
  apply Forall_impl. intros e ->. split; reflexivity.
Qed.

(** One request for a video: the request itself, then polls and at most one
    download; what it resolves to is an object URL. *)
Lemma requestVideo_spec (svc : Gemini.Service) (img prompt : string)
    (tr : Gemini.Trace) :
  exists evs,
    Gemini.final (Gemini.requestVideo svc img prompt tr)
    = tr ++ Gemini.GenerateVideos img prompt :: evs
    /\ Forall (fun e => isGenerateVideos e = false /\ isKeyDialog e = false) evs
    /\ match Gemini.requestVideo svc img prompt tr with
       | Gemini.Resolved url _ => String.prefix "blob:" url = true
       | _ => True
       end.
Proof.
  unfold Gemini.requestVideo. async.
  destruct (Gemini.generateVideos svc (List.length tr)) as [op|e|]; cbn;
    try (exists []; rewrite <- ?app_assoc; split; [reflexivity|];
         split; [constructor | exact I]).
  destruct (pollUntilDone_spec svc (Gemini.patience svc) op
              (tr ++ [Gemini.GenerateVideos img prompt])) as (polls & E & F).
  apply polls_quiet in F.
  destruct (Gemini.pollUntilDone svc (Gemini.patience svc) op
              (tr ++ [Gemini.GenerateVideos img prompt])) as [op' tr1|e tr1|tr1];
    cbn in E; subst tr1; cbn;
    try (exists polls; rewrite <- ?app_assoc; split; [reflexivity|];
         split; [exact F | exact I]).
  destruct (Gemini.uri op') as [videoUri|]; cbn;
    [|exists polls; rewrite <- ?app_assoc; split; [reflexivity|];
      split; [exact F | exact I]].
  destruct (truthy videoUri); cbn;
    [|exists polls; rewrite <- ?app_assoc; split; [reflexivity|];
      split; [exact F | exact I]].
  assert (F' : Forall (fun e => isGenerateVideos e = false /\ isKeyDialog e = false)
                      (polls ++ [Gemini.Fetch videoUri])).
  { apply Forall_app; split; [exact F | repeat constructor]. }
  destruct (Gemini.fetch svc _) as [res|e|]; cbn;
    try (exists (polls ++ [Gemini.Fetch videoUri]); rewrite <- !app_assoc;
         split; [reflexivity|]; split; [exact F' | exact I]).
  destruct (Gemini.ok res); cbn;
    [|exists (polls ++ [Gemini.Fetch videoUri]); rewrite <- !app_assoc;
      split; [reflexivity|]; split; [exact F' | exact I]].
  destruct (Gemini.blob res) as [b|e|]; cbn;
    exists (polls ++ [Gemini.Fetch videoUri]); rewrite <- !app_assoc;
    (split; [reflexivity|]); (split; [exact F'|]); try exact I.
  destruct b; reflexivity.
Qed.

Lemma occurrences_cons (p : Gemini.Event -> bool) (e : Gemini.Event)
    (l : Gemini.Trace) :
  occurrences p (e :: l) = ((if p e then 1 else 0) + occurrences p l)%nat.
Proof.
  unfold occurrences. cbn. destruct (p e); reflexivity.
Qed.

Lemma occurrences_nil (p : Gemini.Event -> bool) : occurrences p [] = 0%nat.
Proof. reflexivity. Qed.

Ltac count_events :=
  intros;
  repeat match goal with
         | H : context [occurrences _ (_ ++ _)] |- _ =>
             rewrite occurrences_app in H
         | H : context [occurrences _ (_ :: _)] |- _ =>
             rewrite occurrences_cons in H
         | H : context [occurrences _ []] |- _ =>
             rewrite occurrences_nil in H
         end;
  repeat (rewrite occurrences_app || rewrite occurrences_cons
          || rewrite occurrences_nil);
  cbn [isGenerateVideos isOpenSelectKey isKeyDialog isConsoleWarn
       isConsoleError isRequest] in *;
  try lia.

Lemma quiet_counts (evs : Gemini.Trace) :
  Forall (fun e => isGenerateVideos e = false /\ isKeyDialog e = false) evs ->
  occurrences isGenerateVideos evs = 0%nat
  /\ occurrences isKeyDialog evs = 0%nat
  /\ occurrences isOpenSelectKey evs = 0%nat.
Proof.
  intro F. repeat split; apply occurrences_none; revert F; apply Forall_impl;
    intros e [H1 H2]; try assumption.
  destruct e; try reflexivity; discriminate.
Qed.

Lemma keyCheck_counts (evs : Gemini.Trace) :
  Forall (fun e => isRequest e = false) evs ->
  occurrences isGenerateVideos evs = 0%nat.
Proof.
  intro F. apply occurrences_none; revert F; apply Forall_impl.
  intros e H. destruct e; try reflexivity; discriminate.
Qed.

(** The second attempt: it never calls [attemptGeneration] again. *)
Lemma retry_spec (svc : Gemini.Service) (img prompt : string)
    (self : bool -> Gemini.Async Gemini.Trace string) (tr : Gemini.Trace) :
  exists evs,
    Gemini.final (Gemini.attemptBody svc img prompt self true tr) = tr ++ evs
    /\ (occurrences isGenerateVideos evs <= 1)%nat
    /\ (Gemini.aistudio svc = true -> occurrences isOpenSelectKey evs = 1%nat)
    /\ match Gemini.attemptBody svc img prompt self true tr with
       | Gemini.Resolved url _ =>
           String.prefix "blob:" url = true
           /\ occurrences isGenerateVideos evs = 1%nat
       | Gemini.Rejected _ _ => occurrences isGenerateVideos evs = 1%nat
       | Gemini.Pending _ => True
       end.
Proof.
  unfold Gemini.attemptBody, Gemini.andThen, Gemini.catch.
  destruct (keyCheck_spec svc true tr) as (evs1 & K & F1 & _ & O1).
  pose proof (keyCheck_counts evs1 F1) as G1.
  destruct K as [K | K]; rewrite K.
  2:{ exists evs1. cbn. split; [reflexivity|]. split; [lia|]. split; auto. }
  destruct (requestVideo_spec svc img prompt (tr ++ evs1)) as (evs2 & E & F2 & B).
  destruct (quiet_counts evs2 F2) as (G2 & _ & O2).
  destruct (Gemini.requestVideo svc img prompt (tr ++ evs1)) as [url t|e t|t];
    cbn in E; subst t; rewrite ?andb_false_r; cbn;
    exists (evs1 ++ Gemini.GenerateVideos img prompt :: evs2);
    rewrite <- app_assoc; (split; [reflexivity|]);
    (split; [count_events|]);
    (split; [intro Ha; specialize (O1 Ha eq_refl); count_events|]);
    try split; try exact B; try exact I; count_events.
Qed.

Lemma retry_independent (svc : Gemini.Service) (img prompt : string)
    (self self' : bool -> Gemini.Async Gemini.Trace string) (tr : Gemini.Trace) :
  Gemini.attemptBody svc img prompt self true tr
  = Gemini.attemptBody svc img prompt self' true tr.
Proof.
  unfold Gemini.attemptBody, Gemini.andThen, Gemini.catch.
  destruct (Gemini.keyCheck svc true tr); try reflexivity.
  destruct (Gemini.requestVideo svc img prompt s); try reflexivity.
  now rewrite andb_false_r.
Qed.

(** Whatever happens, [generateVeoVideo] only adds to the trace. *)
Lemma generateVeoVideo_extends (svc : Gemini.Service) (img prompt : string)
    (tr : Gemini.Trace) :
  exists evs,
    Gemini.final (Gemini.generateVeoVideo svc img prompt tr) = tr ++ evs.
Proof.
  unfold Gemini.generateVeoVideo, Gemini.attemptGeneration.
  set (inner := Gemini.attemptBody svc img prompt (fun _ => Gemini.pending)).
  unfold Gemini.attemptBody, Gemini.andThen, Gemini.catch.
  destruct (keyCheck_spec svc false tr) as (evs1 & K & _).
  destruct K as [K | K]; rewrite K; [|now exists evs1].
  destruct (requestVideo_spec svc img prompt (tr ++ evs1)) as (evs2 & E & _).
  destruct (Gemini.requestVideo svc img prompt (tr ++ evs1)) as [url t|e t|t];
    cbn in E; subst t;
    try (eexists; cbn; rewrite <- app_assoc; reflexivity).
  destruct (Gemini.isNotFound e && negb false && Gemini.aistudio svc);
    [|eexists; cbn; rewrite <- app_assoc; reflexivity].
  unfold Gemini.log, Gemini.update, Gemini.await.
  destruct (Gemini.openSelectKey svc _) as [[]|e'|];
    try (eexists; cbn; rewrite <- !app_assoc; reflexivity).
  destruct (retry_spec svc img prompt (fun _ => Gemini.pending)
              ((((tr ++ evs1) ++ Gemini.GenerateVideos img prompt :: evs2)
                ++ [Gemini.ConsoleWarn]) ++ [Gemini.OpenSelectKey]))
    as (evs3 & E3 & _).
  fold inner in E3. rewrite E3. eexists. rewrite <- !app_assoc. reflexivity.
Qed.

(** X16: [generateVeoVideo] asks for the video at most twice, whatever the
    services answer.  Outside AI Studio it asks at most once and never
    touches the key dialog.  A second request is only made after a warning
    on the console and with the key dialog opened at least twice (once in
    the handler of the failure, once more at the start of the retry).  It
    settles only after at least one request, and what it resolves to is an
    object URL. *)
Theorem generateVeoVideo_retries_once :
  forall (svc : Gemini.Service) (img prompt : string) (tr : Gemini.Trace),
    exists evs,
      Gemini.final (Gemini.generateVeoVideo svc img prompt tr) = tr ++ evs
      /\ (occurrences isGenerateVideos evs <= 2)%nat
      /\ (Gemini.aistudio svc = false ->
          (occurrences isGenerateVideos evs <= 1)%nat
          /\ occurrences isKeyDialog evs = 0%nat)
      /\ (occurrences isGenerateVideos evs = 2%nat ->
          (2 <= occurrences isOpenSelectKey evs)%nat
          /\ (1 <= occurrences isConsoleWarn evs)%nat)
      /\ match Gemini.generateVeoVideo svc img prompt tr with
         | Gemini.Resolved url _ =>
             String.prefix "blob:" url = true
             /\ (1 <= occurrences isGenerateVideos evs)%nat
         | Gemini.Rejected _ _ => (1 <= occurrences isGenerateVideos evs)%nat
         | Gemini.Pending _ => True
         end.
Proof.
  intros svc img prompt tr.
  unfold Gemini.generateVeoVideo, Gemini.attemptGeneration.
  set (inner := Gemini.attemptBody svc img prompt (fun _ => Gemini.pending)).
  unfold Gemini.attemptBody, Gemini.andThen, Gemini.catch.
  destruct (keyCheck_spec svc false tr) as (evs1 & K & F1 & N1 & _).
  pose proof (keyCheck_counts evs1 F1) as G1.
  destruct K as [K | K]; rewrite K.
  2:{ exists evs1. cbn. split; [reflexivity|]. split; [lia|].
      split; [intro Ha; rewrite (N1 Ha); split; [cbn; lia | reflexivity]|].
      split; [lia | exact I]. }
  destruct (requestVideo_spec svc img prompt (tr ++ evs1)) as (evs2 & E & F2 & B).
  destruct (quiet_counts evs2 F2) as (G2 & D2 & O2).
  destruct (Gemini.requestVideo svc img prompt (tr ++ evs1)) as [url t|e t|t];
    cbn in E; subst t.
  - exists (evs1 ++ Gemini.GenerateVideos img prompt :: evs2).
    rewrite <- app_assoc. cbn. split; [reflexivity|].
    split; [count_events|].
    split; [intro Ha; rewrite (N1 Ha); split; count_events|].
    split; [count_events|]. split; [exact B | count_events].
  - cbn [negb]. rewrite andb_true_r.
    destruct (Gemini.isNotFound e && Gemini.aistudio svc) eqn:Retry.
    + apply andb_true_iff in Retry as [_ Ha].
      unfold Gemini.log, Gemini.update, Gemini.await.
      destruct (Gemini.openSelectKey svc _) as [[]|e'|].
      * destruct (retry_spec svc img prompt (fun _ => Gemini.pending)
                    ((((tr ++ evs1) ++ Gemini.GenerateVideos img prompt :: evs2)
                      ++ [Gemini.ConsoleWarn]) ++ [Gemini.OpenSelectKey]))
          as (evs3 & E3 & G3 & O3 & B3).
        specialize (O3 Ha). fold inner in E3, B3.
        exists (evs1 ++ Gemini.GenerateVideos img prompt :: evs2
                ++ [Gemini.ConsoleWarn; Gemini.OpenSelectKey] ++ evs3).
        split.
        { rewrite E3. rewrite <- !app_assoc. cbn. rewrite <- ?app_assoc.
          reflexivity. }
        split; [count_events|].
        split; [intro Hf; congruence|].
        split; [count_events|].
        destruct (inner _) as [url t|e' t|t]; try exact I.
        -- destruct B3 as [B3 _]. split; [exact B3 | count_events].
        -- count_events.
      * exists (evs1 ++ Gemini.GenerateVideos img prompt :: evs2
                ++ [Gemini.ConsoleWarn; Gemini.OpenSelectKey]).
        cbn. split; [rewrite <- !app_assoc; cbn; rewrite <- ?app_assoc; reflexivity|].
        split; [count_events|].
        split; [intro Hf; congruence|].
        split; count_events.
      * exists (evs1 ++ Gemini.GenerateVideos img prompt :: evs2
                ++ [Gemini.ConsoleWarn; Gemini.OpenSelectKey]).
        cbn. split; [rewrite <- !app_assoc; cbn; rewrite <- ?app_assoc; reflexivity|].
        split; [count_events|].
        split; [intro Hf; congruence|].
        split; [count_events | exact I].
    + exists (evs1 ++ Gemini.GenerateVideos img prompt :: evs2).
      rewrite <- app_assoc. cbn. split; [reflexivity|].
      split; [count_events|].
      split; [intro Ha; rewrite (N1 Ha); split; count_events|].
      split; count_events.
  - exists (evs1 ++ Gemini.GenerateVideos img prompt :: evs2).
    rewrite <- app_assoc. cbn. split; [reflexivity|].
    split; [count_events|].
    split; [intro Ha; rewrite (N1 Ha); split; count_events|].
    split; [count_events | exact I].
Qed.

(* ================================================================= *)
(** ** All the clips of a story *)

Lemma traverse_spec {A B} (f : A -> Gemini.Async Gemini.Trace B)
    (P : Gemini.Event -> Prop) (R : B -> Prop) :
  (forall x tr, exists evs,
      Gemini.final (f x tr) = tr ++ evs /\ Forall P evs
      /\ match f x tr with
         | Gemini.Resolved b _ => R b
         | Gemini.Rejected _ _ => False
         | Gemini.Pending _ => True
         end) ->
  forall l tr, exists evs,
    Gemini.final (Gemini.traverse f l tr) = tr ++ evs /\ Forall P evs
    /\ match Gemini.traverse f l tr with
       | Gemini.Resolved bs _ => List.length bs = List.length l /\ Forall R bs
       | Gemini.Rejected _ _ => False
       | Gemini.Pending _ => True
       end.
Proof.
  intros Hf. induction l as [|x l IH]; intros tr.
  - exists []. cbn. rewrite app_nil_r. repeat split; constructor.
  - cbn [Gemini.traverse]. unfold Gemini.andThen.
    destruct (Hf x tr) as (evs1 & E1 & F1 & R1).
    destruct (f x tr) as [b t|e t|t]; cbn in E1; subst t; [|contradiction|].
    + destruct (IH (tr ++ evs1)) as (evs2 & E2 & F2 & R2).
      destruct (Gemini.traverse f l (tr ++ evs1)) as [bs t|e t|t];
        cbn in E2; subst t; [|contradiction|].
      * exists (evs1 ++ evs2). cbn. rewrite app_assoc.
        split; [reflexivity|]. split; [now apply Forall_app|].
        destruct R2 as [L2 R2]. split; [now rewrite L2 | now constructor].
      * exists (evs1 ++ evs2). cbn. rewrite app_assoc.
        split; [reflexivity|]. split; [now apply Forall_app | exact I].
    + exists evs1. cbn. repeat split; assumption.
Qed.

(** An image request asks the model once and nothing else. *)
Lemma image_orNull_spec (svc : Gemini.Service) (style prompt : string)
    (tr : Gemini.Trace) :
  exists evs,
    Gemini.final (Gemini.orNull (Gemini.generateSceneImage svc style prompt) tr)
    = tr ++ evs
    /\ Forall (fun e => isGenerateVideos e = false /\ isKeyDialog e = false) evs
    /\ match Gemini.orNull (Gemini.generateSceneImage svc style prompt) tr with
       | Gemini.Resolved _ _ => True
       | Gemini.Rejected _ _ => False
       | Gemini.Pending _ => True
       end.
Proof.
  unfold Gemini.orNull, Gemini.generateSceneImage. async.
  destruct (Gemini.generateContent svc (List.length tr)) as [r|e|]; cbn.
  - destruct (Gemini.firstInlineData (Gemini.parts r)); cbn;
      eexists; (split; [ext_trace|]); split; auto; repeat constructor.
  - eexists; (split; [ext_trace|]); split; auto; repeat constructor.
  - eexists; (split; [ext_trace|]); split; auto; repeat constructor.
Qed.

Lemma generateVeoVideo_blob (svc : Gemini.Service) (img prompt : string)
    (tr : Gemini.Trace) :
  match Gemini.generateVeoVideo svc img prompt tr with
  | Gemini.Resolved url _ => String.prefix "blob:" url = true
  | _ => True
  end.
Proof.
  unfold Gemini.generateVeoVideo, Gemini.attemptGeneration.
  set (inner := Gemini.attemptBody svc img prompt (fun _ => Gemini.pending)).
  unfold Gemini.attemptBody, Gemini.andThen, Gemini.catch.
  destruct (keyCheck_spec svc false tr) as (evs1 & K & _).
  destruct K as [K | K]; rewrite K; [|exact I].
  destruct (requestVideo_spec svc img prompt (tr ++ evs1)) as (evs2 & E & _ & B).
  destruct (Gemini.requestVideo svc img prompt (tr ++ evs1)) as [url t|e t|t];
    [exact B| |exact I].
  destruct (Gemini.isNotFound e && negb false && Gemini.aistudio svc);
    [|exact I].
  unfold Gemini.log, Gemini.update, Gemini.await.
  destruct (Gemini.openSelectKey svc _) as [[]|e'|]; try exact I.
  destruct (retry_spec svc img prompt (fun _ => Gemini.pending)
              ((t ++ [Gemini.ConsoleWarn]) ++ [Gemini.OpenSelectKey]))
    as (evs3 & _ & _ & _ & B3).
  fold inner in B3. destruct (inner _); try exact I. apply B3.
Qed.

Lemma video_orNull_spec (svc : Gemini.Service) (scene : string * string)
    (tr : Gemini.Trace) :
  exists evs,
    Gemini.final
      (Gemini.orNull (Gemini.generateVeoVideo svc (fst scene) (snd scene)) tr)
    = tr ++ evs
    /\ Forall (fun _ => True) evs
    /\ match Gemini.orNull
               (Gemini.generateVeoVideo svc (fst scene) (snd scene)) tr with
       | Gemini.Resolved o _ => blobOrNull o
       | Gemini.Rejected _ _ => False
       | Gemini.Pending _ => True
       end.
Proof.
  pose proof (generateVeoVideo_blob svc (fst scene) (snd scene) tr) as B.
  destruct (generateVeoVideo_extends svc (fst scene) (snd scene) tr) as (evs & E).
  unfold Gemini.orNull, Gemini.catch, Gemini.andThen.
  destruct (Gemini.generateVeoVideo svc (fst scene) (snd scene) tr)
    as [url t|e t|t]; cbn in E; subst t; cbn.
  - exists evs. split; [reflexivity|]. split; [|exact B].
    apply Forall_forall; auto.
  - exists (evs ++ [Gemini.ConsoleError]). rewrite app_assoc.
    split; [reflexivity|]. split; [apply Forall_forall; auto | exact I].
  - exists evs. split; [reflexivity|]. split; [apply Forall_forall; auto | exact I].
Qed.

Lemma concat_mapi_length {A B} (f : A -> nat -> list B) (l : list A) (i : nat) :
  (forall x j, List.length (f x j) <= 1)%nat ->
  (List.length (List.concat (mapi_from i f l)) <= List.length l)%nat.
Proof.
  intro Hf. revert i. induction l as [|x l IH]; intro i; cbn; [lia|].
  rewrite length_app. specialize (Hf x i). specialize (IH (S i)). lia.
Qed.

Lemma validScenesOf_length (script : Gemini.ScriptData)
    (images : list (option string)) :
  (List.length (Gemini.validScenesOf script images) <= List.length images)%nat.
Proof.
  unfold Gemini.validScenesOf, mapi. apply concat_mapi_length.
  intros [data|] j; [|cbn; lia].
  destruct (nth_error (Gemini.scenes script) j); [|cbn; lia].
  destruct (truthy data); cbn; lia.
Qed.

Lemma somes_length {A} (l : list (option A)) :
  (List.length (Gemini.somes l) <= List.length l)%nat.
Proof.
  unfold Gemini.somes. induction l as [|[a|] l IH]; cbn; lia.
Qed.

Lemma somes_blobs (l : list (option string)) :
  Forall blobOrNull l ->
  Forall (fun url => String.prefix "blob:" url = true) (Gemini.somes l).
Proof.
  unfold Gemini.somes. induction 1 as [|[a|] l H _ IH]; cbn; auto.
Qed.

(** X17: [generateStoryVideoAssets] swallows every failure of a single
    image or clip.  When it resolves, the list of clips is not empty, not
    longer than the storyboard, and made of object URLs.  When it rejects,
    the error is one of its own two: no image at all, in which case no
    video was requested and the key dialog was not touched, or no clip at
    all.  A storyboard without scenes is rejected with no request made. *)
Theorem story_assets_outcomes :
  forall (svc : Gemini.Service) (script : Gemini.ScriptData) (tr : Gemini.Trace),
    match Gemini.generateStoryVideoAssets svc script tr with
    | Gemini.Resolved urls _ =>
        urls <> []
        /\ (List.length urls <= List.length (Gemini.scenes script))%nat
        /\ Forall (fun url => String.prefix "blob:" url = true) urls
    | Gemini.Rejected e tr' =>
        (e = Gemini.newError "Failed to generate any scene images"
         /\ exists evs,
              tr' = tr ++ evs
              /\ occurrences isGenerateVideos evs = 0%nat
              /\ occurrences isKeyDialog evs = 0%nat)
        \/ e = Gemini.newError "Failed to generate any video clips"
    | Gemini.Pending _ => True
    end
    /\ (Gemini.scenes script = [] ->
        Gemini.generateStoryVideoAssets svc script tr
        = Gemini.Rejected
            (Gemini.newError "Failed to generate any scene images") tr).
Proof.
  intros svc script tr. split.
  2:{ intro H. unfold Gemini.generateStoryVideoAssets. rewrite H. reflexivity. }
  unfold Gemini.generateStoryVideoAssets. unfold Gemini.andThen at 1.
  destruct (traverse_spec
              (fun scene => Gemini.orNull
                 (Gemini.generateSceneImage svc (Gemini.globalStyle script)
                                            (Gemini.visualPrompt scene)))
              (fun e => isGenerateVideos e = false /\ isKeyDialog e = false)
              (fun _ => True)
              (fun x t => image_orNull_spec svc _ _ t)
              (Gemini.scenes script) tr) as (evs1 & E1 & F1 & R1).
  match type of R1 with
  | match ?c with _ => _ end => destruct c as [images t|e t|t]
  end; cbn in E1; subst t; [|contradiction|exact I].
  destruct R1 as [L1 _].
  pose proof (validScenesOf_length script images) as Lv.
  destruct (Nat.eqb_spec (List.length (Gemini.validScenesOf script images)) 0)
    as [Z|NZ].
  { cbn. left. split; [reflexivity|]. exists evs1. split; [reflexivity|].
    destruct (quiet_counts evs1 F1) as (G & D & _). now split. }
  unfold Gemini.andThen.
  destruct (traverse_spec
              (fun scene => Gemini.orNull
                 (Gemini.generateVeoVideo svc (fst scene) (snd scene)))
              (fun _ => True) blobOrNull
              (fun x t => video_orNull_spec svc x t)
              (Gemini.validScenesOf script images) (tr ++ evs1))
    as (evs2 & E2 & _ & R2).
  match type of R2 with
  | match ?c with _ => _ end => destruct c as [videoUrls t|e t|t]
  end; cbn in E2; subst t; [|contradiction|exact I].
  destruct R2 as [L2 B2].
  pose proof (somes_length videoUrls) as Ls.
  destruct (Nat.eqb_spec (List.length (Gemini.somes videoUrls)) 0) as [Z|NZ2].
  { cbn. now right. }
  cbn. split; [|split].
  - intro H. rewrite H in NZ2. now apply NZ2.
  - lia.
  - now apply somes_blobs.
Qed.

(* ================================================================= *)
(** ** The generation pipeline of the page *)

Ltac page :=
  unfold App.setState, App.setError, App.setIsResuming, App.setVideoProgress,
    App.setAssets, App.removeItem, App.consoleError, App.service in *;
  async.

Lemma kept_refl (p : App.Page) : kept p p.
Proof. repeat split. Qed.

Lemma kept_trans (p q r : App.Page) : kept p q -> kept q r -> kept p r.
Proof.
  unfold kept. intros (A1 & A2 & A3 & A4 & A5) (B1 & B2 & B3 & B4 & B5).
  repeat split; congruence.
Qed.

Lemma kept_trace (p : App.Page) (tr : Gemini.Trace) : kept p (App.set_trace tr p).
Proof. repeat split. Qed.

Lemma service_cases {A} (c : Gemini.Async Gemini.Trace A) (p : App.Page) :
  match App.service c p, c (App.trace p) with
  | Gemini.Resolved a q, Gemini.Resolved a' tr => a = a' /\ q = App.set_trace tr p
  | Gemini.Rejected e q, Gemini.Rejected e' tr => e = e' /\ q = App.set_trace tr p
  | Gemini.Pending q, Gemini.Pending tr => q = App.set_trace tr p
  | _, _ => False
  end.
Proof.
  unfold App.service. destruct (c (App.trace p)); auto.
Qed.

Lemma generateScript_parsed (svc : Gemini.Service) (t st : string)
    (tr : Gemini.Trace) :
  match Gemini.generateScript svc t st tr with
  | Gemini.Resolved d _ => exists text, Gemini.JSON_parse svc text = Some d
  | _ => True
  end.
Proof.
  unfold Gemini.generateScript. async.
  destruct (Gemini.generateContent svc (List.length tr)) as [r|e|]; cbn; auto.
  destruct (Gemini.text r) as [a|]; cbn; auto.
  destruct (truthy a); cbn; auto.
  destruct (Gemini.JSON_parse svc _) eqn:P; cbn; auto.
  eexists; exact P.
Qed.

Lemma scriptPhase_spec (svc : Gemini.Service) (cl : App.Captured)
    (ra : option App.GeneratedAssets) (t st : string) (p : App.Page) :
  match App.scriptPhase svc cl ra t st p with
  | Gemini.Resolved d q =>
      kept p q
      /\ match App.existingScript cl ra with
         | Some d0 => d = d0
         | None => exists text, Gemini.JSON_parse svc text = Some d
         end
  | Gemini.Rejected _ q => kept p q
  | Gemini.Pending q => kept p q /\ App.state q = App.GENERATING_SCRIPT
  end.
Proof.
  unfold App.scriptPhase.
  destruct (App.existingScript cl ra) as [d|].
  - cbn. split; [apply kept_refl | reflexivity].
  - pose proof (generateScript_parsed svc t st (App.trace p)) as G.
    page.
    destruct (Gemini.generateScript svc t st (App.trace p)); cbn;
      repeat split; try discriminate; exact G.
Qed.

Lemma imagePhase_spec (svc : Gemini.Service) (style : string)
    (scenes : list App.PipelineScene) :
  forall (last : option Gemini.JsError) (p : App.Page),
  exists tr,
    Gemini.final (App.imagePhase svc style scenes last p) = App.set_trace tr p
    /\ match App.imagePhase svc style scenes last p with
       | Gemini.Resolved r _ => Forall2 aligned scenes (fst r)
       | Gemini.Rejected _ _ => False
       | Gemini.Pending _ => True
       end.
Proof.
  induction scenes as [|s scenes IH]; intros last p.
  - exists (App.trace p). cbn. split; [now destruct p | constructor].
  - cbn [App.imagePhase]. unfold Gemini.andThen at 1.
    destruct (truthy (App.videoUrl s)) eqn:Hv.
    + cbn. unfold Gemini.andThen.
      destruct (IH last p) as (tr & E & R).
      destruct (App.imagePhase svc style scenes last p) as [[rs l] q|e q|q];
        cbn in *; subst; try contradiction;
        exists tr; split; try reflexivity; try exact I.
      constructor; [reflexivity | exact R].
    + page.
      destruct (Gemini.generateSceneImage svc style (App.p_visualPrompt s)
                  (App.trace p)) as [image tr1|e tr1|tr1]; cbn.
      * destruct (IH last (App.set_trace tr1 p)) as (tr & E & R).
        destruct (App.imagePhase svc style scenes last (App.set_trace tr1 p))
          as [[rs l] q|e q|q]; cbn in *; subst; try contradiction;
          exists tr; split; try reflexivity; try exact I.
        constructor; [reflexivity | exact R].
      * destruct (IH (Some e) (App.set_trace (tr1 ++ [Gemini.ConsoleError])
                                               (App.set_trace tr1 p)))
          as (tr & E & R).
        destruct (App.imagePhase svc style scenes (Some e)
                    (App.set_trace (tr1 ++ [Gemini.ConsoleError])
                                   (App.set_trace tr1 p)))
          as [[rs l] q|e' q|q]; cbn in *; subst; try contradiction;
          exists tr; split; try reflexivity; try exact I.
        constructor; [exact Hv | exact R].
      * exists tr1. split; [reflexivity | exact I].
Qed.

Lemma find_unique (ps : list App.PipelineScene) (s : App.PipelineScene) :
  NoDup (map App.originalIndex ps) -> In s ps ->
  List.find (fun x => Nat.eqb (App.originalIndex x) (App.originalIndex s)) ps
  = Some s.
Proof.
  induction ps as [|x ps IH]; intros ND Hin; [contradiction|].
  cbn. inversion ND as [|? ? Hx ND']; subst.
  destruct Hin as [-> | Hin].
  - now rewrite Nat.eqb_refl.
  - destruct (Nat.eqb_spec (App.originalIndex x) (App.originalIndex s)) as [E|_].
    + exfalso. apply Hx. rewrite E. now apply in_map.
    + now apply IH.
Qed.

Lemma withImages_pictured (all ps : list App.PipelineScene)
    (results : list (option (nat * string))) :
  NoDup (map App.originalIndex all) -> incl ps all ->
  Forall2 aligned ps results ->
  Pictured ps (App.withImages all results).
Proof.
  intros ND Hin F. induction F as [|s r ps results Hs F IH].
  - constructor.
  - assert (Hs' : In s all) by (apply Hin; now left).
    assert (Hin' : incl ps all) by (intros x Hx; apply Hin; now right).
    specialize (IH Hin').
    unfold App.withImages in *. cbn [flat_map].
    destruct r as [[i image]|]; cbn in Hs.
    + subst i. rewrite (find_unique all s ND Hs'). cbn.
      now constructor.
    + cbn. now constructor.
Qed.

Lemma mapi_from_indices (ra : option App.GeneratedAssets)
    (l : list Gemini.Scene) (i : nat) :
  map App.originalIndex
      (mapi_from i
         (fun s j =>
            App.mkPipeline (Gemini.visualPrompt s) (Gemini.narration s) j
              (if truthy (App.resumedUrl ra j) then "EXISTS" else "")
              (App.resumedUrl ra j)) l)
  = seq i (List.length l).
Proof.
  revert i. induction l as [|s l IH]; intro i; cbn; [reflexivity|].
  now rewrite IH.
Qed.

Lemma pipelineOf_NoDup (ra : option App.GeneratedAssets) (d : Gemini.ScriptData) :
  NoDup (map App.originalIndex (App.pipelineOf ra d)).
Proof.
  unfold App.pipelineOf, mapi. rewrite mapi_from_indices. apply seq_NoDup.
Qed.

Lemma pipelineOf_scenes (ra : option App.GeneratedAssets) (d : Gemini.ScriptData) :
  map App.toScene (App.pipelineOf ra d) = Gemini.scenes d.
Proof.
  unfold App.pipelineOf, mapi. generalize 0%nat.
  induction (Gemini.scenes d) as [|s l IH]; intro i; cbn; [reflexivity|].
  rewrite IH. now destruct s.
Qed.

Lemma pipelineOf_urls (ra : option App.GeneratedAssets) (d : Gemini.ScriptData) :
  map App.videoUrl (App.pipelineOf ra d)
  = map (App.resumedUrl ra) (seq 0 (List.length (Gemini.scenes d))).
Proof.
  unfold App.pipelineOf, mapi. generalize 0%nat.
  induction (Gemini.scenes d) as [|s l IH]; intro i; cbn; [reflexivity|].
  now rewrite IH.
Qed.

Lemma pictured_subseq (l m : list App.PipelineScene) :
  Pictured l m -> Subseq (map App.toScene m) (map App.toScene l).
Proof.
  induction 1; cbn; now constructor.
Qed.

Lemma filmed_subseq (l m : list App.PipelineScene) :
  Filmed l m -> Subseq (map App.toScene m) (map App.toScene l).
Proof.
  induction 1; cbn; now constructor.
Qed.

Lemma subseq_trans {A} (a b c : list A) :
  Subseq a b -> Subseq b c -> Subseq a c.
Proof.
  intros Hab Hbc. revert a Hab.
  induction Hbc as [|x b c Hbc IH|x b c Hbc IH]; intros a Hab.
  - exact Hab.
  - inversion Hab; subst.
    + constructor. now apply IH.
    + apply Subseq_drop. now apply IH.
  - apply Subseq_drop. now apply IH.
Qed.

Lemma subseq_length {A} (a b : list A) :
  Subseq a b -> (List.length a <= List.length b)%nat.
Proof.
  induction 1; cbn; lia.
Qed.

Lemma blob_truthy (url : string) :
  String.prefix "blob:" url = true -> truthy url = true.
Proof.
  destruct url; [discriminate | reflexivity].
Qed.

Lemma filmed_truthy (l m : list App.PipelineScene) :
  Filmed l m -> Forall (fun url => truthy url = true) (map App.videoUrl m).
Proof.
  induction 1; cbn; auto.
  constructor; [now apply blob_truthy | assumption].
Qed.

Lemma keptByVideos_refl (p : App.Page) : keptByVideos p p.
Proof. repeat split. Qed.

Lemma keptByVideos_trans (p q r : App.Page) :
  keptByVideos p q -> keptByVideos q r -> keptByVideos p r.
Proof.
  unfold keptByVideos.
  intros (A1 & A2 & A3 & A4) (B1 & B2 & B3 & B4).
  split; [eapply kept_trans; eassumption|]. repeat split; congruence.
Qed.

Lemma videoPhase_spec (svc : Gemini.Service) (total : nat)
    (scenes : list App.PipelineScene) :
  forall (i : nat) (acc : list App.PipelineScene)
         (last : option Gemini.JsError) (p : App.Page),
    keptByVideos p (Gemini.final (App.videoPhase svc total i scenes acc last p))
    /\ match App.videoPhase svc total i scenes acc last p with
       | Gemini.Resolved r _ =>
           exists added, fst r = acc ++ added /\ Filmed scenes added
       | Gemini.Rejected _ _ => False
       | Gemini.Pending _ => True
       end.
Proof.
  induction scenes as [|s scenes IH]; intros i acc last p.
  - cbn. split; [apply keptByVideos_refl|].
    exists []. rewrite app_nil_r. split; [reflexivity | constructor].
  - remember (App.videoPhase svc total i (s :: scenes) acc last p) as o eqn:Ho.
    cbn [App.videoPhase] in Ho. unfold Gemini.andThen at 1 in Ho.
    unfold App.setVideoProgress at 1 in Ho. unfold Gemini.update at 1 in Ho.
    set (p1 := App.set_videoProgress (Some (S i, total)) p) in Ho.
    assert (K1 : keptByVideos p p1) by (repeat split).
    destruct (truthy (App.videoUrl s)) eqn:Hv.
    + destruct (IH (S i) (acc ++ [s]) last p1) as (K & R).
      subst o.
      split; [exact (keptByVideos_trans _ _ _ K1 K)|].
      destruct (App.videoPhase svc total (S i) scenes (acc ++ [s]) last p1)
        as [r q|e q|q]; auto.
      destruct R as (added & E & F). exists (s :: added).
      rewrite E, <- app_assoc. split; [reflexivity | now constructor].
    + unfold Gemini.andThen at 1 in Ho. unfold Gemini.catch in Ho.
      unfold Gemini.andThen at 1 in Ho.
      pose proof (service_cases
                    (Gemini.generateVeoVideo svc (App.img s) (App.p_visualPrompt s))
                    p1) as SC.
      pose proof (generateVeoVideo_blob svc (App.img s) (App.p_visualPrompt s)
                    (App.trace p1)) as B.
      destruct (App.service _ p1) as [url q|e q|q];
        destruct (Gemini.generateVeoVideo svc (App.img s) (App.p_visualPrompt s)
                    (App.trace p1)) as [url' tr|e' tr|tr];
        try contradiction.
      * destruct SC as [<- ->]. page.
        match type of Ho with
        | context [App.videoPhase svc total (S i) scenes ?a last ?pp] =>
            destruct (IH (S i) a last pp) as (K & R);
            destruct (App.videoPhase svc total (S i) scenes a last pp)
              as [r q|e q|q]
        end; subst o; cbn in *.
        -- split; [refine (keptByVideos_trans _ _ _ _ K); repeat split|].
           destruct R as (added & E & F).
           exists (App.set_videoUrl url s :: added).
           rewrite E, <- app_assoc. split; [reflexivity | now constructor].
        -- contradiction.
        -- split; [refine (keptByVideos_trans _ _ _ _ K); repeat split | exact I].
      * destruct SC as [<- ->]. page.
        match type of Ho with
        | context [App.videoPhase svc total (S i) scenes acc ?l ?pp] =>
            destruct (IH (S i) acc l pp) as (K & R);
            destruct (App.videoPhase svc total (S i) scenes acc l pp)
              as [r q|e' q|q]
        end; subst o; cbn in *.
        -- split; [refine (keptByVideos_trans _ _ _ _ K); repeat split|].
           destruct R as (added & E & F). exists added.
           split; [exact E | now apply Filmed_failed].
        -- contradiction.
        -- split; [refine (keptByVideos_trans _ _ _ _ K); repeat split | exact I].
      * subst q o. cbn. split; [repeat split | exact I].
Qed.

Lemma decodePCM_positive (svc : Gemini.Service) (data : list Byte.byte)
    (b : Gemini.PcmBuffer) :
  Gemini.decodePCM svc data = Gemini.Ok b ->
  (0 < duration (Gemini.asAudioBuffer b))%Q.
Proof.
  intro H.
  destruct data as [|b0 r] eqn:Ed; [discriminate|]. rewrite <- Ed in H.
  destruct (Nat.even (List.length data)) eqn:Hev.
  2:{ destruct (decodePCM_err svc data (or_intror Hev)) as [e E]. congruence. }
  assert (Hne : data <> []) by (rewrite Ed; discriminate).
  rewrite (decodePCM_ok svc data Hne Hev) in H. injection H as <-.
  pose proof (int16Elements_length (Gemini.littleEndian svc) data Hev) as Hl.
  unfold Gemini.asAudioBuffer. cbn [duration Gemini.sampleRate Gemini.channelData].
  rewrite length_map.
  apply Qlt_shift_div_l; [reflexivity|]. rewrite Qmult_0_l.
  change 0%Q with (inject_Z 0). rewrite <- Zlt_Qlt.
  assert (0 < List.length data)%nat by (rewrite Ed; cbn; lia). lia.
Qed.

Lemma generateNarrationAudio_positive (svc : Gemini.Service) (text : string)
    (tr : Gemini.Trace) :
  match Gemini.generateNarrationAudio svc text tr with
  | Gemini.Resolved b _ => (0 < duration (Gemini.asAudioBuffer b))%Q
  | _ => True
  end.
Proof.
  unfold Gemini.generateNarrationAudio. async.
  destruct (Gemini.generateContent svc (List.length tr)) as [r|e|]; cbn; auto.
  destruct (hd None (Gemini.parts r)) as [a|]; cbn; auto.
  destruct (truthy a); cbn; auto.
  destruct (Gemini.atob svc a) as [bytes|]; cbn; auto.
  destruct (Gemini.decodePCM svc bytes) eqn:D; cbn; auto.
  now apply (decodePCM_positive svc bytes).
Qed.

Lemma pipeline_spec (svc : Gemini.Service) (cl : App.Captured)
    (ra : option App.GeneratedAssets) (t st : string) (p : App.Page) :
  match App.pipeline svc cl ra t st p with
  | Gemini.Resolved _ q =>
      exists q0 d swi swv audio,
        kept p q0 /\ App.videoProgress q0 = None
        /\ q = App.set_localStorage None
                 (App.set_state App.COMPLETED
                    (App.set_assets
                       (App.mkAssets
                          (Some (Gemini.mkScript (Gemini.title d)
                                                 (Gemini.globalStyle d)
                                                 (map App.toScene swv)))
                          (map App.videoUrl swv) (Some audio))
                       q0))
        /\ match App.existingScript cl ra with
           | Some d0 => d = d0
           | None => exists text, Gemini.JSON_parse svc text = Some d
           end
        /\ Pictured (App.pipelineOf ra d) swi
        /\ Filmed swi swv
        /\ swv <> []
        /\ (0 < duration (Gemini.asAudioBuffer audio))%Q
  | Gemini.Rejected _ q => kept p q
  | Gemini.Pending q => kept p q /\ generating (App.state q)
  end.
Proof.
  remember (App.pipeline svc cl ra t st p) as o eqn:Ho.
  unfold App.pipeline in Ho. unfold Gemini.andThen at 1 in Ho.
  pose proof (scriptPhase_spec svc cl ra t st p) as S1.
  destruct (App.scriptPhase svc cl ra t st p) as [d p1|e p1|p1];
    [|subst o; exact S1
     |subst o; destruct S1 as [K ->]; split; [exact K | now left]].
  destruct S1 as [K1 Hd].
  unfold Gemini.andThen at 1 in Ho.
  unfold App.setState at 1 in Ho. unfold Gemini.update at 1 in Ho.
  set (p2 := App.set_state App.GENERATING_IMAGE p1) in Ho.
  assert (K2 : kept p p2) by (refine (kept_trans _ _ _ K1 _); repeat split).
  unfold Gemini.andThen at 1 in Ho.
  destruct (imagePhase_spec svc (Gemini.globalStyle d) (App.pipelineOf ra d)
              None p2) as (tr3 & E3 & R3).
  destruct (App.imagePhase svc (Gemini.globalStyle d) (App.pipelineOf ra d)
              None p2) as [[results last] p3|e p3|p3];
    cbn in E3; subst p3; [|contradiction
     |subst o; split; [refine (kept_trans _ _ _ K2 _); repeat split
                      | right; now left]].
  cbn [fst snd] in *.
  assert (P : Pictured (App.pipelineOf ra d)
                       (App.withImages (App.pipelineOf ra d) results)).
  { apply withImages_pictured; [apply pipelineOf_NoDup | apply incl_refl | exact R3]. }
  set (swi := App.withImages (App.pipelineOf ra d) results) in *.
  set (p3 := App.set_trace tr3 p2) in *.
  assert (K3 : kept p p3) by (refine (kept_trans _ _ _ K2 _); repeat split).
  destruct (Nat.eqb (List.length swi) 0).
  { subst o. unfold App.throwLast. destruct last; exact K3. }
  unfold Gemini.andThen at 1 in Ho.
  pose proof (service_cases (App.checkVeoKey svc) p3) as S4.
  destruct (App.service (App.checkVeoKey svc) p3) as [b p4|e p4|p4];
    destruct (App.checkVeoKey svc (App.trace p3)) as [b' tr4|e' tr4|tr4];
    try contradiction.
  2:{ destruct S4 as [_ ->]. subst o.
      refine (kept_trans _ _ _ K3 _); repeat split. }
  2:{ subst p4 o. split; [refine (kept_trans _ _ _ K3 _); repeat split|].
      right; now left. }
  destruct S4 as [_ ->].
  unfold Gemini.andThen at 1 in Ho.
  unfold App.setState at 1 in Ho. unfold Gemini.update at 1 in Ho.
  unfold Gemini.andThen at 1 in Ho.
  unfold App.setVideoProgress at 1 in Ho. unfold Gemini.update at 1 in Ho.
  set (p5 := App.set_videoProgress (Some (0%nat, List.length swi))
               (App.set_state App.GENERATING_VIDEO (App.set_trace tr4 p3))) in Ho.
  assert (K5 : kept p p5) by (refine (kept_trans _ _ _ K3 _); repeat split).
  assert (St5 : App.state p5 = App.GENERATING_VIDEO) by reflexivity.
  unfold Gemini.andThen at 1 in Ho.
  destruct (videoPhase_spec svc (List.length swi) swi 0%nat [] last p5) as (K6 & R6).
  destruct (App.videoPhase svc (List.length swi) 0%nat swi [] last p5)
    as [[swv last'] p6|e p6|p6]; cbn [Gemini.final fst snd] in *;
    [|contradiction
     |subst o; destruct K6 as (K6 & St6 & _); split;
      [exact (kept_trans _ _ _ K5 K6) | rewrite St6, St5; right; right; now left]].
  destruct R6 as (added & -> & F). cbn [app] in *.
  destruct K6 as (K6 & St6 & _).
  assert (K6' : kept p p6) by exact (kept_trans _ _ _ K5 K6).
  destruct (Nat.eqb_spec (List.length added) 0) as [Z|NZ].
  { subst o. unfold App.throwLast. destruct last'; exact K6'. }
  unfold Gemini.andThen at 1 in Ho.
  unfold App.setAssets at 1 in Ho. unfold Gemini.update at 1 in Ho.
  unfold Gemini.andThen at 1 in Ho.
  unfold App.setVideoProgress at 1 in Ho. unfold Gemini.update at 1 in Ho.
  unfold Gemini.andThen at 1 in Ho.
  unfold App.setState at 1 in Ho. unfold Gemini.update at 1 in Ho.
  unfold Gemini.andThen at 1 in Ho.
  match type of Ho with
  | context [App.service ?c ?pp] =>
      set (p7 := pp) in Ho;
      pose proof (service_cases c p7) as S8;
      pose proof (generateNarrationAudio_positive svc
                    (App.join " " (map App.p_narration added)) (App.trace p7)) as A8
  end.
  assert (K7 : kept p p7) by (refine (kept_trans _ _ _ K6' _); repeat split).
  assert (V7 : App.videoProgress p7 = None) by reflexivity.
  assert (St7 : App.state p7 = App.GENERATING_AUDIO) by reflexivity.
  destruct (App.service _ p7) as [audio p8|e p8|p8];
    destruct (Gemini.generateNarrationAudio svc _ (App.trace p7))
      as [audio' tr8|e' tr8|tr8]; try contradiction.
  - destruct S8 as [<- ->]. page. subst o.
    exists (App.set_trace tr8 p7), d, swi, added, audio.
    split; [refine (kept_trans _ _ _ K7 _); repeat split|].
    split; [reflexivity|]. split; [reflexivity|].
    split; [exact Hd|]. split; [exact P|]. split; [exact F|].
    split; [|exact A8].
    intro H. apply NZ. now rewrite H.
  - destruct S8 as [_ ->]. subst o.
    refine (kept_trans _ _ _ K7 _); repeat split.
  - subst p8 o. split; [refine (kept_trans _ _ _ K7 _); repeat split|].
    right; right; now right.
Qed.

Lemma reportError_spec (err : Gemini.JsError) (q : App.Page) :
  exists msg,
    App.reportError err q
    = Gemini.Resolved tt
        (App.set_state App.ERROR
           (App.set_error (Some msg)
              (App.set_trace (App.trace q ++ [Gemini.ConsoleError]) q)))
    /\ truthy msg = true.
Proof.
  unfold App.reportError. page.
  destruct (truthy (Gemini.message err)) eqn:T.
  - destruct (includes "429" (Gemini.message err)
              || includes "RESOURCE_EXHAUSTED" (Gemini.message err));
      eexists; split; try reflexivity; assumption.
  - eexists; split; reflexivity.
Qed.

(** The page after the first two lines of the handler. *)
Lemma handleGenerate_spec (svc : Gemini.Service) (cl : App.Captured)
    (ft : option string) (ra : option App.GeneratedAssets)
    (fs : option string) (p : App.Page) :
  App.blank_topic cl ft = false ->
  let p0 := App.set_isResuming false (App.set_error None p) in
  match App.handleGenerate svc cl ft ra fs p with
  | Gemini.Resolved _ q =>
      (exists q0 d swi swv audio,
          kept p0 q0 /\ App.videoProgress q0 = None
          /\ q = App.set_localStorage None
                   (App.set_state App.COMPLETED
                      (App.set_assets
                         (App.mkAssets
                            (Some (Gemini.mkScript (Gemini.title d)
                                                   (Gemini.globalStyle d)
                                                   (map App.toScene swv)))
                            (map App.videoUrl swv) (Some audio))
                         q0))
          /\ match App.existingScript cl ra with
             | Some d0 => d = d0
             | None => exists text, Gemini.JSON_parse svc text = Some d
             end
          /\ Pictured (App.pipelineOf ra d) swi
          /\ Filmed swi swv
          /\ swv <> []
          /\ (0 < duration (Gemini.asAudioBuffer audio))%Q)
      \/ (exists q0 msg,
             kept p0 q0
             /\ q = App.set_state App.ERROR
                      (App.set_error (Some msg)
                         (App.set_trace (App.trace q0 ++ [Gemini.ConsoleError])
                                        q0))
             /\ truthy msg = true)
  | Gemini.Rejected _ _ => False
  | Gemini.Pending q => kept p0 q /\ generating (App.state q)
  end.
Proof.
  intros Hb p0. unfold App.handleGenerate. unfold App.blank_topic in Hb.
  rewrite Hb.
  unfold Gemini.andThen, App.setError, App.setIsResuming, Gemini.update,
    Gemini.catch. fold p0.
  pose proof (pipeline_spec svc cl ra (App.orString ft (App.c_topic cl))
                (snd (App.styleOf (App.orString fs (App.c_selectedStyle cl))))
                p0) as PS.
  destruct (App.pipeline svc cl ra _ _ p0) as [[] q|e q|q].
  - left. exact PS.
  - destruct (reportError_spec e q) as (msg & E & T).
    rewrite E. right. exists q, msg. repeat split; try apply PS; assumption.
  - exact PS.
Qed.

(* ================================================================= *)
(** ** What the page shows after a generation *)

(** X18: [handleGenerate] never rejects: every error is caught and shown.
    With a blank topic it resolves without changing anything.  Otherwise,
    when it resolves, the page is in COMPLETED or in ERROR, with the topic
    and the style it had and the resume banner off; as long as a request
    stays unanswered the page stays in one of the four generating states,
    with no error shown and [localStorage] not written by the handler. *)
Theorem handleGenerate_never_rejects :
  forall (svc : Gemini.Service) (cl : App.Captured) (ft : option string)
         (ra : option App.GeneratedAssets) (fs : option string) (p : App.Page),
    match App.handleGenerate svc cl ft ra fs p with
    | Gemini.Rejected _ _ => False
    | Gemini.Resolved _ q =>
        if App.blank_topic cl ft then q = p
        else (App.state q = App.COMPLETED \/ App.state q = App.ERROR)
             /\ App.topic q = App.topic p
             /\ App.selectedStyle q = App.selectedStyle p
             /\ App.isResuming q = false
    | Gemini.Pending q =>
        App.blank_topic cl ft = false
        /\ generating (App.state q)
        /\ App.error q = None
        /\ App.isResuming q = false
        /\ App.localStorage q = App.localStorage p
    end.
Proof.
  intros svc cl ft ra fs p.
  destruct (App.blank_topic cl ft) eqn:Hb.
  - unfold App.handleGenerate. unfold App.blank_topic in Hb. rewrite Hb.
    reflexivity.
  - pose proof (handleGenerate_spec svc cl ft ra fs p Hb) as H. cbn zeta in H.
    destruct (App.handleGenerate svc cl ft ra fs p) as [[] q|e q|q].
    + destruct H as [(q0 & d & swi & swv & audio & K & _ & -> & _)
                    |(q0 & msg & K & -> & _)];
        destruct K as (K1 & K2 & _ & K4 & _); cbn in *; auto.
    + exact H.
    + destruct H as [(K1 & K2 & K3 & K4 & K5) G]. cbn in *. auto.
Qed.

(** X19: a generation that ends in ERROR shows a message that is not empty
    and has written the error to the console; the handler has not touched
    [localStorage], so what an earlier render saved there is still there. *)
Theorem handleGenerate_reports_error :
  forall (svc : Gemini.Service) (cl : App.Captured) (ft : option string)
         (ra : option App.GeneratedAssets) (fs : option string)
         (p q : App.Page),
    App.blank_topic cl ft = false ->
    App.handleGenerate svc cl ft ra fs p = Gemini.Resolved tt q ->
    App.state q = App.ERROR ->
    (exists msg, App.error q = Some msg /\ truthy msg = true)
    /\ App.localStorage q = App.localStorage p
    /\ (1 <= occurrences isConsoleError (App.trace q))%nat.
Proof.
  intros svc cl ft ra fs p q Hb E St.
  pose proof (handleGenerate_spec svc cl ft ra fs p Hb) as H. cbn zeta in H.
  rewrite E in H.
  destruct H as [(q0 & d & swi & swv & audio & K & _ & -> & _)
                |(q0 & msg & K & -> & T)]; [discriminate|].
  destruct K as (_ & _ & _ & _ & K5).
  cbn [App.error App.localStorage App.trace App.set_state App.set_error
       App.set_trace App.set_isResuming] in *.
  split; [now exists msg|]. split; [exact K5|].
  rewrite occurrences_app, occurrences_cons. cbn. lia.
Qed.

Lemma handleGenerate_reports_error_witness :
  App.state (Gemini.final (App.clickGenerate quotaService catsPage)) = App.ERROR
  /\ ((exists msg,
         App.error (Gemini.final (App.clickGenerate quotaService catsPage))
         = Some msg /\ truthy msg = true)
      /\ App.localStorage (Gemini.final (App.clickGenerate quotaService catsPage))
         = App.localStorage catsPage
      /\ (1 <= occurrences isConsoleError
                 (App.trace (Gemini.final (App.clickGenerate quotaService catsPage))))%nat).
Proof.
  split; [vm_compute; reflexivity|].
  apply (handleGenerate_reports_error quotaService (App.captured catsPage)
           None None None catsPage);
    vm_compute; reflexivity.
Defined.

Lemma totalFrames_pos (d : Q) : (0 < d)%Q -> 0 < totalFrames d.
Proof.
  intro H. unfold totalFrames.
  assert (Hp : (0 < d * inject_Z fps)%Q).
  { apply Qmult_lt_0_compat; [exact H | reflexivity]. }
  pose proof (Qle_ceiling (d * inject_Z fps)) as Hc.
  assert (Hq : (0 < inject_Z (Qceiling (d * inject_Z fps)))%Q)
    by (eapply Qlt_le_trans; eassumption).
  change 0%Q with (inject_Z 0) in Hq. now rewrite <- Zlt_Qlt in Hq.
Qed.

(** X20: a generation that ends in COMPLETED leaves a final script, at
    least one clip and a narration buffer, with exactly one clip per scene
    of the final script and no empty URL; no error is shown, the video
    progress is cleared and the session is removed from [localStorage].
    The narration lasts longer than zero seconds, so the player the page
    then mounts has what [exportToMp4] needs: a buffer, scenes, and
    positive frame counts. *)
Theorem handleGenerate_completed_assets :
  forall (svc : Gemini.Service) (cl : App.Captured) (ft : option string)
         (ra : option App.GeneratedAssets) (fs : option string)
         (p q : App.Page),
    App.blank_topic cl ft = false ->
    App.handleGenerate svc cl ft ra fs p = Gemini.Resolved tt q ->
    App.state q = App.COMPLETED ->
    exists final buf,
      App.assets q = App.mkAssets (Some final) (App.videoUrls (App.assets q))
                                  (Some buf)
      /\ List.length (Gemini.scenes final)
         = List.length (App.videoUrls (App.assets q))
      /\ App.videoUrls (App.assets q) <> []
      /\ Forall (fun url => truthy url = true) (App.videoUrls (App.assets q))
      /\ App.error q = None
      /\ App.videoProgress q = None
      /\ App.localStorage q = None
      /\ Player.audioBuffer (App.playerProps (App.assets q))
         = Some (Gemini.asAudioBuffer buf)
      /\ Player.videoUrls (App.playerProps (App.assets q)) <> []
      /\ (0 < duration (Gemini.asAudioBuffer buf))%Q
      /\ 0 < totalFrames (duration (Gemini.asAudioBuffer buf))
      /\ 0 < framesPerScene
               (duration (Gemini.asAudioBuffer buf))
               (Z.of_nat (List.length
                            (Player.videoUrls (App.playerProps (App.assets q))))).
Proof.
  intros svc cl ft ra fs p q Hb E St.
  pose proof (handleGenerate_spec svc cl ft ra fs p Hb) as H. cbn zeta in H.
  rewrite E in H.
  destruct H as [(q0 & d & swi & swv & audio & K & V & -> & _ & P & F & NE & A)
                |(q0 & msg & K & -> & T)]; [|discriminate].
  destruct K as (_ & _ & K3 & _ & _). cbn in *.
  assert (NE' : map App.videoUrl swv <> [])
    by (destruct swv; [contradiction | discriminate]).
  exists (Gemini.mkScript (Gemini.title d) (Gemini.globalStyle d)
                          (map App.toScene swv)), audio.
  split; [reflexivity|]. split; [cbn; now rewrite !length_map|].
  split; [exact NE'|]. split; [exact (filmed_truthy _ _ F)|].
  split; [exact K3|]. split; [exact V|]. split; [reflexivity|].
  split; [reflexivity|]. split; [exact NE'|]. split; [exact A|].
  split; [now apply totalFrames_pos|].
  apply framesPerScene_pos; [|exact A].
  rewrite length_map. destruct swv; [contradiction | cbn [List.length]; lia].
Qed.

Lemma handleGenerate_completed_assets_witness :
  App.state (Gemini.final (App.clickGenerate workingService catsPage))
  = App.COMPLETED
  /\ exists final buf,
      App.assets (Gemini.final (App.clickGenerate workingService catsPage))
      = App.mkAssets (Some final) ["blob:clip"; "blob:clip"]%string (Some buf)
      /\ List.length (Gemini.scenes final) = 2%nat.
Proof.
  split; [vm_compute; reflexivity|].
  destruct (handleGenerate_completed_assets workingService
              (App.captured catsPage) None None None catsPage
              (Gemini.final (App.clickGenerate workingService catsPage)))
    as (final & buf & EA & EL & _); try (vm_compute; reflexivity).
  exists final, buf. split.
  - rewrite EA. f_equal.
  - rewrite EL. vm_compute. reflexivity.
Defined.

(** X21: the final script of a completed generation is the storyboard the
    handler started from (the one at hand, or else one that [JSON.parse]
    returned) with its title and style, and with scenes left out but none
    added, changed or moved; there are no more clips than the storyboard
    had scenes. *)
Theorem handleGenerate_keeps_scene_order :
  forall (svc : Gemini.Service) (cl : App.Captured) (ft : option string)
         (ra : option App.GeneratedAssets) (fs : option string)
         (p q : App.Page),
    App.blank_topic cl ft = false ->
    App.handleGenerate svc cl ft ra fs p = Gemini.Resolved tt q ->
    App.state q = App.COMPLETED ->
    exists original final,
      App.script (App.assets q) = Some final
      /\ match App.existingScript cl ra with
         | Some d0 => original = d0
         | None => exists text, Gemini.JSON_parse svc text = Some original
         end
      /\ Gemini.title final = Gemini.title original
      /\ Gemini.globalStyle final = Gemini.globalStyle original
      /\ Subseq (Gemini.scenes final) (Gemini.scenes original)
      /\ (List.length (App.videoUrls (App.assets q))
          <= List.length (Gemini.scenes original))%nat.
Proof.
  intros svc cl ft ra fs p q Hb E St.
  pose proof (handleGenerate_spec svc cl ft ra fs p Hb) as H. cbn zeta in H.
  rewrite E in H.
  destruct H as [(q0 & d & swi & swv & audio & K & V & -> & Hd & P & F & NE & A)
                |(q0 & msg & K & -> & T)]; [|discriminate].
  assert (S : Subseq (map App.toScene swv) (Gemini.scenes d)).
  { rewrite <- (pipelineOf_scenes ra d).
    exact (subseq_trans _ _ _ (filmed_subseq _ _ F) (pictured_subseq _ _ P)). }
  exists d. eexists. cbn.
  split; [reflexivity|]. split; [exact Hd|]. split; [reflexivity|].
  split; [reflexivity|]. split; [exact S|].
  apply subseq_length in S. now rewrite !length_map in *.
Qed.

Lemma handleGenerate_keeps_scene_order_witness :
  exists final,
    App.script (App.assets (Gemini.final (App.clickGenerate workingService catsPage)))
    = Some final
    /\ Subseq (Gemini.scenes final) (Gemini.scenes catStory).
Proof.
  destruct (handleGenerate_keeps_scene_order workingService
              (App.captured catsPage) None None None catsPage
              (Gemini.final (App.clickGenerate workingService catsPage)))
    as (original & final & ES & EO & _ & _ & S & _);
    try (vm_compute; reflexivity).
  exists final. split; [exact ES|].
  destruct EO as [text EO]. cbn in EO. injection EO as <-. exact S.
Defined.

Lemma nth_seq_all (l : list string) :
  map (fun i => nth i l ""%string) (seq 0 (List.length l)) = l.
Proof.
  induction l as [|x l IH]; [reflexivity|].
  cbn [List.length seq map nth]. f_equal.
  rewrite <- seq_shift, map_map. exact IH.
Qed.

Lemma pictured_prefix (pre rest swi : list App.PipelineScene) :
  Forall (fun s => truthy (App.videoUrl s) = true) pre ->
  Pictured (pre ++ rest) swi ->
  exists pre' rest',
    swi = pre' ++ rest'
    /\ map App.videoUrl pre' = map App.videoUrl pre
    /\ map App.toScene pre' = map App.toScene pre
    /\ Pictured rest rest'.
Proof.
  intro T. revert swi. induction T as [|s pre Hs T IH]; intros swi P.
  - exists [], swi. repeat split. exact P.
  - cbn in P. inversion P as [|? image ? m P'|? ? ? Hf P']; subst.
    + destruct (IH m P') as (pre' & rest' & -> & EU & ES & PR).
      exists (App.set_img image s :: pre'), rest'.
      cbn. rewrite EU, ES. repeat split. exact PR.
    + congruence.
Qed.

Lemma filmed_prefix (pre rest swv : list App.PipelineScene) :
  Forall (fun s => truthy (App.videoUrl s) = true) pre ->
  Filmed (pre ++ rest) swv ->
  exists rest', swv = pre ++ rest' /\ Filmed rest rest'.
Proof.
  intro T. revert swv. induction T as [|s pre Hs T IH]; intros swv F.
  - exists swv. split; [reflexivity | exact F].
  - cbn in F. inversion F as [|? ? m Hk F'|? url ? m Hn Hb F'|? ? ? Hn F']; subst;
      try congruence.
    destruct (IH m F') as (rest' & -> & FR).
    exists rest'. split; [reflexivity | exact FR].
Qed.

Lemma firstn_seq_le (k n a : nat) :
  (k <= n)%nat -> firstn k (seq a n) = seq a k.
Proof.
  revert n a. induction k as [|k IH]; intros [|n] a H; cbn; try reflexivity;
    try lia.
  f_equal. apply IH. lia.
Qed.

Lemma pipelineOf_resumed (r : App.GeneratedAssets) (d : Gemini.ScriptData) :
  let k := List.length (App.videoUrls r) in
  (k <= List.length (Gemini.scenes d))%nat ->
  map App.videoUrl (firstn k (App.pipelineOf (Some r) d)) = App.videoUrls r
  /\ map App.toScene (firstn k (App.pipelineOf (Some r) d))
     = firstn k (Gemini.scenes d).
Proof.
  intros k Hk. split.
  - rewrite <- firstn_map, pipelineOf_urls, firstn_map.
    rewrite firstn_seq_le by exact Hk. cbn [App.resumedUrl]. apply nth_seq_all.
  - now rewrite <- firstn_map, pipelineOf_scenes.
Qed.

Lemma resumed_scenes (r : App.GeneratedAssets) (d : Gemini.ScriptData)
    (swi swv : list App.PipelineScene) :
  let k := List.length (App.videoUrls r) in
  (k <= List.length (Gemini.scenes d))%nat ->
  Forall (fun url => truthy url = true) (App.videoUrls r) ->
  Pictured (App.pipelineOf (Some r) d) swi ->
  Filmed swi swv ->
  firstn k (map App.videoUrl swv) = App.videoUrls r
  /\ firstn k (map App.toScene swv) = firstn k (Gemini.scenes d).
Proof.
  intros k Hk T P F.
  destruct (pipelineOf_resumed r d Hk) as [EU ES]. fold k in EU, ES.
  set (all := App.pipelineOf (Some r) d) in *.
  assert (Tpre : Forall (fun s => truthy (App.videoUrl s) = true) (firstn k all)).
  { apply Forall_forall. intros s Hs.
    rewrite Forall_forall in T. apply T. rewrite <- EU. now apply in_map. }
  rewrite <- (firstn_skipn k all) in P.
  destruct (pictured_prefix _ _ _ Tpre P) as (pre' & rest' & -> & EU' & ES' & _).
  assert (Tpre' : Forall (fun s => truthy (App.videoUrl s) = true) pre').
  { apply Forall_forall. intros s Hs.
    rewrite Forall_forall in T. apply T. rewrite <- EU, <- EU'. now apply in_map. }
  destruct (filmed_prefix _ _ _ Tpre' F) as (rest'' & -> & _).
  assert (Lpre : List.length pre' = k).
  { rewrite <- (length_map App.videoUrl pre'), EU', EU. reflexivity. }
  split.
  - rewrite map_app, firstn_app.
    rewrite length_map, Lpre, Nat.sub_diag. cbn [firstn]. rewrite app_nil_r.
    rewrite firstn_all2 by (rewrite length_map; lia).
    now rewrite EU', EU.
  - rewrite map_app, firstn_app.
    rewrite length_map, Lpre, Nat.sub_diag. cbn [firstn]. rewrite app_nil_r.
    rewrite firstn_all2 by (rewrite length_map; lia).
    now rewrite ES', ES.
Qed.

(** X22: on a resume the saved clips are matched to the scenes by position.
    With a storyboard at hand and k saved URLs, none of them empty, a
    generation that completes keeps these k URLs as its first k clips, and
    the first k scenes of the storyboard as the first k scenes of the final
    script. *)
Theorem resume_keeps_saved_clips :
  forall (svc : Gemini.Service) (cl : App.Captured) (ft : option string)
         (r : App.GeneratedAssets) (fs : option string) (p q : App.Page)
         (d : Gemini.ScriptData),
    App.blank_topic cl ft = false ->
    App.existingScript cl (Some r) = Some d ->
    Forall (fun url => truthy url = true) (App.videoUrls r) ->
    (List.length (App.videoUrls r) <= List.length (Gemini.scenes d))%nat ->
    App.handleGenerate svc cl ft (Some r) fs p = Gemini.Resolved tt q ->
    App.state q = App.COMPLETED ->
    firstn (List.length (App.videoUrls r)) (App.videoUrls (App.assets q))
    = App.videoUrls r
    /\ exists final,
         App.script (App.assets q) = Some final
         /\ firstn (List.length (App.videoUrls r)) (Gemini.scenes final)
            = firstn (List.length (App.videoUrls r)) (Gemini.scenes d).
Proof.
  intros svc cl ft r fs p q d Hb Hd T Hk E St.
  pose proof (handleGenerate_spec svc cl ft (Some r) fs p Hb) as H.
  cbn zeta in H. rewrite E in H.
  destruct H as [(q0 & d' & swi & swv & audio & K & V & -> & Hd' & P & F & NE & A)
                |(q0 & msg & K & -> & T')]; [|discriminate].
  rewrite Hd in Hd'. subst d'.
  destruct (resumed_scenes r d swi swv Hk T P F) as [EU ES].
  cbn. split; [exact EU|].
  eexists. split; [reflexivity | exact ES].
Qed.

Lemma resume_keeps_saved_clips_witness :
  firstn 1 (App.videoUrls (App.assets (Gemini.final
     (App.handleGenerate workingService
        (App.captured (App.initial (Some interrupted)))
        (Some "cats"%string) (Some (App.savedAssets interrupted))
        (Some "anime"%string) (App.initial (Some interrupted))))))
  = ["blob:first"%string].
Proof.
  apply (resume_keeps_saved_clips workingService
           (App.captured (App.initial (Some interrupted)))
           (Some "cats"%string) (App.savedAssets interrupted)
           (Some "anime"%string) (App.initial (Some interrupted)) _ catStory);
    try (vm_compute; reflexivity).
  - repeat constructor.
  - cbn. lia.
Defined.

(* ================================================================= *)
(** ** The session in [localStorage] *)

Lemma blank_false_truthy (s : string) : blank s = false -> truthy s = true.
Proof.
  destruct s; [discriminate | reflexivity].
Qed.

Lemma saveSession_generating (p : App.Page) :
  generating (App.state p) ->
  App.saveSession p
  = Gemini.Resolved tt
      (App.set_localStorage
         (Some (App.mkSession (App.state p) (App.topic p) (App.selectedStyle p)
                  (App.mkAssets (App.script (App.assets p))
                                (App.videoUrls (App.assets p)) None)))
         p).
Proof.
  unfold App.saveSession, Gemini.update.
  intros [E|[E|[E|E]]]; rewrite E; reflexivity.
Qed.

(** X23: a reload in the middle of a generation resumes it.  The save
    effect, run on a page that is generating with a topic, a storyboard and
    k clips, stores a session from which the load effect of a fresh page
    restores the topic and the style and calls [handleGenerate]; when that
    generation completes, the k stored clips are its first k clips and the
    first k scenes of the stored storyboard are the first k scenes of the
    final script, under the stored title. *)
Theorem reload_resumes_generation :
  forall (svc : Gemini.Service) (p q : App.Page) (d : Gemini.ScriptData),
    generating (App.state p) ->
    blank (App.topic p) = false ->
    App.script (App.assets p) = Some d ->
    Forall (fun url => truthy url = true) (App.videoUrls (App.assets p)) ->
    (List.length (App.videoUrls (App.assets p))
     <= List.length (Gemini.scenes d))%nat ->
    App.loadSession svc
      (App.initial (App.localStorage (Gemini.final (App.saveSession p))))
    = Gemini.Resolved tt q ->
    App.state q = App.COMPLETED ->
    App.topic q = App.topic p
    /\ (truthy (App.selectedStyle p) = true ->
        App.selectedStyle q = App.selectedStyle p)
    /\ App.isResuming q = false
    /\ firstn (List.length (App.videoUrls (App.assets p)))
              (App.videoUrls (App.assets q))
       = App.videoUrls (App.assets p)
    /\ exists final,
         App.script (App.assets q) = Some final
         /\ Gemini.title final = Gemini.title d
         /\ firstn (List.length (App.videoUrls (App.assets p)))
                   (Gemini.scenes final)
            = firstn (List.length (App.videoUrls (App.assets p)))
                     (Gemini.scenes d).
Proof.
  intros svc p q d G Hb Hd T Hk E St.
  rewrite (saveSession_generating p G) in E. cbn [Gemini.final] in E.
  unfold App.loadSession in E.
  cbn [App.localStorage App.initial App.set_localStorage App.savedState
       App.savedTopic App.savedStyle App.savedAssets] in E.
  set (r := App.mkAssets (App.script (App.assets p))
                         (App.videoUrls (App.assets p)) None) in *.
  set (sess := App.mkSession (App.state p) (App.topic p) (App.selectedStyle p) r)
    in *.
  set (fresh := App.mkPage App.IDLE "" (fst App.firstStyle)
                  (App.mkAssets None [] None) None None false
                  (Some sess) []) in *.
  set (p1 := App.set_isResuming true _) in E.
  assert (E' : App.handleGenerate svc (App.captured fresh) (Some (App.topic p))
                 (Some r) (Some (App.selectedStyle p)) p1
               = Gemini.Resolved tt q).
  { destruct G as [G|[G|[G|G]]]; rewrite G in E; exact E. }
  clear E.
  assert (Hb' : App.blank_topic (App.captured fresh) (Some (App.topic p)) = false).
  { unfold App.blank_topic, App.orString.
    now rewrite (blank_false_truthy _ Hb). }
  pose proof (handleGenerate_spec svc (App.captured fresh) (Some (App.topic p))
                (Some r) (Some (App.selectedStyle p)) p1 Hb') as H.
  cbn zeta in H. rewrite E' in H.
  destruct H as [(q0 & d' & swi & swv & audio & K & V & -> & Hd' & P & F & NE & A)
                |(q0 & msg & K & -> & T')]; [|discriminate].
  assert (Hex : App.existingScript (App.captured fresh) (Some r) = Some d).
  { unfold App.existingScript. subst r. cbn. now rewrite Hd. }
  rewrite Hex in Hd'. subst d'.
  destruct (resumed_scenes r d swi swv Hk T P F) as [EU ES].
  destruct K as (K1 & K2 & _ & K4 & _).
  cbn in K1, K2, K4 |- *.
  split; [exact K1|].
  split; [intro Ts; rewrite K2; subst p1; cbn; now rewrite Ts|].
  split; [exact K4|]. split; [exact EU|].
  eexists. split; [reflexivity|]. split; [reflexivity | exact ES].
Qed.

Lemma reload_resumes_generation_witness :
  firstn 1 (App.videoUrls (App.assets (Gemini.final
     (App.loadSession workingService (App.initial (Some interrupted))))))
  = ["blob:first"%string].
Proof.
  apply (reload_resumes_generation workingService
           (App.mkPage App.GENERATING_VIDEO "cats" "anime"
              (App.mkAssets (Some catStory) ["blob:first"%string] None)
              None (Some (1%nat, 2%nat)) false None [])
           _ catStory);
    try (vm_compute; reflexivity).
  - right; right; now left.
  - repeat constructor.
  - cbn. lia.
Defined.

(** X24: the removal of the session at the end of a completed generation
    does not last.  When the handler resolves in COMPLETED the entry is
    gone, but the save effect run on that page stores a session again, in
    state COMPLETED and without the audio buffer; the load effect of a
    fresh page ignores such a session: the page stays idle with no topic
    and no assets, it asks nothing of the services, and the entry stays in
    [localStorage]. *)
Theorem completed_session_is_stored_again :
  forall (svc svc' : Gemini.Service) (cl : App.Captured) (ft : option string)
         (ra : option App.GeneratedAssets) (fs : option string)
         (p q : App.Page),
    App.blank_topic cl ft = false ->
    App.handleGenerate svc cl ft ra fs p = Gemini.Resolved tt q ->
    App.state q = App.COMPLETED ->
    App.localStorage q = None
    /\ exists sess,
         App.saveSession q = Gemini.Resolved tt (App.set_localStorage (Some sess) q)
         /\ App.savedState sess = App.COMPLETED
         /\ App.savedTopic sess = App.topic p
         /\ App.videoUrls (App.savedAssets sess) = App.videoUrls (App.assets q)
         /\ App.audioBuffer (App.savedAssets sess) = None
         /\ App.loadSession svc' (App.initial (Some sess))
            = Gemini.Resolved tt (App.initial (Some sess)).
Proof.
  intros svc svc' cl ft ra fs p q Hb E St.
  pose proof (handleGenerate_spec svc cl ft ra fs p Hb) as H. cbn zeta in H.
  rewrite E in H.
  destruct H as [(q0 & d & swi & swv & audio & K & V & -> & _)
                |(q0 & msg & K & -> & T)]; [|discriminate].
  destruct K as (K1 & _). cbn in K1.
  split; [reflexivity|].
  eexists. split; [reflexivity|]. cbn.
  repeat split. exact K1.
Qed.

Lemma completed_session_is_stored_again_witness :
  App.localStorage (Gemini.final (App.clickGenerate workingService catsPage))
  = None
  /\ exists sess,
       App.localStorage
         (Gemini.final
            (App.saveSession
               (Gemini.final (App.clickGenerate workingService catsPage))))
       = Some sess
       /\ App.savedState sess = App.COMPLETED.
Proof.
  destruct (completed_session_is_stored_again workingService workingService
              (App.captured catsPage) None None None catsPage
              (Gemini.final (App.clickGenerate workingService catsPage)))
    as (EN & sess & ES & EC & _); try (vm_compute; reflexivity).
  split; [exact EN|]. exists sess. rewrite ES. split; [reflexivity | exact EC].
Defined.

(* ================================================================= *)
(** ** The text handed to [JSON.parse] *)

Ltac decide_chars :=
  repeat match goal with
         | |- context [ascii_dec ?a ?b] =>
             destruct (ascii_dec a b); subst; try contradiction
         end.

Lemma prefix_empty (r : string) : String.prefix "" r = true.
Proof. now destruct r. Qed.

Lemma removeAll_other (c : ascii) (r : string) :
  "`"%char <> c ->
  removeAll_from "```" 0 (String c r) = String c (removeAll_from "```" 0 r).
Proof.
  intro H. cbn [removeAll_from prefix]. now decide_chars.
Qed.

Lemma removeAll_tick (r : string) :
  String.prefix "``" r = false ->
  removeAll_from "```" 0 (String "`" r) = String "`" (removeAll_from "```" 0 r).
Proof.
  intro H. cbn [removeAll_from prefix]. decide_chars. now rewrite H.
Qed.

Lemma removeAll_fence (r : string) :
  removeAll_from "```" 0 (String "`" (String "`" (String "`" r)))
  = removeAll_from "```" 0 r.
Proof.
  cbn [removeAll_from prefix String.length Nat.sub]. decide_chars.
  now rewrite prefix_empty.
Qed.

Lemma two_ticks_inv (r : string) :
  String.prefix "``" r = true -> exists r', r = String "`" (String "`" r').
Proof.
  destruct r as [|a [|b r']]; cbn [prefix]; decide_chars; try discriminate.
  intros _. now exists r'.
Qed.

Lemma one_tick_inv (r : string) :
  String.prefix "`" r = false ->
  r = EmptyString \/ exists b r', r = String b r' /\ "`"%char <> b.
Proof.
  destruct r as [|b r']; [now left|]. cbn [prefix].
  destruct (ascii_dec "`" b) as [<-|Hb].
  - rewrite prefix_empty. discriminate.
  - intros _. right. now exists b, r'.
Qed.

Lemma no_two_ticks_out (r : string) :
  String.prefix "``" r = false ->
  String.prefix "``" (removeAll_from "```" 0 r) = false.
Proof.
  destruct r as [|a r1]; [reflexivity|].
  destruct (ascii_dec "`" a) as [<-|Ha].
  2:{ intros _. rewrite (removeAll_other a r1 Ha). cbn [prefix].
      now decide_chars. }
  cbn [prefix]. decide_chars. intro H1.
  destruct (one_tick_inv r1 H1) as [-> | (b & r2 & -> & Hb)].
  - cbn [removeAll_from prefix]. decide_chars. reflexivity.
  - assert (H2 : String.prefix "``" (String b r2) = false)
      by (cbn [prefix]; now decide_chars).
    rewrite (removeAll_tick _ H2), (removeAll_other b r2 Hb).
    cbn [prefix]. now decide_chars.
Qed.

Lemma removeAll_fence_free_bounded (n : nat) :
  forall s, (String.length s <= n)%nat ->
    includes "```" (removeAll_from "```" 0 s) = false.
Proof.
  induction n as [|n IH]; intros s Hn.
  - destruct s; [reflexivity | cbn in Hn; lia].
  - destruct s as [|c r]; [reflexivity|].
    cbn [String.length] in Hn.
    destruct (ascii_dec "`" c) as [<-|Hc].
    2:{ rewrite (removeAll_other c r Hc). cbn [includes prefix]. decide_chars.
        cbn [orb]. apply IH. lia. }
    destruct (String.prefix "``" r) eqn:P.
    + destruct (two_ticks_inv r P) as [r' ->]. rewrite removeAll_fence.
      apply IH. cbn [String.length] in Hn. lia.
    + rewrite (removeAll_tick r P). cbn [includes prefix]. decide_chars.
      rewrite (no_two_ticks_out r P). cbn [orb]. apply IH. lia.
Qed.

Lemma removeAll_fence_free (s : string) :
  includes "```" (removeAll "```" s) = false.
Proof.
  apply (removeAll_fence_free_bounded (String.length s)). lia.
Qed.

Lemma includes_tail (p : string) (c : ascii) (s : string) :
  includes p (String c s) = false -> includes p s = false.
Proof.
  cbn [includes]. intro H. apply orb_false_iff in H. apply H.
Qed.

Lemma trimStart_keeps_free_bounded (p : string) (n : nat) :
  forall s, (String.length s <= n)%nat ->
    includes p s = false -> includes p (trimStart s) = false.
Proof.
  induction n as [|n IH]; intros s Hn H.
  - destruct s; [exact H | cbn in Hn; lia].
  - destruct s as [|c r]; [exact H|].
    cbn [String.length] in Hn. cbn [trimStart].
    pose proof (includes_tail p c r H) as Hr.
    destruct (between 9 13 c || isCode 32 c); [apply IH; [lia | exact Hr]|].
    destruct r as [|d r']; [exact H|].
    cbn [String.length] in Hn.
    pose proof (includes_tail p d r' Hr) as Hr'.
    destruct (isCode 194 c && isCode 160 d); [apply IH; [lia | exact Hr']|].
    destruct r' as [|e r'']; [exact H|].
    cbn [String.length] in Hn.
    pose proof (includes_tail p e r'' Hr') as Hr''.
    match goal with
    | |- context [if ?b then _ else _] => destruct b
    end; [apply IH; [lia | exact Hr''] | exact H].
Qed.

Lemma prefix_trans (a b c : string) :
  String.prefix a b = true -> String.prefix b c = true ->
  String.prefix a c = true.
Proof.
  revert b c. induction a as [|x a IH]; intros b c Hab Hbc.
  - apply prefix_empty.
  - destruct b as [|y b]; [discriminate|].
    destruct c as [|z c]; [discriminate|].
    cbn [prefix] in *.
    destruct (ascii_dec x y) as [<-|]; [|discriminate].
    destruct (ascii_dec x z) as [<-|]; [|discriminate].
    eapply IH; eassumption.
Qed.

Lemma trimEnd_prefix (s : string) : String.prefix (trimEnd s) s = true.
Proof.
  induction s as [|c r IH]; [reflexivity|].
  cbn [trimEnd]. destruct (blank (String c r)); [reflexivity|].
  cbn [prefix]. destruct (ascii_dec c c); [exact IH | contradiction].
Qed.

Lemma trimEnd_keeps_free (p s : string) :
  includes p s = false -> includes p (trimEnd s) = false.
Proof.
  induction s as [|c r IH]; intro H; [exact H|].
  cbn [trimEnd]. destruct (blank (String c r)) eqn:B.
  - destruct p; [|reflexivity]. cbn in H. discriminate.
  - pose proof (trimEnd_prefix (String c r)) as T. cbn [trimEnd] in T.
    rewrite B in T.
    cbn [includes] in H |- *. apply orb_false_iff in H as [H1 H2].
    rewrite (IH H2), orb_false_r.
    destruct (String.prefix p (String c (trimEnd r))) eqn:E; [|reflexivity].
    rewrite (prefix_trans _ _ _ E T) in H1. discriminate.
Qed.

Lemma cleaned_fence_free (t : string) :
  includes "```" (trim (removeAll "```" (removeAll "```json" t))) = false.
Proof.
  unfold trim. apply trimEnd_keeps_free.
  apply (trimStart_keeps_free_bounded _ (String.length _) _ (le_n _)).
  apply removeAll_fence_free.
Qed.

(** X25: no code fence reaches [JSON.parse].  [generateScript] asks the
    model exactly once; when it resolves, its result is what [JSON.parse]
    made of a text in which three backquotes in a row do not occur, however
    the model wrapped its answer; when it rejects, the error is the model's
    own, or one of the function's two, and a failed parse is also written to
    the console. *)
Theorem generateScript_parses_unfenced_text :
  forall (svc : Gemini.Service) (topic style : string) (tr : Gemini.Trace),
    let request := Gemini.GenerateContent "gemini-3-flash-preview" [topic; style] in
    match Gemini.generateScript svc topic style tr with
    | Gemini.Resolved d tr' =>
        tr' = tr ++ [request]
        /\ exists cleaned,
             Gemini.JSON_parse svc cleaned = Some d
             /\ includes "```" cleaned = false
    | Gemini.Rejected e tr' =>
        (tr' = tr ++ [request]
         /\ (Gemini.generateContent svc (List.length tr) = Gemini.RejectedWith e
             \/ e = Gemini.newError "No script generated"))
        \/ (tr' = tr ++ [request; Gemini.ConsoleError]
            /\ e = Gemini.newError "Failed to parse script format.")
    | Gemini.Pending tr' =>
        tr' = tr ++ [request]
        /\ Gemini.generateContent svc (List.length tr) = Gemini.Unsettled
    end.
Proof.
  intros svc topic style tr request.
  unfold Gemini.generateScript. fold request.
  unfold Gemini.andThen at 1. unfold Gemini.await.
  destruct (Gemini.generateContent svc (List.length tr)) as [r|e|].
  - destruct (Gemini.text r) as [t|].
    2:{ left. split; [reflexivity | now right]. }
    destruct (truthy t); cbn [negb].
    2:{ left. split; [reflexivity | now right]. }
    cbn zeta.
    destruct (Gemini.JSON_parse svc _) as [d|] eqn:P.
    + split; [reflexivity|]. eexists. split; [exact P|].
      apply cleaned_fence_free.
    + right. unfold Gemini.andThen, Gemini.log, Gemini.update, Gemini.reject.
      rewrite <- app_assoc. split; reflexivity.
  - left. split; [reflexivity | now left].
  - split; reflexivity.
Qed.

